(** * Dashboard panel context menu and UI settings client

    A shallow embedding of

    - [build_context_menu.ts]: [getActionsForPanel],
      [buildEuiContextMenuPanelItemsAndChildPanels], [buildEuiContextMenuPanels]
      and [convertPanelActionToContextMenuItem];
    - the [UiSettingsClient] class: [get], [set], [remove], [isDeclared],
      [isDefault], [isCustom], [isOverridden], [assertUpdateAllowed],
      [overrideLocalDefault], [subscribe], [_update], [_setLocally],
      [_broadcastUpdate], the constructor and [getAll].

    Part I holds the definitions, Part II the properties.

    How the code is read:

    - the menu builder is a pure function; its recursion has no bound in the
      source, so the model takes a depth bound and returns [None] when the
      bound is reached;
    - a method of the client is a function from the client to a result and
      the client it leaves behind; what the collaborators (the settings API,
      the observers, the notifier) receive is recorded in the client;
    - [set], [remove] and [_update] are [async]: a call returns a promise,
      which what the body returns fulfils and what it throws rejects; a call
      is followed from start to end, the answer of the API being a function
      of the request; overlapping calls are not modelled;
    - the settings maps are finite maps from names to entries, entries finite
      maps from field names to values; objects inside values are references,
      and section 4 of Part I gives the store they point into, for the two
      methods that copy object graphs;
    - [key in table] holds for the entries of the table and for the names
      every plain object inherits ([toString], [constructor], ...); what the
      client stores on an inherited object is kept beside its tables;
    - [JSON.parse], [JSON.stringify], [parseFloat] and the inherited names
      are parameters. *)

From Stdlib Require Import Floats.PrimFloat.
From stdpp Require Import base option list relations strings gmap fin_maps sorting.

Set Warnings "-register-all".

(** * Part I. Definitions *)

(** ** 1. The context-menu projection *)

Definition PanelId := string.

Section MenuDefs.

(** The collaborators' types: the embeddable and the container state the
    callbacks receive, what a panel renders as its content, and an icon. *)
Context {Embeddable ContainerState Content Icon : Type}.

(** [DashboardContextMenuPanel] of [ui/dashboard_panel_actions]: the fields the
    builder reads. *)
Record DashboardContextMenuPanel := {
  panel_id : PanelId;
  panel_title : string;
  getContent : option Embeddable → ContainerState → Content;
}.

(** [DashboardPanelAction]: [childContextMenuPanel] is optional, the three
    callbacks take [{ embeddable, containerState }]. The click handler is an
    effect of the page; it is kept as the name of what it runs. *)
Record DashboardPanelAction := {
  action_id : string;
  displayName : string;
  icon : Icon;
  parentPanelId : PanelId;
  childContextMenuPanel : option DashboardContextMenuPanel;
  isVisible : option Embeddable → ContainerState → bool;
  isDisabled : option Embeddable → ContainerState → bool;
}.

(** [EuiContextMenuPanelItemDescriptor]. [item_panel] is
    [_.get(action, 'childContextMenuPanel.id')]; [item_onClick] names the action
    whose [onClick] the closure calls. *)
Record EuiContextMenuPanelItemDescriptor := {
  item_name : string;
  item_icon : Icon;
  item_panel : option PanelId;
  item_onClick : string;
  item_disabled : bool;
  data_test_subj : string;
}.

(** [EuiContextMenuPanelDescriptor]. *)
Record EuiContextMenuPanelDescriptor := {
  eui_id : PanelId;
  eui_title : string;
  eui_items : list EuiContextMenuPanelItemDescriptor;
  eui_content : Content;
}.

(** [allActions.filter(action => action.parentPanelId === contextMenuPanelId)] *)
Definition getActionsForPanel (contextMenuPanelId : PanelId)
    (allActions : list DashboardPanelAction) : list DashboardPanelAction :=
  filter (λ action, parentPanelId action = contextMenuPanelId) allActions.

Definition convertPanelActionToContextMenuItem (action : DashboardPanelAction)
    (containerState : ContainerState) (embeddable : option Embeddable)
    : EuiContextMenuPanelItemDescriptor :=
  {| item_name := displayName action;
     item_icon := icon action;
     item_panel := panel_id <$> childContextMenuPanel action;
     item_onClick := action_id action;
     item_disabled := isDisabled action embeddable containerState;
     data_test_subj := "dashboardPanelAction-" +:+ action_id action |}.

(** One round of the [forEach] callback: [acc] is the pair of arrays
    [(items, childPanels)] built so far, [None] once a nested call has not
    returned. [buildPanels] is the recursive call to
    [buildEuiContextMenuPanels] with the same actions and context. *)
Definition forEachAction
    (buildPanels : DashboardContextMenuPanel → option (list EuiContextMenuPanelDescriptor))
    (embeddable : option Embeddable) (containerState : ContainerState)
    (acc : option (list EuiContextMenuPanelItemDescriptor * list EuiContextMenuPanelDescriptor))
    (action : DashboardPanelAction)
    : option (list EuiContextMenuPanelItemDescriptor * list EuiContextMenuPanelDescriptor) :=
  '(items, childPanels) ← acc;
  if negb (isVisible action embeddable containerState) then Some (items, childPanels)
  else
    childPanels' ←
      match childContextMenuPanel action with
      | Some child => sub ← buildPanels child; Some (childPanels ++ sub)
      | None => Some childPanels
      end;
    Some (items ++ [convertPanelActionToContextMenuItem action containerState embeddable],
          childPanels').

Definition buildEuiContextMenuPanelItemsAndChildPanels
    (buildPanels : DashboardContextMenuPanel → option (list EuiContextMenuPanelDescriptor))
    (contextMenuPanelId : PanelId) (actions : list DashboardPanelAction)
    (embeddable : option Embeddable) (containerState : ContainerState)
    : option (list EuiContextMenuPanelItemDescriptor * list EuiContextMenuPanelDescriptor) :=
  let actionsForPanel := getActionsForPanel contextMenuPanelId actions in
  foldl (forEachAction buildPanels embeddable containerState) (Some ([], [])) actionsForPanel.

(** [buildEuiContextMenuPanels]. The source recurses through the child panels
    without a bound; [fuel] bounds the depth of nested calls and [None] says the
    bound was reached before the call returned. *)
Fixpoint buildEuiContextMenuPanels (fuel : nat)
    (contextMenuPanel : DashboardContextMenuPanel) (actions : list DashboardPanelAction)
    (embeddable : option Embeddable) (containerState : ContainerState)
    : option (list EuiContextMenuPanelDescriptor) :=
  match fuel with
  | O => None
  | S fuel' =>
      let euiContextMenuPanel items :=
        {| eui_id := panel_id contextMenuPanel;
           eui_title := panel_title contextMenuPanel;
           eui_items := items;
           eui_content := getContent contextMenuPanel embeddable containerState |} in
      '(items, childPanels) ←
        buildEuiContextMenuPanelItemsAndChildPanels
          (λ child, buildEuiContextMenuPanels fuel' child actions embeddable containerState)
          (panel_id contextMenuPanel) actions embeddable containerState;
      Some (euiContextMenuPanel items :: childPanels)
  end.

(** The child-panel graph of one projection: an edge from panel id [i] to
    panel id [j] for each visible action on [i] whose child panel is [j]. *)
Definition childEdge (actions : list DashboardPanelAction)
    (embeddable : option Embeddable) (containerState : ContainerState)
    (i j : PanelId) : Prop :=
  ∃ action child,
    action ∈ actions ∧ parentPanelId action = i ∧
    isVisible action embeddable containerState = true ∧
    childContextMenuPanel action = Some child ∧ panel_id child = j.

(** No panel id reachable from [root] lies on a cycle. *)
Definition acyclicFrom (actions : list DashboardPanelAction)
    (embeddable : option Embeddable) (containerState : ContainerState)
    (root : PanelId) : Prop :=
  ∀ j, rtc (childEdge actions embeddable containerState) root j →
       ¬ tc (childEdge actions embeddable containerState) j j.

(** What [buildEuiContextMenuPanels] puts first: the panel itself, with the
    descriptors of its visible actions as items. *)
Definition ownPanel (contextMenuPanel : DashboardContextMenuPanel)
    (actions : list DashboardPanelAction)
    (embeddable : option Embeddable) (containerState : ContainerState)
    : EuiContextMenuPanelDescriptor :=
  {| eui_id := panel_id contextMenuPanel;
     eui_title := panel_title contextMenuPanel;
     eui_items :=
       (λ action, convertPanelActionToContextMenuItem action containerState embeddable) <$>
         filter (λ action, isVisible action embeddable containerState = true)
                (getActionsForPanel (panel_id contextMenuPanel) actions);
     eui_content := getContent contextMenuPanel embeddable containerState |}.

(** A visible action with its child panel, when it declares one. *)
Definition childOf (embeddable : option Embeddable) (containerState : ContainerState)
    (action : DashboardPanelAction)
    : option (DashboardPanelAction * DashboardContextMenuPanel) :=
  if isVisible action embeddable containerState
  then (λ child, (action, child)) <$> childContextMenuPanel action
  else None.

(** The visible actions of a panel that declare a child panel, in the order
    [forEach] meets them. *)
Definition visibleChildActions (contextMenuPanelId : PanelId)
    (actions : list DashboardPanelAction)
    (embeddable : option Embeddable) (containerState : ContainerState)
    : list (DashboardPanelAction * DashboardContextMenuPanel) :=
  omap (childOf embeddable containerState) (getActionsForPanel contextMenuPanelId actions).

End MenuDefs.

Arguments DashboardContextMenuPanel : clear implicits.
Arguments DashboardPanelAction : clear implicits.
Arguments EuiContextMenuPanelItemDescriptor : clear implicits.
Arguments EuiContextMenuPanelDescriptor : clear implicits.

(** *** Chains of child-panel actions *)

Section ChainDefs.
Context {Embeddable ContainerState Content Icon : Type}.

Local Abbreviation Panel := (DashboardContextMenuPanel Embeddable ContainerState Content).
Local Abbreviation Action := (DashboardPanelAction Embeddable ContainerState Content Icon).

(** A chain of actions that leads from a panel to a panel, as the positions
    of the actions in the list: each action is registered for the panel
    reached so far, is visible, and declares the child panel reached next. *)
Inductive chain (actions : list Action) (embeddable : option Embeddable)
    (containerState : ContainerState) : Panel → list nat → Panel → Prop :=
| chain_nil p : chain actions embeddable containerState p [] p
| chain_cons p k action child ks p' :
    actions !! k = Some action →
    parentPanelId action = panel_id p →
    isVisible action embeddable containerState = true →
    childContextMenuPanel action = Some child →
    chain actions embeddable containerState child ks p' →
    chain actions embeddable containerState p (k :: ks) p'.

(** Pre-order on chains: a chain goes before the chains that extend it, and
    before the chains that leave it at an action further down the list. *)
Inductive before : list nat → list nat → Prop :=
| before_nil k ks : before [] (k :: ks)
| before_head k1 k2 ks1 ks2 : k1 < k2 → before (k1 :: ks1) (k2 :: ks2)
| before_tail k ks1 ks2 : before ks1 ks2 → before (k :: ks1) (k :: ks2).

(** The positions, from [k] on, and the child panels of the visible actions
    of panel [i] in [l] that declare one. *)
Fixpoint childrenFrom (k : nat) (i : PanelId) (l : list Action)
    (embeddable : option Embeddable) (containerState : ContainerState)
    : list (nat * Panel) :=
  match l with
  | [] => []
  | action :: l' =>
      match childOf embeddable containerState action with
      | Some (_, child) =>
          if bool_decide (parentPanelId action = i)
          then (k, child) :: childrenFrom (S k) i l' embeddable containerState
          else childrenFrom (S k) i l' embeddable containerState
      | None => childrenFrom (S k) i l' embeddable containerState
      end
  end.

(** The chains that start at a panel, of fewer than [fuel] actions, in
    pre-order. *)
Fixpoint chainsFrom (fuel : nat) (p : Panel) (actions : list Action)
    (embeddable : option Embeddable) (containerState : ContainerState)
    : list (list nat) :=
  match fuel with
  | O => []
  | S fuel' =>
      [] :: concat ((λ kc : nat * Panel,
                       (kc.1 ::.) <$> chainsFrom fuel' kc.2 actions embeddable containerState)
                    <$> childrenFrom 0 (panel_id p) actions embeddable containerState)
  end.

End ChainDefs.

(** ** 2. JavaScript values *)

(** The identity of an object or array. *)
Definition loc := positive.

(** A value a setting can hold: the primitives, and objects and arrays, which
    the client only stores, passes on and compares by identity. Numbers are
    doubles. *)
Inductive value :=
| VUndefined
| VNull
| VBool (b : bool)
| VNum (f : float)
| VStr (s : string)
| VRef (l : loc).

(** [a === b]. Numbers compare as IEEE doubles ([NaN] differs from itself,
    the two zeros are equal), objects by identity. *)
Definition strict_eq (a b : value) : bool :=
  match a, b with
  | VUndefined, VUndefined => true
  | VNull, VNull => true
  | VBool x, VBool y => bool_decide (x = y)
  | VNum x, VNum y => PrimFloat.eqb x y
  | VStr x, VStr y => bool_decide (x = y)
  | VRef x, VRef y => bool_decide (x = y)
  | _, _ => false
  end.

(** [v == null] *)
Definition is_nullish (v : value) : bool :=
  match v with VUndefined | VNull => true | _ => false end.

(** [Boolean(v)] *)
Definition truthy (v : value) : bool :=
  match v with
  | VUndefined | VNull => false
  | VBool b => b
  | VNum f => negb (PrimFloat.eqb f 0 || PrimFloat.is_nan f)
  | VStr s => negb (bool_decide (s = ""))
  | VRef _ => true
  end.

(** [typeof v !== 'string'] *)
Definition not_string (v : value) : bool :=
  match v with VStr _ => false | _ => true end.

(** What the client's code throws. The source throws plain [Error]s told apart
    by their message; [JSON.parse] throws a [SyntaxError]. *)
Inductive error :=
| UnrecognizedSettingError (key : string)
| OverriddenSettingError (key : string)
| SyntaxError.

Inductive result (A : Type) :=
| Ok (a : A)
| Throw (err : error).
Arguments Ok {A} a.
Arguments Throw {A} err.

(** How the promise an [async] method returns has settled once the call is
    over. *)
Inductive promise (A : Type) :=
| Fulfilled (a : A)
| Rejected (err : error).
Arguments Fulfilled {A} a.
Arguments Rejected {A} err.

(** The built-ins the client calls. [JSON.parse] may throw; [JSON.stringify]
    and [parseFloat] return on every value above. [Object_prototype_has] says
    which property names every plain object inherits from [Object.prototype]
    ([toString], [constructor], ...): [in] finds them in any settings
    table. *)
Class Builtins := {
  JSON_parse : value → result value;
  JSON_stringify : value → value;
  parseFloat : value → value;
  Object_prototype_has : string → bool;
}.

(** ** 3. The settings client *)

(** One setting as the cache holds it: an object with the optional fields
    [value], [userValue], [type], [isOverridden], ... A field that is absent
    reads as [undefined]. *)
Definition field (entry : gmap string value) (name : string) : value :=
  default VUndefined (entry !! name).

(** [{ key, newValue, oldValue }] *)
Record UpdateEvent := {
  ev_key : string;
  ev_newValue : value;
  ev_oldValue : value;
}.

(** How [this._api.batchSet(key, value)] settles. *)
Inductive BatchSetResult :=
| Resolves (settings : gmap string (gmap string value))
| Rejects (reason : string).

(** The client's fields, and what lies outside the client: the user values
    it has stored on objects that its tables inherit (see [inherited] below),
    and what its collaborators have received so far, that is the requests
    sent through [_api], the calls of each observer, the errors given to
    [_notify.error]. Observers are told apart by a number, in the order they
    subscribed; they return normally and do not call the client back. *)
Record UiSettingsClient := {
  _defaults : gmap string (gmap string value);
  _cache : gmap string (gmap string value);
  _api : string → value → BatchSetResult;
  _updateObservers : list nat;
  inherited_userValue : gmap string value;
  batchSet_calls : list (string * value);
  observer_calls : list (nat * UpdateEvent);
  notify_errors : list string;
}.

Definition with_defaults (d : gmap string (gmap string value)) (this : UiSettingsClient) :=
  {| _defaults := d; _cache := _cache this; _api := _api this;
     _updateObservers := _updateObservers this;
     inherited_userValue := inherited_userValue this;
     batchSet_calls := batchSet_calls this;
     observer_calls := observer_calls this; notify_errors := notify_errors this |}.

Definition with_cache (c : gmap string (gmap string value)) (this : UiSettingsClient) :=
  {| _defaults := _defaults this; _cache := c; _api := _api this;
     _updateObservers := _updateObservers this;
     inherited_userValue := inherited_userValue this;
     batchSet_calls := batchSet_calls this;
     observer_calls := observer_calls this; notify_errors := notify_errors this |}.

Definition with_observers (os : list nat) (this : UiSettingsClient) :=
  {| _defaults := _defaults this; _cache := _cache this; _api := _api this;
     _updateObservers := os;
     inherited_userValue := inherited_userValue this;
     batchSet_calls := batchSet_calls this;
     observer_calls := observer_calls this; notify_errors := notify_errors this |}.

Definition with_inherited_userValue (us : gmap string value) (this : UiSettingsClient) :=
  {| _defaults := _defaults this; _cache := _cache this; _api := _api this;
     _updateObservers := _updateObservers this;
     inherited_userValue := us;
     batchSet_calls := batchSet_calls this;
     observer_calls := observer_calls this; notify_errors := notify_errors this |}.

Definition with_batchSet_calls (l : list (string * value)) (this : UiSettingsClient) :=
  {| _defaults := _defaults this; _cache := _cache this; _api := _api this;
     _updateObservers := _updateObservers this;
     inherited_userValue := inherited_userValue this;
     batchSet_calls := l;
     observer_calls := observer_calls this; notify_errors := notify_errors this |}.

Definition with_observer_calls (l : list (nat * UpdateEvent)) (this : UiSettingsClient) :=
  {| _defaults := _defaults this; _cache := _cache this; _api := _api this;
     _updateObservers := _updateObservers this;
     inherited_userValue := inherited_userValue this;
     batchSet_calls := batchSet_calls this;
     observer_calls := l; notify_errors := notify_errors this |}.

Definition with_notify_errors (l : list string) (this : UiSettingsClient) :=
  {| _defaults := _defaults this; _cache := _cache this; _api := _api this;
     _updateObservers := _updateObservers this;
     inherited_userValue := inherited_userValue this;
     batchSet_calls := batchSet_calls this;
     observer_calls := observer_calls this; notify_errors := l |}.

(** A client that has sent nothing, called nobody and stored nothing yet. *)
Definition newClient (defaults cache : gmap string (gmap string value))
    (api : string → value → BatchSetResult) (observers : list nat) : UiSettingsClient :=
  {| _defaults := defaults; _cache := cache; _api := api;
     _updateObservers := observers;
     inherited_userValue := ∅;
     batchSet_calls := []; observer_calls := []; notify_errors := [] |}.

(** A method that may change the client and may throw: what it returns or
    throws, and the client it leaves behind (changes made before a throw
    stay). *)
Definition M (A : Type) : Type := UiSettingsClient → result A * UiSettingsClient.

Definition ret {A} (a : A) : M A := λ this, (Ok a, this).
Definition bind {A B} (m : M A) (k : A → M B) : M B :=
  λ this, match m this with
          | (Ok a, this') => k a this'
          | (Throw err, this') => (Throw err, this')
          end.
Definition read {A} (f : UiSettingsClient → A) : M A := λ this, (Ok (f this), this).
Definition modify (f : UiSettingsClient → UiSettingsClient) : M unit := λ this, (Ok tt, f this).
Definition lift {A} (f : UiSettingsClient → result A) : M A := λ this, (f this, this).

(** [async f(...) { body }]: the call itself returns, with a promise; what
    the body returns fulfils the promise, what it throws rejects it. The body
    is followed to its end, so the promise has settled when the call is
    over. *)
Definition async {A} (body : M A) : M (promise A) :=
  λ this, match body this with
          | (Ok a, this') => (Ok (Fulfilled a), this')
          | (Throw err, this') => (Ok (Rejected err), this')
          end.

(** [await promise], inside an [async] body: the value of a fulfilled
    promise, a throw for a rejected one. *)
Definition await {A} (m : M (promise A)) : M A :=
  λ this, match m this with
          | (Ok (Fulfilled a), this') => (Ok a, this')
          | (Ok (Rejected err), this') => (Throw err, this')
          | (Throw err, this') => (Throw err, this')
          end.

Declare Scope client_scope.
Delimit Scope client_scope with client.
Notation "x ←' m ; k" := (bind m (λ x, k))
  (at level 20, m at level 100, k at level 200, right associativity,
   only parsing) : client_scope.
Notation "m ;;' k" := (bind m (λ _, k))
  (at level 100, k at level 200, right associativity, only parsing) : client_scope.

(** Modelled from the spec: [defaultsDeep] is lodash's and not among the
    sources. The spec has the cache refreshed "by deep-merging the declared
    defaults with the settings snapshot returned by the server"; as lodash
    documents [_.defaultsDeep({}, source1, source2)], a property is taken from
    the first source that has it with a value other than [undefined], and
    nested objects are merged the same way, property by property. The result
    shares no entry with its sources. A value that is itself an object is
    kept as the reference it is (module [Refs] below follows such objects). *)
Definition defaultsField (a b : value) : option value :=
  Some (if strict_eq a VUndefined then b else a).

Definition defaultsEntry (a b : gmap string value) : option (gmap string value) :=
  Some (union_with defaultsField a b).

Definition defaultsDeep (sources : list (gmap string (gmap string value)))
    : gmap string (gmap string value) :=
  foldl (union_with defaultsEntry) ∅ sources.

Section ClientDefs.

Context `{Builtins}.

(** [key in table], for a settings table: the table has an entry of its own
    under the name, or the name is one every plain object inherits. *)
Definition has_key (table : gmap string (gmap string value)) (key : string) : bool :=
  bool_decide (is_Some (table !! key)) || Object_prototype_has key.

(** [Boolean(key in this._cache)] *)
Definition isDeclared (this : UiSettingsClient) (key : string) : bool :=
  has_key (_cache this) key.

(** [table[key]] for a table of the client that has no entry of its own
    under the name: [undefined], or for a name every plain object inherits,
    the inherited function or object. Of the fields the client reads, that
    object has [userValue] once [_setLocally] has stored one on it, and no
    other. It is one object for the cache and the defaults, and it stays when
    the cache is replaced. (Under [__proto__] the inherited object is
    [Object.prototype] itself; a user value stored on it would show in every
    entry, which is not followed here.) *)
Definition inherited (this : UiSettingsClient) (key : string) : gmap string value :=
  if Object_prototype_has key
  then match inherited_userValue this !! key with
       | Some userValue => {[ "userValue" := userValue ]}
       | None => ∅
       end
  else ∅.

(** [table[key]], as far as the client reads it: the entry of the table, the
    inherited object, or no field at all when there is neither. *)
Definition entry_of (this : UiSettingsClient) (table : gmap string (gmap string value))
    (key : string) : gmap string value :=
  default (inherited this key) (table !! key).

(** [this._cache[key]] *)
Definition cached (this : UiSettingsClient) (key : string) : gmap string value :=
  entry_of this (_cache this) key.

(** [this._cache[key].userValue = ...] and [delete this._cache[key].userValue],
    given the entry as it is afterwards: the change is made to the entry of
    the cache, or to the inherited object when the cache has no entry of its
    own. *)
Definition store_cached (key : string) (entry : gmap string value)
    (this : UiSettingsClient) : UiSettingsClient :=
  let own := bool_decide (is_Some (_cache this !! key)) in
  with_cache (if own then <[key := entry]> (_cache this) else _cache this)
    (with_inherited_userValue
       (if own then inherited_userValue this
        else match entry !! "userValue" with
             | Some userValue => <[key := userValue]> (inherited_userValue this)
             | None => delete key (inherited_userValue this)
             end)
       this).

Definition isDefault (this : UiSettingsClient) (key : string) : bool :=
  negb (isDeclared this key) || is_nullish (field (cached this key) "userValue").

Definition isCustom (this : UiSettingsClient) (key : string) : bool :=
  isDeclared this key && negb (bool_decide (is_Some (cached this key !! "value"))).

Definition isOverridden (this : UiSettingsClient) (key : string) : bool :=
  isDeclared this key && truthy (field (cached this key) "isOverridden").

(** [get(key, defaultValue)]; a missing second argument is [undefined]. *)
Definition get (this : UiSettingsClient) (key : string) (defaultValue : value)
    : result value :=
  if negb (isDeclared this key) then
    if negb (strict_eq defaultValue VUndefined) then Ok defaultValue
    else Throw (UnrecognizedSettingError key)
  else
    let userValue := field (cached this key) "userValue" in
    let definedDefault := field (cached this key) "value" in
    let type := field (cached this key) "type" in
    let currentValue :=
      if isDefault this key
      then (if strict_eq defaultValue VUndefined then definedDefault else defaultValue)
      else userValue in
    if strict_eq type (VStr "json") then JSON_parse currentValue
    else if strict_eq type (VStr "number") then Ok (parseFloat currentValue)
    else Ok currentValue.

Definition assertUpdateAllowed (key : string) : M unit :=
  λ this, if isOverridden this key
          then (Throw (OverriddenSettingError key), this)
          else (Ok tt, this).

(** The calls one [_broadcastUpdate] makes: each observer once, with
    [{ key, newValue, oldValue }]. *)
Definition broadcast (observers : list nat) (key : string) (newValue oldValue : value)
    : list (nat * UpdateEvent) :=
  (λ observer, (observer, {| ev_key := key; ev_newValue := newValue;
                             ev_oldValue := oldValue |})) <$> observers.

Definition _broadcastUpdate (key : string) (newValue oldValue : value) : M unit :=
  modify (λ this,
    with_observer_calls
      (observer_calls this ++ broadcast (_updateObservers this) key newValue oldValue)
      this).

(** [this._defaults[key] ? this._defaults[key].value : undefined] reads
    [undefined] from an inherited object, which has no [value]; the two
    object spreads copy the fields of the entry read, and the assignments
    give the table an entry of its own. *)
Definition overrideLocalDefault (key : string) (newDefault : value) : M unit :=
  (prevDefault ←' read (λ this,
      match _defaults this !! key with
      | Some d => field d "value"
      | None => VUndefined
      end);
   modify (λ this,
      with_defaults
        (<[key := <["value" := newDefault]> (entry_of this (_defaults this) key)]>
           (_defaults this)) this) ;;'
   modify (λ this,
      with_cache
        (<[key := <["value" := newDefault]> (cached this key)]> (_cache this)) this) ;;'
   userValue ←' read (λ this, field (cached this key) "userValue");
   if is_nullish userValue
   then _broadcastUpdate key newDefault prevDefault
   else ret tt)%client.

(** [subscribe(observer)] adds to a [Set]; the handle it returns is
    [unsubscribe]. *)
Definition subscribe (observer : nat) : M unit :=
  modify (λ this,
    if bool_decide (observer ∈ _updateObservers this) then this
    else with_observers (_updateObservers this ++ [observer]) this).

Definition unsubscribe (observer : nat) : M unit :=
  modify (λ this,
    with_observers (filter (λ o, o ≠ observer) (_updateObservers this)) this).

(** The [if (newValue === null) ... else ...] block of [_setLocally], on the
    entry [this._cache[key]]. *)
Definition storeUserValue (entry : gmap string value) (newValue : value)
    : gmap string value :=
  if strict_eq newValue VNull then delete "userValue" entry
  else if strict_eq (field entry "type") (VStr "json") && not_string newValue
       then <["userValue" := JSON_stringify newValue]> entry
       else <["userValue" := newValue]> entry.

Definition _setLocally (key : string) (newValue : value) : M unit :=
  (assertUpdateAllowed key ;;'
   declared ←' read (λ this, isDeclared this key);
   (if declared then ret tt
    else modify (λ this, with_cache (<[key := ∅]> (_cache this)) this)) ;;'
   oldValue ←' lift (λ this, get this key VUndefined);
   modify (λ this, store_cached key (storeUserValue (cached this key) newValue) this) ;;'
   _broadcastUpdate key newValue oldValue)%client.

(** [key in defaults && defaults[key].defaultValue === value ? null : value];
    an inherited object has no [defaultValue]. *)
Definition newValOf (defaults : gmap string (gmap string value)) (key : string)
    (val : value) : value :=
  if has_key defaults key &&
     strict_eq (field (default ∅ (defaults !! key)) "defaultValue") val
  then VNull else val.

(** The statements of [_update(key, value)], from
    [this.assertUpdateAllowed(key)] to the last [return]. They are followed to
    the end, with nothing else running while the call waits: the promise of
    [batchSet] settles as [_api] says, and [await] hands its settings to the
    [try] block or throws into the [catch]. *)
Definition _updateBody (key : string) (value : value) : M bool :=
  (assertUpdateAllowed key ;;'
   declared ←' read (λ this, isDeclared this key);
   defaults ←' read _defaults;
   oldVal ←' read (λ this,
      if declared then field (cached this key) "userValue" else VUndefined);
   let newVal := newValOf defaults key value in
   let unchanged := strict_eq oldVal newVal in
   if unchanged then ret true
   else
     initialVal ←' (if declared then lift (λ this, get this key VUndefined)
                    else ret VUndefined);
     _setLocally key newVal ;;'
     modify (λ this, with_batchSet_calls (batchSet_calls this ++ [(key, newVal)]) this) ;;'
     answer ←' read (λ this, _api this key newVal);
     match answer with
     | Resolves settings =>
         modify (with_cache (defaultsDeep [defaults; settings])) ;;'
         ret true
     | Rejects reason =>
         _setLocally key initialVal ;;'
         modify (λ this, with_notify_errors (notify_errors this ++ [reason]) this) ;;'
         ret false
     end)%client.

(** What [get(key)] returns for a declared key, from its entry alone. *)
Definition effectiveValue (entry : gmap string value) : result value :=
  let currentValue :=
    if is_nullish (field entry "userValue") then field entry "value"
    else field entry "userValue" in
  if strict_eq (field entry "type") (VStr "json") then JSON_parse currentValue
  else if strict_eq (field entry "type") (VStr "number") then Ok (parseFloat currentValue)
  else Ok currentValue.

(** The client a rejected update leaves behind when both reads of the value
    return: the stored value overwritten twice, two rounds of observer calls,
    one request, one error reported. *)
Definition afterRejected (this : UiSettingsClient) (key : string) (newVal : value)
    (entry : gmap string value) (initialVal shown : value) (reason : string)
    : UiSettingsClient :=
  with_notify_errors (notify_errors this ++ [reason])
    (with_observer_calls
       ((observer_calls this ++ broadcast (_updateObservers this) key newVal initialVal)
          ++ broadcast (_updateObservers this) key initialVal shown)
       (with_batchSet_calls (batchSet_calls this ++ [(key, newVal)])
          (store_cached key (storeUserValue (storeUserValue entry newVal) initialVal)
             (store_cached key (storeUserValue entry newVal) this)))).

(** [async _update(key, value) { ... }] *)
Definition _update (key : string) (value : value) : M (promise bool) :=
  async (_updateBody key value).

(** [async set(key, val) { return await this._update(key, val); }] *)
Definition set (key : string) (val : value) : M (promise bool) :=
  async (await (_update key val)).

(** [async remove(key) { return await this._update(key, null); }] *)
Definition remove (key : string) : M (promise bool) :=
  async (await (_update key VNull)).

End ClientDefs.

(** The constructor on settings maps. A map is a value, so a deep copy of a
    map is the map itself, and a new [Set] is the empty list:
    [this._defaults = cloneDeep(defaults);
     this._cache = defaultsDeep({}, this._defaults, cloneDeep(initialSettings));
     this._api = api; this._updateObservers = new Set()].
    (Section 4 has the constructor on objects that can be shared.) *)
Definition constructor (defaults initialSettings : gmap string (gmap string value))
    (api : string → value → BatchSetResult) : UiSettingsClient :=
  newClient defaults (defaultsDeep [defaults; initialSettings]) api [].

(** What a call on [key] may change: nothing of the defaults, the API or the
    observers, and what the observers hear is about [key]. *)
Definition touchesOnly (key : string) (this this' : UiSettingsClient) : Prop :=
  _defaults this' = _defaults this ∧
  _api this' = _api this ∧
  _updateObservers this' = _updateObservers this ∧
  ∃ events,
    observer_calls this' = observer_calls this ++ events ∧
    Forall (λ call : nat * UpdateEvent,
              call.1 ∈ _updateObservers this ∧ ev_key call.2 = key) events.

(** ** 4. Object graphs

    The settings the caller passes in and gets back are objects that refer to
    other objects. Here the store of objects is explicit, so that it can be
    said which objects two values share. An object is its list of own
    properties, in insertion order (an array is an object whose keys are its
    indices); the store maps locations to objects. *)

Module Refs.

(** What an object graph holds, without the identities of its objects. *)
Inductive tree :=
| Leaf (v : value)
| Node (fields : list (string * tree)).

Section Defs.

Implicit Types (h : gmap loc (list (string * value))) (v : value) (t : tree).

(** The content of a value: [None] when an object is missing or the graph is
    deeper than [fuel] (a cycle is deeper than any). *)
Fixpoint snapshot (fuel : nat) h v : option tree :=
  match v with
  | VRef l =>
      match fuel with
      | O => None
      | S fuel' =>
          fields ← h !! l;
          ts ← mapM (λ kv : string * value, t ← snapshot fuel' h kv.2; Some (kv.1, t)) fields;
          Some (Node ts)
      end
  | _ => Some (Leaf v)
  end.

(** New objects holding a given content, the properties first, then the
    object itself at a location not in use. *)
Fixpoint plantWith (plantOne : tree → gmap loc (list (string * value)) →
                                 value * gmap loc (list (string * value)))
    (fields : list (string * tree)) h
    : list (string * value) * gmap loc (list (string * value)) :=
  match fields with
  | [] => ([], h)
  | (k, t) :: rest =>
      let '(v, h1) := plantOne t h in
      let '(props, h2) := plantWith plantOne rest h1 in
      ((k, v) :: props, h2)
  end.

Fixpoint plant t h : value * gmap loc (list (string * value)) :=
  match t with
  | Leaf v => (v, h)
  | Node fields =>
      let '(props, h1) := plantWith plant fields h in
      let l := fresh (dom h1) in
      (VRef l, <[l := props]> h1)
  end.

(** Modelled from the spec: [cloneDeep] is lodash's and not among the
    sources. What is said of it is that its result is a deep copy; lodash
    documents [_.cloneDeep(value)] as "recursively clones value": a primitive
    is returned as it is, an object or array as a new object with clones of
    its properties. An object met on two paths is cloned once per path. *)
Definition cloneDeep (fuel : nat) h v : option (value * gmap loc (list (string * value))) :=
  t ← snapshot fuel h v; Some (plant t h).

(** The property [k] of a list of properties. *)
Fixpoint assoc {A} (k : string) (l : list (string * A)) : option A :=
  match l with
  | [] => None
  | (k', a) :: rest => if bool_decide (k' = k) then Some a else assoc k rest
  end.

(** Modelled from the spec: [defaultsDeep] is lodash's and not among the
    sources; the spec calls it deep-merging. Lodash documents
    [_.defaultsDeep(object, sources)] as "recursively assigns default
    properties": a property of the source is assigned where the destination's
    property resolves to [undefined], two objects are merged property by
    property, anything else is left. Kept properties stay in place, new ones
    are added after them. [fillWith] does this for one property of the
    destination, [defaultsTree] for a whole content. *)
Definition fillWith (fillOne : tree → tree → tree) (fb : list (string * tree))
    (ka : string * tree) : string * tree :=
  (ka.1,
   match assoc ka.1 fb with
   | Some tb =>
       match ka.2, tb with
       | Leaf VUndefined, _ => tb
       | Node _, Node _ => fillOne ka.2 tb
       | _, _ => ka.2
       end
   | None => ka.2
   end).

Fixpoint defaultsTree (a b : tree) : tree :=
  match a, b with
  | Node fa, Node fb =>
      Node (map (fillWith defaultsTree fb) fa
            ++ filter (λ kv : string * tree, assoc kv.1 fa = None) fb)
  | _, _ => a
  end.

(** [_.defaultsDeep({}, source1, ...)]: the destination is a new object, so
    the result is made of new objects throughout. *)
Definition defaultsDeep (fuel : nat) h (sources : list value)
    : option (value * gmap loc (list (string * value))) :=
  ts ← mapM (snapshot fuel h) sources;
  Some (plant (foldl defaultsTree (Node []) ts) h).

(** The two fields of the client that hold settings. *)
Record client := { _defaults : value; _cache : value }.

(** [this._defaults = cloneDeep(defaults);
     this._cache = defaultsDeep({}, this._defaults, cloneDeep(initialSettings))] *)
Definition constructor (fuel : nat) h (defaults initialSettings : value)
    : option (client * gmap loc (list (string * value))) :=
  '(d, h1) ← cloneDeep fuel h defaults;
  '(s, h2) ← cloneDeep fuel h1 initialSettings;
  '(c, h3) ← defaultsDeep fuel h2 [d; s];
  Some ({| _defaults := d; _cache := c |}, h3).

(** [getAll() { return cloneDeep(this._cache) }] *)
Definition getAll (fuel : nat) h (this : client) := cloneDeep fuel h (_cache this).

(** The settings map of section 3 that a value of the store stands for: the
    properties of the object, each read as an entry. *)
Definition propertiesOf h v : gmap string value :=
  match v with
  | VRef l => list_to_map (default [] (h !! l))
  | _ => ∅
  end.

Definition settingsOf h v : gmap string (gmap string value) :=
  propertiesOf h <$> propertiesOf h v.

(** [l'] is a property of [l]; [reach h v l]: [l] is the object [v] or an
    object reached from it through properties. *)
Definition edge h (l l' : loc) : Prop :=
  ∃ fields k, h !! l = Some fields ∧ (k, VRef l') ∈ fields.

Definition reach h v (l : loc) : Prop :=
  ∃ l0, v = VRef l0 ∧ rtc (edge h) l0 l.

(** What planting a content does to the store: what was there stays, and the
    value returned leads to new objects only, all of them in the store. *)
Definition planted h v g : Prop :=
  h ⊆ g ∧ ∀ x, reach g v x → x ∈ dom g ∧ x ∉ dom h.

(** A content with no reference left in it. *)
Inductive pure : tree → Prop :=
| pure_Leaf v : (∀ l, v ≠ VRef l) → pure (Leaf v)
| pure_Node fields : Forall (λ kt : string * tree, pure kt.2) fields → pure (Node fields).

(** The objects that make up the client's settings. *)
Definition clientReach h (this : client) (x : loc) : Prop :=
  reach h (_cache this) x ∨ reach h (_defaults this) x.

(** Every object a value leads to is in the store. *)
Definition closedIn h v : Prop := ∀ x, reach h v x → x ∈ dom h.

Definition wellFormed h (this : client) : Prop :=
  closedIn h (_cache this) ∧ closedIn h (_defaults this).

(** What a caller that holds [roots] can do to the store: replace the
    properties of an object it can reach from them, or create an object; the
    values it writes lead to none of the client's objects (it holds none). *)
Inductive mutated (this : client) (roots : list value)
    : gmap loc (list (string * value)) → gmap loc (list (string * value)) → Prop :=
| mutated_done h : mutated this roots h h
| mutated_write h l fields h' :
    (∃ r, r ∈ roots ∧ reach h r l) ∨ l ∉ dom h →
    (∀ k w x, (k, w) ∈ fields → reach h w x → ¬ clientReach h this x) →
    mutated this roots (<[l := fields]> h) h' →
    mutated this roots h h'.

(** What [getAll] returns, as content. *)
Definition getAllContent (fuel : nat) h (this : client) : option tree :=
  '(copy, h') ← getAll fuel h this; snapshot fuel h' copy.

(** [get] of section 3 on the settings the store holds for the client. *)
Definition get `{Builtins} h (this : client) (key : string) (defaultValue : value)
    : result value :=
  get (newClient (settingsOf h (_defaults this)) (settingsOf h (_cache this))
         (λ _ _, Rejects "") [])
      key defaultValue.

(** The client answers in [h'] as it does in [h]. *)
Definition sameAnswers `{Builtins} (this : client) h h' : Prop :=
  (∀ key defaultValue, get h' this key defaultValue = get h this key defaultValue) ∧
  (∀ n, getAllContent n h' this = getAllContent n h this) ∧
  (∀ n, snapshot n h' (_cache this) = snapshot n h (_cache this)) ∧
  (∀ n, snapshot n h' (_defaults this) = snapshot n h (_defaults this)).

End Defs.
End Refs.

(** ** 5. Sample inputs *)

(** The objects [JSON.parse] makes of the two container texts below. *)
Definition sampleObject : loc := 1%positive.
Definition sampleArray : loc := 2%positive.

(** The properties of [Object.prototype] in a browser (ECMAScript, with its
    annex B). *)
Definition Object_prototype_names : list string :=
  ["constructor"; "hasOwnProperty"; "isPrototypeOf"; "propertyIsEnumerable";
   "toLocaleString"; "toString"; "valueOf"; "__proto__";
   "__defineGetter__"; "__defineSetter__"; "__lookupGetter__"; "__lookupSetter__"].

(** A fragment of the built-ins, enough to run the samples below: the three
    JSON texts listed parse as ECMAScript says (the two containers to fresh
    objects), a text that is no JSON value throws, numbers print and parse to
    themselves. The samples call the built-ins on no other input. *)
Definition sampleBuiltins : Builtins := {|
  JSON_parse v :=
    match v with
    | VStr "null" => Ok VNull
    | VStr "{}" => Ok (VRef sampleObject)
    | VStr "[]" => Ok (VRef sampleArray)
    | _ => Throw SyntaxError
    end;
  JSON_stringify v :=
    match v with
    | VNull => VStr "null"
    | _ => VUndefined
    end;
  parseFloat v :=
    match v with
    | VNum f => if PrimFloat.eqb f 0 then VNum 0 else VNum f
    | _ => VNum nan
    end;
  Object_prototype_has name := bool_decide (name ∈ Object_prototype_names);
|}.

(** A server that stores what it is sent and answers with the stored user
    values; one whose endpoint is down. *)
Definition storingServer (key : string) (value : value) : BatchSetResult :=
  Resolves (if strict_eq value VNull then ∅ else {[ key := {[ "userValue" := value ]} ]}).

Definition failingServer (key : string) (value : value) : BatchSetResult :=
  Rejects "Request failed".

(** [dateFormat] is declared with a default; the user has chosen another
    format ([dateFormatChosen]) or none ([dateFormatUntouched]). *)
Definition dateFormatDefaults : gmap string (gmap string value) :=
  {[ "dateFormat" := {[ "value" := VStr "MMMM Do YYYY" ]} ]}.

Definition dateFormatChosen (api : string → value → BatchSetResult) : UiSettingsClient :=
  newClient dateFormatDefaults
    {[ "dateFormat" := {[ "value" := VStr "MMMM Do YYYY"; "userValue" := VStr "YYYY-MM-DD" ]} ]}
    api [7].

Definition dateFormatUntouched (api : string → value → BatchSetResult) : UiSettingsClient :=
  newClient dateFormatDefaults dateFormatDefaults api [7].

(** [savedQuery] is a [json] setting whose default is the empty object and
    which the user has set to the JSON text [null]. *)
Definition savedQueryDefaults : gmap string (gmap string value) :=
  {[ "savedQuery" := {[ "value" := VStr "{}"; "type" := VStr "json" ]} ]}.

Definition savedQueryNull (api : string → value → BatchSetResult) : UiSettingsClient :=
  newClient savedQueryDefaults
    {[ "savedQuery" := {[ "value" := VStr "{}"; "type" := VStr "json";
                          "userValue" := VStr "null" ]} ]}
    api [7].

(** [timeout] is locked by the server. *)
Definition lockedClient (api : string → value → BatchSetResult) : UiSettingsClient :=
  newClient {[ "timeout" := {[ "value" := VNum 30 ]} ]}
    {[ "timeout" := {[ "value" := VNum 30; "userValue" := VNum 60;
                       "isOverridden" := VBool true ]} ]}
    api [7].

(** A panel menu as the dashboard registers it: the container state is the
    view mode, [customizePanel] opens a child panel and shows in edit mode
    only. *)
Definition samplePanel (id title : string) : DashboardContextMenuPanel unit string string :=
  {| panel_id := id; panel_title := title; getContent := λ _ _, "" |}.

Definition sampleAction (id parent : string)
    (child : option (DashboardContextMenuPanel unit string string))
    (visible : string → bool) : DashboardPanelAction unit string string string :=
  {| action_id := id; displayName := id; icon := "gear"; parentPanelId := parent;
     childContextMenuPanel := child;
     isVisible := λ _ viewMode, visible viewMode;
     isDisabled := λ _ _, false |}.

Definition mainMenu := samplePanel "mainMenu" "Options".
Definition customizeTitle := samplePanel "customizeTitle" "Customize panel".

Definition customizePanel :=
  sampleAction "customizePanel" "mainMenu" (Some customizeTitle)
    (λ viewMode, bool_decide (viewMode = "edit")).
Definition togglePanel := sampleAction "togglePanel" "mainMenu" None (λ _, true).
Definition resetTitle := sampleAction "resetTitle" "customizeTitle" None (λ _, true).
Definition renamePanel :=
  sampleAction "renamePanel" "mainMenu" (Some customizeTitle) (λ _, true).
Definition backToMain :=
  sampleAction "backToMain" "customizeTitle" (Some mainMenu) (λ _, true).

Definition sampleActions := [customizePanel; togglePanel; resetTitle].

Definition detailsPanel := samplePanel "details" "Details".
Definition showDetails :=
  sampleAction "showDetails" "customizeTitle" (Some detailsPanel) (λ _, true).
Definition orphanAction :=
  sampleAction "orphan" "elsewhere" (Some customizeTitle) (λ _, true).

(** Two actions of the main menu open [customizeTitle], which has an action
    that opens a panel of its own. *)
Definition nestedActions := [renamePanel; customizePanel; showDetails].

(** One action of the main menu opens [customizeTitle]; another action with a
    child panel is registered for a panel that is not part of the menu. *)
Definition orphanActions := [customizePanel; togglePanel; orphanAction].

(** The ids of the panels of a result, in order. *)
Definition panelIds {Content Icon : Type}
    (result : option (list (EuiContextMenuPanelDescriptor Content Icon)))
    : option (list PanelId) :=
  match result with
  | Some out => Some (eui_id <$> out)
  | None => None
  end.

(** A store with the two maps a page passes to the constructor: defaults at
    location 1 (a date format and a list of columns), initial settings at
    location 5 (the user's date format). *)
Definition sampleStore : gmap loc (list (string * value)) :=
  {[ 1%positive := [("dateFormat", VRef 2%positive); ("defaultColumns", VRef 3%positive)];
     2%positive := [("value", VStr "MMMM Do YYYY")];
     3%positive := [("value", VRef 4%positive)];
     4%positive := [("0", VStr "_source")];
     5%positive := [("dateFormat", VRef 6%positive)];
     6%positive := [("userValue", VStr "YYYY-MM-DD")] ]}.

(** A client whose tables are the objects at 7 and 9. *)
Definition sampleClientStore : gmap loc (list (string * value)) :=
  {[ 7%positive := [("dateFormat", VRef 8%positive)];
     8%positive := [("value", VStr "MMMM Do YYYY"); ("userValue", VStr "YYYY-MM-DD")];
     9%positive := [("dateFormat", VRef 10%positive)];
     10%positive := [("value", VStr "MMMM Do YYYY")] ]}.

Definition sampleClient : Refs.client :=
  {| Refs._defaults := VRef 9%positive; Refs._cache := VRef 7%positive |}.

(** * Part II. Properties *)

(** ** 0. Lists *)

Lemma mapM_ext_in {A B} (f g : A → option B) (l : list A) :
  (∀ a, a ∈ l → f a = g a) → mapM f l = mapM g l.
Proof.
  induction l as [|a l IH]; intros Hfg; [done|]. simpl.
  rewrite (Hfg a) by apply list_elem_of_here.
  rewrite IH; [done|]. intros b Hb. apply Hfg. by apply list_elem_of_further.
Qed.

Lemma Forall2_elem_of_l {A B} (P : A → B → Prop) (l : list A) (k : list B) a :
  Forall2 P l k → a ∈ l → ∃ b, b ∈ k ∧ P a b.
Proof.
  induction 1 as [|a' b' l k Hab _ IH]; intros Hin; [by apply elem_of_nil in Hin|].
  apply elem_of_cons in Hin as [->|Hin].
  - exists b'. split; [apply list_elem_of_here|done].
  - destruct (IH Hin) as (b & Hb & Pab). exists b. split; [by apply list_elem_of_further|done].
Qed.

Lemma Forall2_elem_of_r {A B} (P : A → B → Prop) (l : list A) (k : list B) b :
  Forall2 P l k → b ∈ k → ∃ a, a ∈ l ∧ P a b.
Proof.
  induction 1 as [|a' b' l k Hab _ IH]; intros Hin; [by apply elem_of_nil in Hin|].
  apply elem_of_cons in Hin as [->|Hin].
  - exists a'. split; [apply list_elem_of_here|done].
  - destruct (IH Hin) as (a & Ha & Pab). exists a. split; [by apply list_elem_of_further|done].
Qed.

Lemma elem_of_concat {A} (x : A) (ls : list (list A)) :
  x ∈ concat ls ↔ ∃ xs : list A, x ∈ xs ∧ xs ∈ ls.
Proof.
  induction ls as [|xs ls IH]; simpl.
  - split; [by intros ?%elem_of_nil|by intros (xs & _ & ?%elem_of_nil)].
  - rewrite elem_of_app, IH. split.
    + intros [Hx|(xs' & Hx & Hxs')]; [exists xs; split; [done|by left]|].
      exists xs'. split; [done|by right].
    + intros (xs' & Hx & [->|Hxs']%elem_of_cons); [by left|right; by exists xs'].
Qed.

Lemma Forall2_impl_elem {A B} (P Q : A → B → Prop) (xs : list A) (ys : list B) :
  Forall2 P xs ys → (∀ x y, x ∈ xs → P x y → Q x y) → Forall2 Q xs ys.
Proof.
  induction 1 as [|x y xs ys HP _ IH]; intros Himpl; constructor.
  - apply Himpl; [left|done].
  - apply IH. intros x' y' Hin. apply Himpl. by right.
Qed.

Lemma Forall2_concat {A B} (R : A → B → Prop) (xss : list (list A)) (yss : list (list B)) :
  Forall2 (Forall2 R) xss yss → Forall2 R (concat xss) (concat yss).
Proof. induction 1; simpl; [constructor|by apply Forall2_app]. Qed.

Lemma mapM_compose {A B C} (f : B → option C) (g : A → B) (xs : list A) :
  mapM (λ x, f (g x)) xs = mapM f (g <$> xs).
Proof. induction xs as [|x xs IH]; simpl; [done|]. by rewrite IH. Qed.

Lemma StronglySorted_lookup {A} (R : relation A) (xs : list A) i j x y :
  StronglySorted R xs → xs !! i = Some x → xs !! j = Some y → i < j → R x y.
Proof.
  intros Hsorted. revert i j. induction Hsorted as [|z xs _ IH Hz]; intros i j; [done|].
  destruct i as [|i], j as [|j]; simpl; try lia.
  - intros [= ->] Hy _. rewrite Forall_forall in Hz. apply Hz.
    by eapply list_elem_of_lookup_2.
  - intros Hx Hy Hlt. apply (IH i j); [done|done|lia].
Qed.

Lemma filter_all {A} (P : A → Prop) `{!∀ x, Decision (P x)} (xs : list A) :
  Forall P xs → filter P xs = xs.
Proof.
  induction 1 as [|x xs Hx _ IH]; [done|]. by rewrite filter_cons_True, IH.
Qed.

(** ** 1. The context-menu projection *)

Section MenuFacts.

Context {Embeddable ContainerState Content Icon : Type}.

Local Abbreviation Panel := (DashboardContextMenuPanel Embeddable ContainerState Content).
Local Abbreviation Action := (DashboardPanelAction Embeddable ContainerState Content Icon).
Local Abbreviation EuiPanel := (EuiContextMenuPanelDescriptor Content Icon).
Local Abbreviation EuiItem := (EuiContextMenuPanelItemDescriptor Icon).

Implicit Types (p child : Panel) (a action : Action) (actions l : list Action).
Implicit Types (e : option Embeddable) (c : ContainerState) (n fuel : nat).

Lemma visibleChildActions_eq i actions e c :
  visibleChildActions i actions e c = omap (childOf e c) (getActionsForPanel i actions).
Proof. reflexivity. Qed.

Lemma foldl_forEachAction_None (rec : Panel → option (list EuiPanel)) e c l :
  foldl (forEachAction rec e c) None l = None.
Proof. induction l as [|a l IH]; simpl; auto. Qed.

(** The [forEach] loop as a whole: the items are the visible actions'
    descriptors, the child panels the nested results, appended in order. *)
Lemma foldl_forEachAction (rec : Panel → option (list EuiPanel)) e c l items childPanels :
  foldl (forEachAction rec e c) (Some (items, childPanels)) l =
    subs ← mapM (λ ac : Action * Panel, rec ac.2) (omap (childOf e c) l);
    Some (items ++ ((λ a, convertPanelActionToContextMenuItem a c e) <$>
                      filter (λ a, isVisible a e c = true) l),
          childPanels ++ concat subs).
Proof.
  revert items childPanels.
  induction l as [|a l IH]; intros items childPanels; simpl.
  { by rewrite !app_nil_r. }
  unfold childOf at 1.
  destruct (isVisible a e c) eqn:Hvis; simpl.
  - rewrite filter_cons_True by done.
    destruct (childContextMenuPanel a) as [child|] eqn:Hchild; simpl.
    + destruct (rec child) as [sub|] eqn:Hsub; simpl.
      * rewrite IH. destruct (mapM _ _) as [subs|]; simpl; [|done].
        by rewrite <-!app_assoc.
      * apply foldl_forEachAction_None.
    + rewrite IH. destruct (mapM _ _) as [subs|]; simpl; [|done].
      by rewrite <-!app_assoc.
  - rewrite filter_cons_False by (rewrite Hvis; done). apply IH.
Qed.

(** One unfolding of [buildEuiContextMenuPanels]. *)
Lemma buildEuiContextMenuPanels_S n p actions e c :
  buildEuiContextMenuPanels (S n) p actions e c =
    subs ← mapM (λ ac : Action * Panel, buildEuiContextMenuPanels n ac.2 actions e c)
              (visibleChildActions (panel_id p) actions e c);
    Some (ownPanel p actions e c :: concat subs).
Proof.
  simpl. unfold buildEuiContextMenuPanelItemsAndChildPanels.
  rewrite foldl_forEachAction, visibleChildActions_eq.
  destruct (mapM _ _) as [subs|]; reflexivity.
Qed.

Lemma visibleChildActions_edge i actions e c a child :
  (a, child) ∈ visibleChildActions i actions e c →
  childEdge actions e c i (panel_id child).
Proof.
  rewrite visibleChildActions_eq, list_elem_of_omap.
  intros (a' & Hin & Hch). unfold childOf in Hch.
  destruct (isVisible a' e c) eqn:Hvis; [|done].
  destruct (childContextMenuPanel a') as [ch|] eqn:Hchild; simplify_eq/=.
  apply list_elem_of_filter in Hin as [Hpar Hin].
  by exists a, child.
Qed.

Lemma edge_visibleChildActions i j actions e c :
  childEdge actions e c i j →
  ∃ a child, (a, child) ∈ visibleChildActions i actions e c ∧ panel_id child = j.
Proof.
  intros (a & child & Hin & Hpar & Hvis & Hchild & Hid).
  exists a, child. split; [|done].
  rewrite visibleChildActions_eq, list_elem_of_omap.
  exists a. split.
  - by apply list_elem_of_filter.
  - unfold childOf. by rewrite Hvis, Hchild.
Qed.

(** More fuel does not change a result. *)
Lemma buildEuiContextMenuPanels_mono n p actions e c out :
  buildEuiContextMenuPanels n p actions e c = Some out →
  buildEuiContextMenuPanels (S n) p actions e c = Some out.
Proof.
  revert p out. induction n as [|n IH]; intros p out; [done|].
  rewrite (buildEuiContextMenuPanels_S (S n)), (buildEuiContextMenuPanels_S n).
  intros Hn. apply bind_Some in Hn as (subs & Hsubs & [= <-]).
  apply bind_Some. exists subs. split; [|done].
  apply mapM_Some. apply mapM_Some in Hsubs.
  eapply Forall2_impl; [exact Hsubs|]. intros ac sub Hsub. by apply IH.
Qed.

Lemma buildEuiContextMenuPanels_le n m p actions e c out :
  n ≤ m →
  buildEuiContextMenuPanels n p actions e c = Some out →
  buildEuiContextMenuPanels m p actions e c = Some out.
Proof.
  induction 1 as [|m _ IH]; [done|].
  intros Hn. by apply buildEuiContextMenuPanels_mono, IH.
Qed.

(** An action that is not visible can be dropped from the list. *)
Lemma getActionsForPanel_app i l1 l2 :
  getActionsForPanel i (l1 ++ l2) = getActionsForPanel i l1 ++ getActionsForPanel i l2.
Proof. apply filter_app. Qed.

Lemma invisible_items i l1 a l2 e c :
  isVisible a e c = false →
  filter (λ a, isVisible a e c = true) (getActionsForPanel i (l1 ++ a :: l2)) =
  filter (λ a, isVisible a e c = true) (getActionsForPanel i (l1 ++ l2)).
Proof.
  intros Hvis. rewrite !getActionsForPanel_app, !filter_app. f_equal.
  unfold getActionsForPanel. rewrite filter_cons. case_decide; [|done].
  rewrite filter_cons_False; [done|]. by rewrite Hvis.
Qed.

Lemma invisible_children i l1 a l2 e c :
  isVisible a e c = false →
  visibleChildActions i (l1 ++ a :: l2) e c = visibleChildActions i (l1 ++ l2) e c.
Proof.
  intros Hvis. rewrite !visibleChildActions_eq, !getActionsForPanel_app, !omap_app.
  f_equal. unfold getActionsForPanel. rewrite filter_cons. case_decide; [|done].
  simpl. unfold childOf at 1. by rewrite Hvis.
Qed.

(** *** Termination on acyclic inputs *)

(** [seen] is the chain of panels whose projection is under way: each of them
    leads to the panel at hand, so on an acyclic input the panel at hand is not
    among them, and the chain cannot be longer than the list of actions. *)
Lemma acyclic_returns_aux n (seen : list PanelId) p actions e c :
  NoDup seen →
  (∀ s, s ∈ seen → s ∈ parentPanelId <$> actions) →
  (∀ s, s ∈ seen → tc (childEdge actions e c) s (panel_id p)) →
  acyclicFrom actions e c (panel_id p) →
  length actions < n + length seen →
  is_Some (buildEuiContextMenuPanels n p actions e c).
Proof.
  revert seen p. induction n as [|n IH]; intros seen p Hnd Hsrc Hseen Hacyc Hlen.
  { apply NoDup_submseteq with (k := parentPanelId <$> actions) in Hnd; [|done].
    apply submseteq_length in Hnd. rewrite length_fmap in Hnd. lia. }
  rewrite buildEuiContextMenuPanels_S.
  destruct (mapM _ _) as [subs|] eqn:Hsubs; simpl; [by eexists|].
  exfalso. apply mapM_None_1, Exists_exists in Hsubs as ([a child] & Hin & Hnone).
  simpl in Hnone.
  pose proof (visibleChildActions_edge _ _ _ _ _ _ Hin) as Hedge.
  assert (panel_id p ∉ seen) as Hfresh.
  { intros Hp. apply (Hacyc (panel_id p)); [done|]. by apply Hseen. }
  destruct (IH (panel_id p :: seen) child) as [out Hout].
  - by constructor.
  - intros s [->|Hs]%elem_of_cons; [|by apply Hsrc].
    destruct Hedge as (a' & ch & Ha' & Hpar & _). rewrite <-Hpar.
    by apply list_elem_of_fmap_2.
  - intros s [->|Hs]%elem_of_cons; [by apply tc_once|].
    eapply tc_r; [by apply Hseen|done].
  - intros j Hj. apply Hacyc. by eapply rtc_l.
  - simpl. lia.
  - congruence.
Qed.

Lemma acyclic_returns p actions e c :
  acyclicFrom actions e c (panel_id p) →
  ∃ out, ∀ m, length actions < m → buildEuiContextMenuPanels m p actions e c = Some out.
Proof.
  intros Hacyc.
  destruct (acyclic_returns_aux (S (length actions)) [] p actions e c) as [out Hout];
    [constructor|by intros s ?%elem_of_nil|by intros s ?%elem_of_nil|done|simpl; lia|].
  exists out. intros m Hm. eapply buildEuiContextMenuPanels_le; [|done]. lia.
Qed.

(** *** Unbounded recursion on a cycle *)

Lemma cycle_ahead actions e c i :
  (∃ j, rtc (childEdge actions e c) i j ∧ tc (childEdge actions e c) j j) →
  ∃ k, childEdge actions e c i k ∧
       ∃ j, rtc (childEdge actions e c) k j ∧ tc (childEdge actions e c) j j.
Proof.
  intros (j & Hij & Hjj). destruct Hij as [i|i k j Hik Hkj].
  - inversion Hjj as [? k Hik|? k ? Hik Hki]; subst.
    + exists i. split; [done|]. by exists i.
    + exists k. split; [done|]. exists i. split; [by apply tc_rtc|done].
  - exists k. split; [done|]. by exists j.
Qed.

Lemma cycle_never_returns n p actions e c :
  (∃ j, rtc (childEdge actions e c) (panel_id p) j ∧ tc (childEdge actions e c) j j) →
  buildEuiContextMenuPanels n p actions e c = None.
Proof.
  revert p. induction n as [|n IH]; intros p Hcyc; [done|].
  apply cycle_ahead in Hcyc as (k & Hedge & Hk).
  apply edge_visibleChildActions in Hedge as (a & child & Hin & <-).
  rewrite buildEuiContextMenuPanels_S.
  assert (mapM (λ ac : Action * Panel, buildEuiContextMenuPanels n ac.2 actions e c)
               (visibleChildActions (panel_id p) actions e c) = None) as Hnone.
  { apply mapM_None_2, Exists_exists. exists (a, child). split; [done|]. by apply IH. }
  by rewrite Hnone.
Qed.

(** C6. An action whose [isVisible] returns false contributes nothing to the
    projection: the output is the one the list without that action gives (no
    item for it on its parent panel, no panel from its child panel), whether or
    not it declares a child panel, for every panel, action list and context. *)
Theorem invisible_action_contributes_nothing n p l1 a l2 e c :
  isVisible a e c = false →
  buildEuiContextMenuPanels n p (l1 ++ a :: l2) e c =
  buildEuiContextMenuPanels n p (l1 ++ l2) e c.
Proof.
  intros Hvis. revert p. induction n as [|n IH]; intros p; [done|].
  rewrite !buildEuiContextMenuPanels_S.
  unfold ownPanel. rewrite invisible_items, invisible_children by done.
  erewrite mapM_ext; [reflexivity|]. intros ac. apply IH.
Qed.

(** C8. [buildEuiContextMenuPanels] returns on every input whose child-panel
    graph has no cycle reachable from the panel (from some depth bound on, with
    one result), and on an input with a cycle reachable through visible actions
    no depth bound suffices: the recursion does not end. *)
Theorem returns_iff_no_reachable_cycle p actions e c :
  (acyclicFrom actions e c (panel_id p) →
     ∃ n out, ∀ m, n < m → buildEuiContextMenuPanels m p actions e c = Some out) ∧
  ((∃ j, rtc (childEdge actions e c) (panel_id p) j ∧ tc (childEdge actions e c) j j) →
     ∀ n, buildEuiContextMenuPanels n p actions e c = None).
Proof.
  split.
  - intros Hacyc. exists (length actions). by apply acyclic_returns.
  - intros Hcyc n. by apply cycle_never_returns.
Qed.

End MenuFacts.

(** *** Chains and the order of the panels *)

Section MenuChains.
Context {Embeddable ContainerState Content Icon : Type}.

Local Abbreviation Panel := (DashboardContextMenuPanel Embeddable ContainerState Content).
Local Abbreviation Action := (DashboardPanelAction Embeddable ContainerState Content Icon).
Local Abbreviation EuiPanel := (EuiContextMenuPanelDescriptor Content Icon).
Local Abbreviation EuiItem := (EuiContextMenuPanelItemDescriptor Icon).

Implicit Types (p child : Panel) (a action : Action) (actions l : list Action).
Implicit Types (e : option Embeddable) (c : ContainerState) (n fuel : nat).

(** *** The visible child-declaring actions of a panel, with positions *)

Lemma childrenFrom_snd k i l e c :
  snd <$> childrenFrom k i l e c = snd <$> visibleChildActions i l e c.
Proof.
  rewrite visibleChildActions_eq. unfold getActionsForPanel.
  revert k. induction l as [|a l IH]; intros k; [done|]. simpl.
  destruct (decide (parentPanelId a = i)) as [Hpar|Hpar].
  - rewrite filter_cons_True by done. simpl.
    rewrite bool_decide_eq_true_2 by done.
    destruct (childOf e c a) as [[a' child]|]; simpl; by rewrite IH.
  - rewrite filter_cons_False by done.
    rewrite bool_decide_eq_false_2 by done.
    destruct (childOf e c a) as [[a' child]|]; by rewrite IH.
Qed.

Lemma childOf_Some e c a a' child :
  childOf e c a = Some (a', child) ↔
  a' = a ∧ isVisible a e c = true ∧ childContextMenuPanel a = Some child.
Proof.
  unfold childOf. destruct (isVisible a e c); [|by split; [|intros (_ & ? & _)]].
  destruct (childContextMenuPanel a) as [ch|]; simpl; [|by split; [|intros (_ & _ & ?)]].
  split; [by intros [= <- <-]|by intros (-> & _ & [= ->])].
Qed.

Lemma childrenFrom_elem k i l e c k' child :
  (k', child) ∈ childrenFrom k i l e c ↔
  ∃ j a, k' = k + j ∧ l !! j = Some a ∧ parentPanelId a = i ∧
         isVisible a e c = true ∧ childContextMenuPanel a = Some child.
Proof.
  revert k. induction l as [|a l IH]; intros k; simpl.
  { split; [by intros ?%elem_of_nil|by intros (j & a & _ & ? & _)]. }
  assert ((k', child) ∈ childrenFrom (S k) i l e c ↔
          ∃ j a', k' = k + S j ∧ l !! j = Some a' ∧ parentPanelId a' = i ∧
                  isVisible a' e c = true ∧ childContextMenuPanel a' = Some child) as Hrest.
  { rewrite IH. by setoid_rewrite Nat.add_succ_r. }
  assert ((k' = k ∧ parentPanelId a = i ∧ isVisible a e c = true ∧
             childContextMenuPanel a = Some child) ∨
          (k', child) ∈ childrenFrom (S k) i l e c ↔
          ∃ j a', k' = k + j ∧ (a :: l) !! j = Some a' ∧ parentPanelId a' = i ∧
                  isVisible a' e c = true ∧ childContextMenuPanel a' = Some child) as Hsplit.
  { rewrite Hrest. split.
    - intros [(-> & ? & ? & ?)|(j & a' & ? & ? & ?)].
      + exists 0, a. by rewrite Nat.add_0_r.
      + by exists (S j), a'.
    - intros ([|j] & a' & -> & Hj & ?); simpl in Hj.
      + left. injection Hj as <-. by rewrite Nat.add_0_r.
      + right. by exists j, a'. }
  rewrite <-Hsplit.
  destruct (childOf e c a) as [[a' ch]|] eqn:Hch.
  - apply childOf_Some in Hch as (-> & Hvis & Hchild).
    case_bool_decide as Hpar.
    + rewrite elem_of_cons. split.
      * intros [[= -> ->]|?]; [by left|by right].
      * intros [(-> & _ & _ & Hc)|?]; [left|by right]. congruence.
    + split; [by right|]. by intros [(_ & ? & _)|?].
  - split; [by right|]. intros [(_ & _ & Hvis & Hchild)|?]; [|done].
    assert (childOf e c a = Some (a, child)) by (by apply childOf_Some). congruence.
Qed.

Lemma childrenFrom_sorted k i l e c :
  StronglySorted (λ x y : nat * Panel, x.1 < y.1) (childrenFrom k i l e c).
Proof.
  revert k. induction l as [|a l IH]; intros k; simpl; [constructor|].
  destruct (childOf e c a) as [[a' ch]|]; [|done].
  case_bool_decide; [|done].
  constructor; [done|]. apply Forall_forall. intros [k' ch'] Hin.
  apply childrenFrom_elem in Hin as (j & _ & -> & _). simpl. lia.
Qed.

(** One unfolding of [buildEuiContextMenuPanels], with the positions of the
    actions. *)
Lemma buildEuiContextMenuPanels_children n p actions e c :
  buildEuiContextMenuPanels (S n) p actions e c =
    subs ← mapM (λ kc : nat * Panel, buildEuiContextMenuPanels n kc.2 actions e c)
              (childrenFrom 0 (panel_id p) actions e c);
    Some (ownPanel p actions e c :: concat subs).
Proof.
  rewrite buildEuiContextMenuPanels_S.
  rewrite (mapM_compose (λ child, buildEuiContextMenuPanels n child actions e c) snd).
  rewrite (mapM_compose (λ child, buildEuiContextMenuPanels n child actions e c) snd
             (childrenFrom _ _ _ _ _)).
  by rewrite childrenFrom_snd.
Qed.

(** *** One panel per chain *)

Lemma chainsFrom_Forall2 n p actions e c out :
  buildEuiContextMenuPanels n p actions e c = Some out →
  Forall2 (λ ks (q : EuiPanel), ∃ p', chain actions e c p ks p' ∧ q = ownPanel p' actions e c)
          (chainsFrom n p actions e c) out.
Proof.
  revert p out. induction n as [|n IH]; intros p out; [done|].
  rewrite buildEuiContextMenuPanels_children.
  intros (subs & Hsubs & [= <-])%bind_Some. simpl.
  constructor; [exists p; split; [constructor|done]|].
  apply Forall2_concat, Forall2_fmap_l. apply mapM_Some in Hsubs.
  eapply Forall2_impl_elem; [exact Hsubs|].
  intros [k child] sub Hin Hsub. simpl in *.
  apply childrenFrom_elem in Hin as (j & a & -> & Hj & Hpar & Hvis & Hchild).
  apply Forall2_fmap_l. eapply Forall2_impl; [exact (IH _ _ Hsub)|].
  intros ks q (p' & Hchain & ->). exists p'. split; [|done].
  by eapply chain_cons.
Qed.

Lemma chainsFrom_elem n p actions e c out ks p' :
  buildEuiContextMenuPanels n p actions e c = Some out →
  chain actions e c p ks p' →
  ks ∈ chainsFrom n p actions e c.
Proof.
  intros Hrun Hchain. revert n out Hrun.
  induction Hchain as [p|p k a child ks p' Hk Hpar Hvis Hchild _ IH];
    intros [|n] out Hrun; try done.
  { left. }
  rewrite buildEuiContextMenuPanels_children in Hrun.
  apply bind_Some in Hrun as (subs & Hsubs & _). apply mapM_Some in Hsubs.
  assert ((k, child) ∈ childrenFrom 0 (panel_id p) actions e c) as Hin.
  { apply childrenFrom_elem. by exists k, a. }
  destruct (Forall2_elem_of_l _ _ _ _ Hsubs Hin) as (sub & _ & Hsub).
  simpl. right. apply elem_of_concat.
  exists ((k ::.) <$> chainsFrom n child actions e c). split.
  - apply list_elem_of_fmap_2. by eapply IH.
  - by apply (list_elem_of_fmap_2
                (λ kc : nat * Panel, (kc.1 ::.) <$> chainsFrom n kc.2 actions e c) _ (k, child)).
Qed.

Lemma chainsFrom_sorted n p actions e c :
  StronglySorted before (chainsFrom n p actions e c).
Proof.
  revert p. induction n as [|n IH]; intros p; simpl; [constructor|].
  pose proof (childrenFrom_sorted 0 (panel_id p) actions e c) as Hsorted.
  constructor.
  - induction Hsorted as [|[k child] children _ IHc Hk]; simpl; [constructor|].
    apply StronglySorted_app_2; [|by eapply StronglySorted_fmap, IH; constructor|done].
    intros ks1 ks2 (ks & -> & _)%list_elem_of_fmap Hin2.
    apply elem_of_concat in Hin2 as (block & Hin2 & Hblock).
    apply list_elem_of_fmap in Hblock as ([k' child'] & -> & Hin').
    apply list_elem_of_fmap in Hin2 as (ks' & -> & _).
    rewrite Forall_forall in Hk. constructor. by apply (Hk (k', child')).
  - apply Forall_forall. intros ks Hin.
    apply elem_of_concat in Hin as (block & Hin & Hblock).
    apply list_elem_of_fmap in Hblock as ([k' child'] & -> & _).
    apply list_elem_of_fmap in Hin as (ks' & -> & _). constructor.
Qed.

Lemma chainsFrom_count n p actions e c :
  length (chainsFrom (S n) p actions e c) =
  1 + length (filter (λ ks, ks ≠ []) (chainsFrom (S n) p actions e c)).
Proof.
  simpl. rewrite filter_cons_False by (by intros ?). f_equal. f_equal.
  symmetry. apply filter_all, Forall_forall. intros ks Hin.
  apply elem_of_concat in Hin as (block & Hin & Hblock).
  apply list_elem_of_fmap in Hblock as ([k' child'] & -> & _).
  by apply list_elem_of_fmap in Hin as (ks' & -> & _).
Qed.

Lemma chain_single actions e c p k p' :
  chain actions e c p [k] p' →
  ∃ a, actions !! k = Some a ∧ childContextMenuPanel a = Some p'.
Proof.
  inversion 1 as [|? ? a child ? ? Hk _ _ Hchild Hrest]; subst.
  inversion Hrest; subst. by exists a.
Qed.

(** *** The visible child-declaring actions of a panel, by the list alone *)

Lemma visibleChildActions_filter i actions e c :
  Forall2 (λ a (ac : Action * Panel), childContextMenuPanel a = Some ac.2)
          (filter (λ a, parentPanelId a = i ∧ isVisible a e c = true ∧
                        is_Some (childContextMenuPanel a)) actions)
          (visibleChildActions i actions e c).
Proof.
  rewrite visibleChildActions_eq. unfold getActionsForPanel.
  induction actions as [|a l IH]; [constructor|].
  destruct (childOf e c a) as [[a' child]|] eqn:Hch.
  - apply childOf_Some in Hch as Hch'. destruct Hch' as (-> & Hvis & Hchild).
    destruct (decide (parentPanelId a = i)) as [Hpar|Hpar].
    + rewrite filter_cons_True by (by rewrite Hchild).
      rewrite (filter_cons_True (λ a, parentPanelId a = i)) by done. simpl.
      rewrite Hch. by constructor.
    + rewrite filter_cons_False by (by intros (? & _)).
      by rewrite (filter_cons_False (λ a, parentPanelId a = i)) by done.
  - assert (¬ (isVisible a e c = true ∧ is_Some (childContextMenuPanel a))) as Hnot.
    { intros (Hvis & child & Hchild).
      assert (childOf e c a = Some (a, child)) by (by apply childOf_Some). congruence. }
    rewrite filter_cons_False by (by intros (_ & ? & ?); apply Hnot).
    destruct (decide (parentPanelId a = i)) as [Hpar|Hpar].
    + rewrite (filter_cons_True (λ a, parentPanelId a = i)) by done. simpl.
      by rewrite Hch.
    + by rewrite (filter_cons_False (λ a, parentPanelId a = i)) by done.
Qed.

(** C7, amended. On an acyclic input [buildEuiContextMenuPanels] returns the
    current panel first, followed by the panels of the subtree of each visible
    action of the panel that declares a child panel, in the order of the
    action list. Nothing is merged: two visible actions of the panel with the
    same child panel id give two panels with that id, and in general the
    panels of the result are, in order, the chains of visible child-declaring
    actions that start at the panel, each panel being the one its chain ends
    in. So the number of panels is one more than the number of non-empty
    chains: an action counts once for every chain that ends with it, which is
    not at all when its parent panel is not reached, and more than once when
    its parent panel is reached more than once. *)
Theorem preorder_flattening_per_occurrence p actions e c :
  acyclicFrom actions e c (panel_id p) →
  ∃ n out subs chains,
    (∀ m, n < m → buildEuiContextMenuPanels m p actions e c = Some out) ∧
    Forall2 (λ a sub, ∃ child, childContextMenuPanel a = Some child ∧
               ∀ m, n ≤ m → buildEuiContextMenuPanels m child actions e c = Some sub)
            (filter (λ a, parentPanelId a = panel_id p ∧ isVisible a e c = true ∧
                          is_Some (childContextMenuPanel a)) actions)
            subs ∧
    (∃ first, out = first :: concat subs ∧ eui_id first = panel_id p ∧
              eui_title first = panel_title p ∧ eui_content first = getContent p e c) ∧
    (∀ k1 k2 a1 a2 child1 child2,
       k1 < k2 → actions !! k1 = Some a1 → actions !! k2 = Some a2 →
       parentPanelId a1 = panel_id p → parentPanelId a2 = panel_id p →
       isVisible a1 e c = true → isVisible a2 e c = true →
       childContextMenuPanel a1 = Some child1 → childContextMenuPanel a2 = Some child2 →
       panel_id child1 = panel_id child2 →
       ∃ i j q1 q2, i < j ∧ out !! i = Some q1 ∧ out !! j = Some q2 ∧
                    eui_id q1 = panel_id child1 ∧ eui_id q2 = panel_id child1) ∧
    StronglySorted before chains ∧
    (∀ ks, ks ∈ chains ↔ ∃ p', chain actions e c p ks p') ∧
    Forall2 (λ ks (q : EuiPanel),
               ∃ p', chain actions e c p ks p' ∧ eui_id q = panel_id p' ∧
                     eui_title q = panel_title p' ∧ eui_content q = getContent p' e c)
            chains out ∧
    length out = 1 + length (filter (λ ks, ks ≠ []) chains).
Proof.
  intros Hacyc. destruct (acyclic_returns p actions e c Hacyc) as [out Hout].
  set (n := length actions).
  pose proof (Hout (S n) (Nat.lt_succ_diag_r _)) as Hrun.
  pose proof (chainsFrom_Forall2 _ _ _ _ _ _ Hrun) as Hpanels.
  pose proof (chainsFrom_sorted (S n) p actions e c) as Hsorted.
  assert (∀ ks, ks ∈ chainsFrom (S n) p actions e c ↔ ∃ p', chain actions e c p ks p')
    as Hchains.
  { intros ks. split.
    - intros Hin. destruct (Forall2_elem_of_l _ _ _ _ Hpanels Hin) as (q & _ & p' & ? & _).
      by exists p'.
    - intros [p' Hchain]. by eapply chainsFrom_elem. }
  pose proof Hrun as Hrun'. rewrite buildEuiContextMenuPanels_S in Hrun'.
  apply bind_Some in Hrun' as (subs & Hsubs & [= Hshape]). apply mapM_Some in Hsubs.
  exists n, out, subs, (chainsFrom (S n) p actions e c). split_and!.
  - exact Hout.
  - eapply Forall2_trans; [|apply visibleChildActions_filter|exact Hsubs].
    intros a [a' child] sub Hchild Hsub. simpl in *. exists child. split; [done|].
    intros m Hm. by eapply buildEuiContextMenuPanels_le.
  - exists (ownPanel p actions e c). by rewrite Hshape.
  - intros k1 k2 a1 a2 child1 child2 Hlt Hk1 Hk2 Hp1 Hp2 Hv1 Hv2 Hc1 Hc2 Hid.
    assert (chain actions e c p [k1] child1) as Hchain1
      by (eapply chain_cons; [done..|constructor]).
    assert (chain actions e c p [k2] child2) as Hchain2
      by (eapply chain_cons; [done..|constructor]).
    assert ([k1] ∈ chainsFrom (S n) p actions e c) as Hin1 by (apply Hchains; by eexists).
    assert ([k2] ∈ chainsFrom (S n) p actions e c) as Hin2 by (apply Hchains; by eexists).
    apply list_elem_of_lookup in Hin1 as [i Hi], Hin2 as [j Hj].
    destruct (Forall2_lookup_l _ _ _ _ _ Hpanels Hi) as (q1 & Hq1 & p1 & Hto1 & ->).
    destruct (Forall2_lookup_l _ _ _ _ _ Hpanels Hj) as (q2 & Hq2 & p2 & Hto2 & ->).
    apply chain_single in Hto1 as (a1' & Ha1' & Hp1').
    apply chain_single in Hto2 as (a2' & Ha2' & Hp2').
    assert (p1 = child1) as -> by congruence. assert (p2 = child2) as -> by congruence.
    exists i, j, (ownPanel child1 actions e c), (ownPanel child2 actions e c).
    split_and!; [|done|done|done|by simpl].
    destruct (Nat.lt_trichotomy i j) as [?|[->|Hji]]; [done| |].
    + assert (k1 = k2) by congruence. lia.
    + pose proof (StronglySorted_lookup _ _ _ _ _ _ Hsorted Hj Hi Hji) as Hbefore.
      inversion Hbefore as [| |? ? ? Hnil]; subst; [lia|inversion Hnil].
  - exact Hsorted.
  - exact Hchains.
  - eapply Forall2_impl; [exact Hpanels|]. intros ks q (p' & Hchain & ->). by exists p'.
  - rewrite <-chainsFrom_count. symmetry. by eapply Forall2_length.
Qed.

End MenuChains.

(** *** The projection on the sample menu *)

Example sample_view_mode :
  panelIds (buildEuiContextMenuPanels 2 mainMenu sampleActions None "view")
    = Some ["mainMenu"].
Proof. reflexivity. Qed.

Example sample_edit_mode :
  panelIds (buildEuiContextMenuPanels 3 mainMenu sampleActions None "edit")
    = Some ["mainMenu"; "customizeTitle"].
Proof. reflexivity. Qed.

Example sample_same_child_twice :
  panelIds (buildEuiContextMenuPanels 3 mainMenu (renamePanel :: sampleActions) None "edit")
    = Some ["mainMenu"; "customizeTitle"; "customizeTitle"].
Proof. reflexivity. Qed.

Lemma sample_edge i j :
  childEdge sampleActions None "edit" i j → i = "mainMenu" ∧ j = "customizeTitle".
Proof.
  intros (a & child & Hin & Hpar & Hvis & Hchild & Hid).
  unfold sampleActions in Hin. rewrite !elem_of_cons, elem_of_nil in Hin.
  destruct Hin as [->|[->|[->|[]]]]; by simplify_eq/=.
Qed.

Lemma sample_acyclic : acyclicFrom sampleActions None "edit" (panel_id mainMenu).
Proof.
  intros j _ Hcyc.
  inversion Hcyc as [? ? Hjj|? k ? Hjk Hkj]; subst.
  - by apply sample_edge in Hjj as [-> ?].
  - apply sample_edge in Hjk as [-> ->].
    inversion Hkj as [? ? Hedge|? k ? Hedge _]; subst;
      by apply sample_edge in Hedge as [? ?].
Qed.

Lemma sample_cycle :
  ∃ j, rtc (childEdge (backToMain :: sampleActions) None "edit") (panel_id mainMenu) j ∧
       tc (childEdge (backToMain :: sampleActions) None "edit") j j.
Proof.
  exists "mainMenu". split; [apply rtc_refl|].
  apply tc_l with "customizeTitle"; [|apply tc_once].
  - exists customizePanel, customizeTitle. split_and!; try done.
    unfold sampleActions. rewrite !elem_of_cons. auto.
  - exists backToMain, mainMenu. split_and!; try done.
    rewrite !elem_of_cons. auto.
Qed.

(** C6 on the sample menu: in view mode [customizePanel] is not visible. *)
Lemma invisible_action_witness :
  isVisible customizePanel None "view" = false ∧
  buildEuiContextMenuPanels 3 mainMenu ([] ++ customizePanel :: [togglePanel; resetTitle])
    None "view" =
  buildEuiContextMenuPanels 3 mainMenu ([] ++ [togglePanel; resetTitle]) None "view".
Proof.
  split; [reflexivity|].
  apply (invisible_action_contributes_nothing 3 mainMenu [] customizePanel
           [togglePanel; resetTitle] None "view").
  reflexivity.
Defined.

Lemma nested_edge i j :
  childEdge nestedActions None "edit" i j →
  (i = "mainMenu" ∧ j = "customizeTitle") ∨ (i = "customizeTitle" ∧ j = "details").
Proof.
  intros (a & child & Hin & Hpar & Hvis & Hchild & Hid).
  unfold nestedActions in Hin. rewrite !elem_of_cons, elem_of_nil in Hin.
  destruct Hin as [->|[->|[->|[]]]]; simplify_eq/=; auto.
Qed.

Lemma nested_acyclic : acyclicFrom nestedActions None "edit" (panel_id mainMenu).
Proof.
  assert (∀ i j, tc (childEdge nestedActions None "edit") i j →
                 (i = "mainMenu" ∧ (j = "customizeTitle" ∨ j = "details")) ∨
                 (i = "customizeTitle" ∧ j = "details")) as Htc.
  { intros i j. induction 1 as [i j Hedge|i k j Hedge _ IH].
    - apply nested_edge in Hedge as [[-> ->]|[-> ->]]; auto.
    - apply nested_edge in Hedge as [[-> ->]|[-> ->]];
        destruct IH as [[? ?]|[? ?]]; simplify_eq; auto. }
  intros j _ Hcyc. apply Htc in Hcyc as [[-> [?|?]]|[-> ?]]; done.
Qed.

Lemma orphan_edge i j :
  childEdge orphanActions None "edit" i j →
  (i = "mainMenu" ∨ i = "elsewhere") ∧ j = "customizeTitle".
Proof.
  intros (a & child & Hin & Hpar & Hvis & Hchild & Hid).
  unfold orphanActions in Hin. rewrite !elem_of_cons, elem_of_nil in Hin.
  destruct Hin as [->|[->|[->|[]]]]; simplify_eq/=; auto.
Qed.

Lemma orphan_acyclic : acyclicFrom orphanActions None "edit" (panel_id mainMenu).
Proof.
  assert (∀ i j, tc (childEdge orphanActions None "edit") i j →
                 (i = "mainMenu" ∨ i = "elsewhere") ∧ j = "customizeTitle") as Htc.
  { intros i j. induction 1 as [i j Hedge|i k j Hedge _ IH].
    - by apply orphan_edge.
    - apply orphan_edge in Hedge as [Hi ->]. by destruct IH as [[?|?] _]. }
  intros j _ Hcyc. apply Htc in Hcyc as [[-> | ->] ?]; done.
Qed.

(** C7 as stated fails: the number of panels is not one more than the number
    of visible actions that declare a child panel. With an action registered
    for a panel outside the menu there are two such actions and two panels;
    with two actions that open the same panel, which has such an action of its
    own, there are three such actions and five panels. Both inputs are
    acyclic. *)
Lemma panels_are_not_counted_by_actions :
  acyclicFrom orphanActions None "edit" (panel_id mainMenu) ∧
  panelIds (buildEuiContextMenuPanels 4 mainMenu orphanActions None "edit")
    = Some ["mainMenu"; "customizeTitle"] ∧
  length (filter (λ a, isVisible a None "edit" = true ∧ is_Some (childContextMenuPanel a))
                 orphanActions) = 2 ∧
  acyclicFrom nestedActions None "edit" (panel_id mainMenu) ∧
  panelIds (buildEuiContextMenuPanels 4 mainMenu nestedActions None "edit")
    = Some ["mainMenu"; "customizeTitle"; "details"; "customizeTitle"; "details"] ∧
  length (filter (λ a, isVisible a None "edit" = true ∧ is_Some (childContextMenuPanel a))
                 nestedActions) = 3.
Proof.
  split_and!; [exact orphan_acyclic|reflexivity|reflexivity
              |exact nested_acyclic|reflexivity|reflexivity].
Qed.

(** C7, amended, on the menu whose two actions open the same panel. *)
Lemma preorder_flattening_witness :
  ∃ n out subs chains,
    (∀ m, n < m → buildEuiContextMenuPanels m mainMenu nestedActions None "edit" = Some out) ∧
    Forall2 (λ a sub, ∃ child, childContextMenuPanel a = Some child ∧
               ∀ m, n ≤ m →
                 buildEuiContextMenuPanels m child nestedActions None "edit" = Some sub)
            (filter (λ a, parentPanelId a = panel_id mainMenu ∧ isVisible a None "edit" = true ∧
                          is_Some (childContextMenuPanel a)) nestedActions)
            subs ∧
    (∃ first, out = first :: concat subs ∧ eui_id first = panel_id mainMenu ∧
              eui_title first = panel_title mainMenu ∧
              eui_content first = getContent mainMenu None "edit") ∧
    (∀ k1 k2 a1 a2 child1 child2,
       k1 < k2 → nestedActions !! k1 = Some a1 → nestedActions !! k2 = Some a2 →
       parentPanelId a1 = panel_id mainMenu → parentPanelId a2 = panel_id mainMenu →
       isVisible a1 None "edit" = true → isVisible a2 None "edit" = true →
       childContextMenuPanel a1 = Some child1 → childContextMenuPanel a2 = Some child2 →
       panel_id child1 = panel_id child2 →
       ∃ i j q1 q2, i < j ∧ out !! i = Some q1 ∧ out !! j = Some q2 ∧
                    eui_id q1 = panel_id child1 ∧ eui_id q2 = panel_id child1) ∧
    StronglySorted before chains ∧
    (∀ ks, ks ∈ chains ↔ ∃ p', chain nestedActions None "edit" mainMenu ks p') ∧
    Forall2 (λ ks q,
               ∃ p', chain nestedActions None "edit" mainMenu ks p' ∧ eui_id q = panel_id p' ∧
                     eui_title q = panel_title p' ∧ eui_content q = getContent p' None "edit")
            chains out ∧
    length out = 1 + length (filter (λ ks, ks ≠ []) chains).
Proof.
  apply (preorder_flattening_per_occurrence mainMenu nestedActions None "edit").
  exact nested_acyclic.
Defined.

(** C8 on the sample menu, and on the menu with a way back from the child
    panel to the main one. *)
Lemma returns_iff_no_reachable_cycle_witness :
  (∃ n out, ∀ m, n < m →
     buildEuiContextMenuPanels m mainMenu sampleActions None "edit" = Some out) ∧
  (∀ n, buildEuiContextMenuPanels n mainMenu (backToMain :: sampleActions) None "edit" = None).
Proof.
  split.
  - apply (proj1 (returns_iff_no_reachable_cycle mainMenu sampleActions None "edit")).
    exact sample_acyclic.
  - apply (proj2 (returns_iff_no_reachable_cycle mainMenu (backToMain :: sampleActions)
                    None "edit")).
    exact sample_cycle.
Defined.

(** ** 2. The settings client *)

Section ClientFacts.

Context `{Builtins}.

Implicit Types (this : UiSettingsClient) (key : string) (v : value).
Implicit Types (e : gmap string value).

Lemma strict_eq_undefined v : strict_eq v VUndefined = false ↔ v ≠ VUndefined.
Proof. destruct v; simpl; split; congruence. Qed.

Lemma has_key_own (table : gmap string (gmap string value)) key e :
  table !! key = Some e → has_key table key = true.
Proof. intros He. unfold has_key. rewrite He. by rewrite bool_decide_eq_true_2. Qed.

Lemma has_key_false (table : gmap string (gmap string value)) key :
  has_key table key = false ↔ table !! key = None ∧ Object_prototype_has key = false.
Proof.
  unfold has_key. rewrite orb_false_iff, bool_decide_eq_false.
  split; intros [Hown Hproto]; (split; [|done]).
  - destruct (table !! key); [|done]. destruct Hown. by eexists.
  - rewrite Hown. by intros [? ?].
Qed.

Lemma isDeclared_Some this key e : _cache this !! key = Some e → isDeclared this key = true.
Proof. apply has_key_own. Qed.

Lemma isDeclared_inherited this key :
  Object_prototype_has key = true → isDeclared this key = true.
Proof. intros Hproto. unfold isDeclared, has_key. rewrite Hproto. apply orb_true_r. Qed.

Lemma field_empty f : field ∅ f = VUndefined.
Proof. unfold field. by rewrite lookup_empty. Qed.

Lemma inherited_unknown this key : Object_prototype_has key = false → inherited this key = ∅.
Proof. intros Hproto. unfold inherited. by rewrite Hproto. Qed.

Lemma inherited_untouched this key :
  inherited_userValue this !! key = None → inherited this key = ∅.
Proof. intros Hnone. unfold inherited. rewrite Hnone. by destruct (Object_prototype_has key). Qed.

(** The inherited object has no field but the user value. *)
Lemma inherited_lookup this key f : f ≠ "userValue" → inherited this key !! f = None.
Proof.
  intros Hf. unfold inherited.
  destruct (Object_prototype_has key); [|done].
  destruct (inherited_userValue this !! key); [|done].
  by rewrite lookup_singleton_ne.
Qed.

Lemma inherited_field this key f : f ≠ "userValue" → field (inherited this key) f = VUndefined.
Proof. intros Hf. unfold field. by rewrite inherited_lookup. Qed.

Lemma isDeclared_false this key :
  isDeclared this key = false → _cache this !! key = None ∧ cached this key = ∅.
Proof.
  intros [Hown Hproto]%has_key_false. unfold cached, entry_of.
  by rewrite Hown, inherited_unknown.
Qed.

Lemma cached_Some this key e : _cache this !! key = Some e → cached this key = e.
Proof. intros He. unfold cached, entry_of. by rewrite He. Qed.

Lemma cached_None this key : _cache this !! key = None → cached this key = inherited this key.
Proof. intros He. unfold cached, entry_of. by rewrite He. Qed.

Lemma isDefault_nullish this key :
  isDefault this key = is_nullish (field (cached this key) "userValue").
Proof.
  unfold isDefault. destruct (isDeclared this key) eqn:Hdecl; [done|].
  apply isDeclared_false in Hdecl as [_ ->]. by rewrite field_empty.
Qed.

(** The part of C5 the code keeps: on a key that [in] does not find in the
    cache, [get] with no fallback throws the unrecognized-setting error, and
    [get] with a fallback other than [undefined] returns that fallback. *)
Lemma get_undeclared this key fallback :
  isDeclared this key = false →
  get this key VUndefined = Throw (UnrecognizedSettingError key) ∧
  (fallback ≠ VUndefined → get this key fallback = Ok fallback).
Proof.
  intros Hdecl. unfold get. rewrite Hdecl. simpl. split; [done|].
  intros Hfb. apply strict_eq_undefined in Hfb. by rewrite Hfb.
Qed.

(** C5, on the code. No setting is declared under [key]: the cache has no
    entry for it. When the name is not one that plain objects inherit, [get]
    without a fallback throws the unrecognized-setting error and [get] with a
    fallback returns the fallback. When the name is inherited ([toString],
    [constructor], ...), [key in this._cache] holds all the same: the key
    counts as declared and [get] does not throw; it returns a value, which
    is [undefined] (or the fallback) as long as the client has stored nothing
    under the name. *)
Theorem get_throws_unless_name_is_inherited this key fallback :
  _cache this !! key = None →
  (Object_prototype_has key = false →
     get this key VUndefined = Throw (UnrecognizedSettingError key) ∧
     (fallback ≠ VUndefined → get this key fallback = Ok fallback)) ∧
  (Object_prototype_has key = true →
     isDeclared this key = true ∧
     (∃ returned, get this key VUndefined = Ok returned) ∧
     (inherited_userValue this !! key = None →
        get this key VUndefined = Ok VUndefined ∧
        get this key fallback = Ok fallback)).
Proof.
  intros Hown. split; intros Hproto.
  - apply get_undeclared. apply has_key_false. done.
  - pose proof (isDeclared_inherited this key Hproto) as Hdecl.
    split; [done|].
    assert (∀ d, get this key d =
                 Ok (if is_nullish (field (inherited this key) "userValue")
                     then d else field (inherited this key) "userValue")) as Hget.
    { intros d. unfold get. rewrite isDefault_nullish, Hdecl, (cached_None _ _ Hown).
      rewrite (inherited_field _ _ "type"), (inherited_field _ _ "value") by done. simpl.
      destruct (is_nullish _); [by destruct d|done]. }
    split; [rewrite Hget; by eexists|].
    intros Hnone. rewrite !Hget, (inherited_untouched _ _ Hnone), field_empty. done.
Qed.

(** *** Calls of the [async] methods *)

Lemma async_Ok {A} (body : M A) this a this' :
  body this = (Ok a, this') → async body this = (Ok (Fulfilled a), this').
Proof. intros Hrun. unfold async. by rewrite Hrun. Qed.

Lemma async_Throw {A} (body : M A) this err this' :
  body this = (Throw err, this') → async body this = (Ok (Rejected err), this').
Proof. intros Hrun. unfold async. by rewrite Hrun. Qed.

Lemma async_await_async {A} (body : M A) this :
  async (await (async body)) this = async body this.
Proof. unfold async, await. by destruct (body this) as [[a|err] this']. Qed.

(** [set] and [remove] settle as the statements of [_update] end. *)
Lemma set_eq key v this : set key v this = async (_updateBody key v) this.
Proof. apply async_await_async. Qed.

Lemma remove_eq key this : remove key this = async (_updateBody key VNull) this.
Proof. apply async_await_async. Qed.

Lemma set_Ok key v this b this' :
  _updateBody key v this = (Ok b, this') → set key v this = (Ok (Fulfilled b), this').
Proof. intros Hrun. rewrite set_eq. by apply async_Ok. Qed.

Lemma set_Throw key v this err this' :
  _updateBody key v this = (Throw err, this') → set key v this = (Ok (Rejected err), this').
Proof. intros Hrun. rewrite set_eq. by apply async_Throw. Qed.

(** C4, amended. [set] and [remove] are [async]: on a key the server has
    overridden the call itself returns, and the promise it returns is rejected
    with the overridden-setting error, before anything else happens: no
    request is sent and the client (cache included) is left as it was. *)
Theorem overridden_key_rejects_update this key v :
  isOverridden this key = true →
  set key v this = (Ok (Rejected (OverriddenSettingError key)), this) ∧
  remove key this = (Ok (Rejected (OverriddenSettingError key)), this).
Proof.
  intros Hov.
  assert (∀ w, _updateBody key w this = (Throw (OverriddenSettingError key), this)) as Hrun.
  { intros w. unfold _updateBody, bind, assertUpdateAllowed. by rewrite Hov. }
  split.
  - by apply set_Throw.
  - rewrite remove_eq. by apply async_Throw.
Qed.

(** *** One call, step by step *)

Lemma get_of_declared this key :
  isDeclared this key = true → get this key VUndefined = effectiveValue (cached this key).
Proof.
  intros Hdecl. unfold get. rewrite isDefault_nullish, Hdecl. reflexivity.
Qed.

Lemma get_declared this key e :
  _cache this !! key = Some e → get this key VUndefined = effectiveValue e.
Proof.
  intros He. rewrite get_of_declared by by eapply isDeclared_Some.
  by rewrite (cached_Some _ _ _ He).
Qed.

Lemma isOverridden_of_declared this key :
  isDeclared this key = true →
  isOverridden this key = truthy (field (cached this key) "isOverridden").
Proof. intros Hdecl. unfold isOverridden. by rewrite Hdecl. Qed.

Lemma isOverridden_declared this key e :
  _cache this !! key = Some e → isOverridden this key = truthy (field e "isOverridden").
Proof.
  intros He. rewrite isOverridden_of_declared by by eapply isDeclared_Some.
  by rewrite (cached_Some _ _ _ He).
Qed.

Lemma storeUserValue_field e v f :
  f ≠ "userValue" → field (storeUserValue e v) f = field e f.
Proof.
  intros Hf. unfold storeUserValue, field.
  destruct (strict_eq v VNull); [by rewrite lookup_delete_ne|].
  destruct (_ && _); by rewrite lookup_insert_ne.
Qed.

Lemma storeUserValue_lookup e v f :
  f ≠ "userValue" → storeUserValue e v !! f = e !! f.
Proof.
  intros Hf. unfold storeUserValue.
  destruct (strict_eq v VNull); [by rewrite lookup_delete_ne|].
  destruct (_ && _); by rewrite lookup_insert_ne.
Qed.

(** *** Where [_setLocally] stores *)

Lemma store_cached_own this key e entry :
  _cache this !! key = Some e →
  store_cached key entry this = with_cache (<[key := entry]> (_cache this)) this.
Proof.
  intros He. unfold store_cached. rewrite He.
  rewrite bool_decide_eq_true_2 by (by eexists). by destruct this.
Qed.

Lemma cache_store_cached_ne this key entry k :
  k ≠ key → _cache (store_cached key entry this) !! k = _cache this !! k.
Proof.
  intros Hk. unfold store_cached. simpl.
  destruct (bool_decide _); [by rewrite lookup_insert_ne|done].
Qed.

Lemma isDeclared_store_cached this key entry k :
  isDeclared (store_cached key entry this) k = isDeclared this k.
Proof.
  unfold isDeclared, has_key, store_cached. simpl. f_equal.
  destruct (_cache this !! key) as [e|] eqn:He.
  - rewrite (bool_decide_eq_true_2 (is_Some (Some e))) by (by eexists).
    destruct (decide (k = key)) as [->|Hk]; [|by rewrite lookup_insert_ne].
    rewrite lookup_insert_eq, He. apply bool_decide_ext. split; by eexists.
  - by rewrite (bool_decide_eq_false_2 (is_Some None)) by (by intros [? ?]).
Qed.

(** What is stored under a declared key is what is read back, given that
    only the user value is stored on an inherited object. *)
Lemma cached_store_cached this key entry :
  isDeclared this key = true →
  (_cache this !! key = None → ∀ f, f ≠ "userValue" → entry !! f = None) →
  cached (store_cached key entry this) key = entry.
Proof.
  intros Hdecl Hentry. unfold cached, entry_of, store_cached. simpl.
  destruct (_cache this !! key) as [e|] eqn:He.
  - rewrite bool_decide_eq_true_2 by (by eexists). by rewrite lookup_insert_eq.
  - rewrite bool_decide_eq_false_2 by (by intros [? ?]). rewrite He. simpl.
    unfold isDeclared, has_key in Hdecl. rewrite He in Hdecl.
    rewrite bool_decide_eq_false_2 in Hdecl by (by intros [? ?]). simpl in Hdecl.
    unfold inherited. simpl. rewrite Hdecl.
    apply map_eq. intros f.
    destruct (decide (f = "userValue")) as [->|Hf].
    + destruct (entry !! "userValue") as [u|] eqn:Hu.
      * by rewrite lookup_insert_eq, lookup_singleton_eq.
      * by rewrite lookup_delete_eq, lookup_empty.
    + rewrite (Hentry eq_refl f Hf).
      destruct (entry !! "userValue") as [u|].
      * by rewrite lookup_insert_eq, lookup_singleton_ne.
      * by rewrite lookup_delete_eq, lookup_empty.
Qed.

Lemma cached_store_cached_userValue this key v :
  isDeclared this key = true →
  cached (store_cached key (storeUserValue (cached this key) v) this) key =
    storeUserValue (cached this key) v.
Proof.
  intros Hdecl. apply cached_store_cached; [done|].
  intros Hown f Hf. rewrite storeUserValue_lookup, (cached_None _ _ Hown) by done.
  by apply inherited_lookup.
Qed.

(** The entry of a key and whether it is declared depend on the cache and on
    the inherited objects only. *)
Lemma cached_ext this this' key :
  _cache this' = _cache this →
  inherited_userValue this' = inherited_userValue this →
  cached this' key = cached this key.
Proof. intros Hc Hi. unfold cached, entry_of, inherited. by rewrite Hc, Hi. Qed.

Lemma isDeclared_ext this this' key :
  _cache this' = _cache this → isDeclared this' key = isDeclared this key.
Proof. intros Hc. unfold isDeclared. by rewrite Hc. Qed.

Lemma _setLocally_of_declared this key newValue old :
  isDeclared this key = true →
  truthy (field (cached this key) "isOverridden") = false →
  effectiveValue (cached this key) = Ok old →
  _setLocally key newValue this =
    (Ok tt,
     with_observer_calls
       (observer_calls this ++ broadcast (_updateObservers this) key newValue old)
       (store_cached key (storeUserValue (cached this key) newValue) this)).
Proof.
  intros Hdecl Hov Hold.
  unfold _setLocally, bind, assertUpdateAllowed, read, ret, modify, lift, _broadcastUpdate.
  rewrite (isOverridden_of_declared _ _ Hdecl), Hov, Hdecl,
    (get_of_declared _ _ Hdecl), Hold.
  reflexivity.
Qed.

Lemma _setLocally_declared this key newValue e old :
  _cache this !! key = Some e →
  truthy (field e "isOverridden") = false →
  effectiveValue e = Ok old →
  _setLocally key newValue this =
    (Ok tt,
     with_observer_calls
       (observer_calls this ++ broadcast (_updateObservers this) key newValue old)
       (with_cache (<[key := storeUserValue e newValue]> (_cache this)) this)).
Proof.
  intros He Hov Hold. rewrite <-(store_cached_own _ _ _ _ He).
  rewrite <-(cached_Some _ _ _ He) in *.
  apply _setLocally_of_declared; [by eapply isDeclared_Some|done|done].
Qed.

Lemma _setLocally_throws this key newValue err :
  isDeclared this key = true →
  truthy (field (cached this key) "isOverridden") = false →
  effectiveValue (cached this key) = Throw err →
  _setLocally key newValue this = (Throw err, this).
Proof.
  intros Hdecl Hov Hold.
  unfold _setLocally, bind, assertUpdateAllowed, read, ret, modify, lift, _broadcastUpdate.
  rewrite (isOverridden_of_declared _ _ Hdecl), Hov, Hdecl,
    (get_of_declared _ _ Hdecl), Hold.
  reflexivity.
Qed.

Lemma _updateBody_start this key v :
  isDeclared this key = true →
  truthy (field (cached this key) "isOverridden") = false →
  strict_eq (field (cached this key) "userValue") (newValOf (_defaults this) key v) = false →
  _updateBody key v this =
    bind (lift (λ this, get this key VUndefined)) (λ initialVal,
      bind (_setLocally key (newValOf (_defaults this) key v)) (λ _,
      bind (modify (λ this', with_batchSet_calls
              (batchSet_calls this' ++ [(key, newValOf (_defaults this) key v)]) this')) (λ _,
      bind (read (λ this', _api this' key (newValOf (_defaults this) key v))) (λ answer,
        match answer with
        | Resolves settings =>
            bind (modify (with_cache (defaultsDeep [_defaults this; settings]))) (λ _, ret true)
        | Rejects reason =>
            bind (_setLocally key initialVal) (λ _,
            bind (modify (λ this', with_notify_errors (notify_errors this' ++ [reason]) this'))
              (λ _, ret false))
        end)))) this.
Proof.
  intros Hdecl Hov Hch.
  unfold _updateBody at 1, bind at 1, assertUpdateAllowed.
  rewrite (isOverridden_of_declared _ _ Hdecl), Hov.
  unfold bind at 1, read at 1. rewrite Hdecl.
  unfold bind at 1, read at 1. unfold bind at 1, read at 1.
  rewrite Hch. reflexivity.
Qed.

(** The client between the two calls of [_setLocally] of a rejected update:
    any client with the cache and the inherited objects the first call left. *)
Lemma cached_after_first_store this this1 key newVal :
  isDeclared this key = true →
  _cache this1 = _cache (store_cached key (storeUserValue (cached this key) newVal) this) →
  inherited_userValue this1 =
    inherited_userValue (store_cached key (storeUserValue (cached this key) newVal) this) →
  isDeclared this1 key = true ∧
  cached this1 key = storeUserValue (cached this key) newVal.
Proof.
  intros Hdecl Hc Hi. split.
  - rewrite (isDeclared_ext _ _ key Hc). by rewrite isDeclared_store_cached.
  - rewrite (cached_ext _ _ key Hc Hi). by apply cached_store_cached_userValue.
Qed.

Lemma _updateBody_rejected this key v initialVal shown reason :
  isDeclared this key = true →
  truthy (field (cached this key) "isOverridden") = false →
  strict_eq (field (cached this key) "userValue") (newValOf (_defaults this) key v) = false →
  effectiveValue (cached this key) = Ok initialVal →
  effectiveValue (storeUserValue (cached this key) (newValOf (_defaults this) key v))
    = Ok shown →
  _api this key (newValOf (_defaults this) key v) = Rejects reason →
  _updateBody key v this =
    (Ok false,
     afterRejected this key (newValOf (_defaults this) key v) (cached this key)
       initialVal shown reason).
Proof.
  intros Hdecl Hov Hch Hiv Hshown Hapi.
  rewrite (_updateBody_start _ _ _ Hdecl Hov Hch).
  unfold bind at 1, lift. rewrite (get_of_declared _ _ Hdecl), Hiv.
  unfold bind at 1. rewrite (_setLocally_of_declared _ _ _ _ Hdecl Hov Hiv).
  unfold bind at 1, modify at 1. unfold bind at 1, read at 1.
  change (_api (with_batchSet_calls ?l (with_observer_calls ?c (store_cached ?k ?e this))))
    with (_api this).
  rewrite Hapi. unfold bind at 1.
  match goal with |- context [_setLocally key initialVal ?s] => set (this1 := s) end.
  destruct (cached_after_first_store this this1 key (newValOf (_defaults this) key v)
              Hdecl eq_refl eq_refl) as [Hdecl' Hce'].
  rewrite (_setLocally_of_declared this1 key initialVal shown Hdecl')
    by (by rewrite Hce', ?storeUserValue_field).
  rewrite Hce'. reflexivity.
Qed.

Lemma _updateBody_rejected_revert_throws this key v initialVal err reason :
  isDeclared this key = true →
  truthy (field (cached this key) "isOverridden") = false →
  strict_eq (field (cached this key) "userValue") (newValOf (_defaults this) key v) = false →
  effectiveValue (cached this key) = Ok initialVal →
  effectiveValue (storeUserValue (cached this key) (newValOf (_defaults this) key v))
    = Throw err →
  _api this key (newValOf (_defaults this) key v) = Rejects reason →
  _updateBody key v this =
    (Throw err,
     with_batchSet_calls (batchSet_calls this ++ [(key, newValOf (_defaults this) key v)])
       (with_observer_calls
          (observer_calls this ++
             broadcast (_updateObservers this) key (newValOf (_defaults this) key v) initialVal)
          (store_cached key
             (storeUserValue (cached this key) (newValOf (_defaults this) key v)) this))).
Proof.
  intros Hdecl Hov Hch Hiv Hshown Hapi.
  rewrite (_updateBody_start _ _ _ Hdecl Hov Hch).
  unfold bind at 1, lift. rewrite (get_of_declared _ _ Hdecl), Hiv.
  unfold bind at 1. rewrite (_setLocally_of_declared _ _ _ _ Hdecl Hov Hiv).
  unfold bind at 1, modify at 1. unfold bind at 1, read at 1.
  change (_api (with_batchSet_calls ?l (with_observer_calls ?c (store_cached ?k ?e this))))
    with (_api this).
  rewrite Hapi. unfold bind at 1.
  match goal with |- context [_setLocally key initialVal ?s] => set (this1 := s) end.
  destruct (cached_after_first_store this this1 key (newValOf (_defaults this) key v)
              Hdecl eq_refl eq_refl) as [Hdecl' Hce'].
  rewrite (_setLocally_throws this1 key initialVal err Hdecl')
    by (by rewrite Hce', ?storeUserValue_field).
  reflexivity.
Qed.

(** The entry of the key after a rejected update. *)
Lemma cached_afterRejected this key newVal initialVal shown reason :
  isDeclared this key = true →
  cached (afterRejected this key newVal (cached this key) initialVal shown reason) key =
    storeUserValue (storeUserValue (cached this key) newVal) initialVal.
Proof.
  intros Hdecl. unfold afterRejected.
  set (this1 := store_cached key (storeUserValue (cached this key) newVal) this).
  set (this2 := store_cached key _ this1).
  change (cached this2 key =
          storeUserValue (storeUserValue (cached this key) newVal) initialVal).
  subst this2.
  assert (cached this1 key = storeUserValue (cached this key) newVal) as Hce1
    by (by apply cached_store_cached_userValue).
  rewrite <-Hce1.
  apply cached_store_cached_userValue. subst this1. by rewrite isDeclared_store_cached.
Qed.

Lemma isDeclared_afterRejected this key newVal e initialVal shown reason k :
  isDeclared (afterRejected this key newVal e initialVal shown reason) k = isDeclared this k.
Proof.
  unfold afterRejected.
  set (this2 := store_cached key _ (store_cached key _ this)).
  change (isDeclared this2 k = isDeclared this k). subst this2.
  by rewrite !isDeclared_store_cached.
Qed.

Lemma afterRejected_cache this key newVal e0 e initialVal shown reason :
  _cache this !! key = Some e0 →
  _cache (afterRejected this key newVal e initialVal shown reason) !! key =
    Some (storeUserValue (storeUserValue e newVal) initialVal).
Proof.
  intros He. unfold afterRejected. simpl.
  rewrite He. rewrite (bool_decide_eq_true_2 (is_Some (Some e0))) by (by eexists).
  rewrite lookup_insert_eq. rewrite bool_decide_eq_true_2 by (by eexists).
  apply lookup_insert_eq.
Qed.

Lemma effectiveValue_plain e :
  strict_eq (field e "type") (VStr "json") = false →
  strict_eq (field e "type") (VStr "number") = false →
  effectiveValue e =
    Ok (if is_nullish (field e "userValue") then field e "value" else field e "userValue").
Proof. intros Hjson Hnum. unfold effectiveValue. by rewrite Hjson, Hnum. Qed.

Lemma storeUserValue_userValue_plain e v :
  strict_eq (field e "type") (VStr "json") = false →
  field (storeUserValue e v) "userValue" = if strict_eq v VNull then VUndefined else v.
Proof.
  intros Hjson. unfold storeUserValue. rewrite Hjson. simpl.
  destruct (strict_eq v VNull); unfold field.
  - by rewrite lookup_delete_eq.
  - by rewrite lookup_insert_eq.
Qed.

(** The revert on a key whose type is neither [json] nor [number]. *)
Lemma plain_revert e newVal initialVal :
  strict_eq (field e "type") (VStr "json") = false →
  strict_eq (field e "type") (VStr "number") = false →
  effectiveValue e = Ok initialVal →
  effectiveValue (storeUserValue (storeUserValue e newVal) initialVal) = Ok initialVal.
Proof.
  intros Hjson Hnum.
  rewrite !effectiveValue_plain by (by rewrite ?storeUserValue_field).
  rewrite storeUserValue_userValue_plain by (by rewrite ?storeUserValue_field).
  rewrite !(storeUserValue_field _ _ "value") by done.
  intros [= Hiv]. f_equal.
  destruct (is_nullish (field e "userValue")) eqn:Hu.
  - rewrite Hiv. by destruct initialVal.
  - rewrite <-Hiv. by destruct (field e "userValue").
Qed.

(** Where the revert does restore the value: a key whose type is neither
    [json] nor [number]. The request fails, the call resolves to [false],
    [get] returns what it returned before, one error is reported. *)
Lemma failed_update_reverts_plain this key v e reason :
  _cache this !! key = Some e →
  truthy (field e "isOverridden") = false →
  strict_eq (field e "type") (VStr "json") = false →
  strict_eq (field e "type") (VStr "number") = false →
  strict_eq (field e "userValue") (newValOf (_defaults this) key v) = false →
  _api this key (newValOf (_defaults this) key v) = Rejects reason →
  ∃ this',
    set key v this = (Ok (Fulfilled false), this') ∧
    get this' key VUndefined = get this key VUndefined ∧
    notify_errors this' = notify_errors this ++ [reason] ∧
    batchSet_calls this' = batchSet_calls this ++ [(key, newValOf (_defaults this) key v)].
Proof.
  intros He Hov Hjson Hnum Hch Hapi.
  pose proof (isDeclared_Some _ _ _ He) as Hdecl.
  pose proof (cached_Some _ _ _ He) as Hce.
  destruct (effectiveValue e) as [initialVal|] eqn:Hiv;
    [|by rewrite effectiveValue_plain in Hiv].
  destruct (effectiveValue (storeUserValue e (newValOf (_defaults this) key v)))
    as [shown|] eqn:Hshown;
    [|by rewrite effectiveValue_plain in Hshown by (by rewrite storeUserValue_field)].
  eexists. split.
  { apply set_Ok. apply _updateBody_rejected; rewrite ?Hce; done. }
  split_and!; [|done|done].
  rewrite (get_declared _ _ _ He), (get_declared _ _ _ (afterRejected_cache _ _ _ _ _ _ _ _ He)).
  rewrite Hce, Hiv. by apply plain_revert.
Qed.

Lemma cached_insert this key entry cache :
  cached (with_cache (<[key := entry]> cache) this) key = entry.
Proof. unfold cached, entry_of. simpl. by rewrite lookup_insert_eq. Qed.

(** C9. [overrideLocalDefault] puts the new default in the defaults table and
    in the cache, leaves every other field of the key (its user override
    included) and every other key alone, sends nothing, and calls the
    observers with [{ key, newValue, oldValue }] exactly when no user override
    shadows the default. *)
Theorem overrideLocalDefault_rebaselines this key newDefault :
  ∃ this',
    overrideLocalDefault key newDefault this = (Ok tt, this') ∧
    (∃ d, _defaults this' !! key = Some d ∧ d !! "value" = Some newDefault ∧
          ∀ f, f ≠ "value" → d !! f = entry_of this (_defaults this) key !! f) ∧
    (∃ e, _cache this' !! key = Some e ∧ e !! "value" = Some newDefault ∧
          ∀ f, f ≠ "value" → e !! f = cached this key !! f) ∧
    (∀ k, k ≠ key → _defaults this' !! k = _defaults this !! k ∧
                    _cache this' !! k = _cache this !! k) ∧
    batchSet_calls this' = batchSet_calls this ∧
    notify_errors this' = notify_errors this ∧
    _updateObservers this' = _updateObservers this ∧
    observer_calls this' = observer_calls this ++
      (if isDefault this key
       then (λ observer,
               (observer,
                {| ev_key := key; ev_newValue := newDefault;
                   ev_oldValue := field (default ∅ (_defaults this !! key)) "value" |}))
            <$> _updateObservers this
       else []).
Proof.
  rewrite isDefault_nullish.
  unfold overrideLocalDefault, bind, read, modify, _broadcastUpdate. simpl.
  rewrite cached_insert.
  change (cached (with_defaults ?d this) key) with (cached this key).
  assert (field (<["value" := newDefault]> (cached this key)) "userValue"
          = field (cached this key) "userValue") as ->.
  { unfold field. by rewrite lookup_insert_ne. }
  assert ((match _defaults this !! key with Some d => field d "value" | None => VUndefined end)
          = field (default ∅ (_defaults this !! key)) "value") as ->.
  { by destruct (_defaults this !! key). }
  destruct (is_nullish (field (cached this key) "userValue")); simpl;
    (eexists; split; [reflexivity|]; simpl;
     split_and!;
     [ eexists; split; [apply lookup_insert_eq|]; split;
         [apply lookup_insert_eq | by intros f Hf; rewrite lookup_insert_ne]
     | eexists; split; [apply lookup_insert_eq|]; split;
         [apply lookup_insert_eq | by intros f Hf; rewrite lookup_insert_ne]
     | by intros k Hk; rewrite !lookup_insert_ne
     | done | done | done | by rewrite ?app_nil_r ]).
Qed.

(** C3, amended. [set] compares the value with the user override the cache
    stores, not with what [get] returns: when the key is declared and not
    overridden by the server, the value is strictly equal to the stored user
    override, and the default check does not turn it into [null], the promise
    of [set] resolves to [true] and the client is left as it was (no request,
    no change, no observer call). The default check is
    [key in defaults && defaults[key].defaultValue === value]; on a name that
    the defaults table only inherits it turns [undefined] into [null]. *)
Theorem set_same_override_is_noop this key v e u :
  isOverridden this key = false →
  _cache this !! key = Some e →
  e !! "userValue" = Some u →
  strict_eq u v = true →
  (∀ d, _defaults this !! key = Some d → strict_eq (field d "defaultValue") v = false) →
  (_defaults this !! key = None → Object_prototype_has key = true → v ≠ VUndefined) →
  set key v this = (Ok (Fulfilled true), this).
Proof.
  intros Hov He Hu Heq Hnc Hinh.
  assert (newValOf (_defaults this) key v = v) as Hnew.
  { unfold newValOf.
    destruct (has_key (_defaults this) key) eqn:Hhas; simpl; [|done].
    destruct (_defaults this !! key) as [d|] eqn:Hd; simpl.
    - by rewrite (Hnc d eq_refl).
    - unfold has_key in Hhas. rewrite Hd in Hhas.
      rewrite bool_decide_eq_false_2 in Hhas by (by intros [? ?]). simpl in Hhas.
      rewrite field_empty. specialize (Hinh eq_refl Hhas). by destruct v. }
  apply set_Ok.
  unfold _updateBody, bind, assertUpdateAllowed, read, ret. rewrite Hov, Hnew.
  rewrite (isDeclared_Some _ _ _ He), (cached_Some _ _ _ He).
  unfold field. rewrite Hu. simpl. by rewrite Heq.
Qed.

(** C1, on the code. The user has chosen a date format; [set] is called with
    the declared default. The request carries the default itself as the new
    user value, not [null], whether the server is up or down; with a server
    that stores what it is sent, the promise resolves to [true] and the key
    ends up with a user override equal to its default, so [isDefault] is
    false. *)
Theorem set_to_declared_default_keeps_an_override :
  field (cached (dateFormatChosen storingServer) "dateFormat") "value"
    = VStr "MMMM Do YYYY" ∧
  batchSet_calls (set "dateFormat" (VStr "MMMM Do YYYY") (dateFormatChosen failingServer)).2
    = [("dateFormat", VStr "MMMM Do YYYY")] ∧
  batchSet_calls (set "dateFormat" (VStr "MMMM Do YYYY") (dateFormatChosen storingServer)).2
    = [("dateFormat", VStr "MMMM Do YYYY")] ∧
  (set "dateFormat" (VStr "MMMM Do YYYY") (dateFormatChosen storingServer)).1
    = Ok (Fulfilled true) ∧
  cached (set "dateFormat" (VStr "MMMM Do YYYY") (dateFormatChosen storingServer)).2
         "dateFormat" !! "userValue" = Some (VStr "MMMM Do YYYY") ∧
  isDefault (set "dateFormat" (VStr "MMMM Do YYYY") (dateFormatChosen storingServer)).2
            "dateFormat" = false.
Proof. split_and!; vm_compute; reflexivity. Qed.

(** C2, on the code. [savedQuery] is a [json] setting with default [{}]
    that the user has set to [null]; [remove] is called and the request
    fails. The promise resolves to [false] and one error is reported, but the
    value [get] returns is not the one from before the call: the revert stores
    what [get] had returned ([null]), which removes the override, and [get]
    now returns the parsed default. *)
Theorem failed_remove_does_not_restore_json_null (o : value) :
  JSON_parse (VStr "null") = Ok VNull →
  JSON_parse (VStr "{}") = Ok o →
  o ≠ VNull →
  get (savedQueryNull failingServer) "savedQuery" VUndefined = Ok VNull ∧
  ∃ this',
    remove "savedQuery" (savedQueryNull failingServer) = (Ok (Fulfilled false), this') ∧
    notify_errors this' = ["Request failed"] ∧
    batchSet_calls this' = [("savedQuery", VNull)] ∧
    get this' "savedQuery" VUndefined = Ok o ∧
    get this' "savedQuery" VUndefined
      ≠ get (savedQueryNull failingServer) "savedQuery" VUndefined.
Proof.
  intros Hnull Hobj Ho.
  set (this := savedQueryNull failingServer).
  set (e := {[ "value" := VStr "{}"; "type" := VStr "json"; "userValue" := VStr "null" ]}
         : gmap string value).
  assert (_cache this !! "savedQuery" = Some e) as He by (by vm_compute).
  pose proof (isDeclared_Some _ _ _ He) as Hdecl.
  pose proof (cached_Some _ _ _ He) as Hce.
  assert (get this "savedQuery" VUndefined = Ok VNull) as Hbefore.
  { rewrite (get_declared _ _ _ He). vm_compute. exact Hnull. }
  split; [exact Hbefore|].
  eexists. split.
  { rewrite remove_eq. apply async_Ok.
    apply (_updateBody_rejected this "savedQuery" VNull VNull o "Request failed");
      rewrite ?Hce.
    - exact Hdecl.
    - by vm_compute.
    - by vm_compute.
    - vm_compute. exact Hnull.
    - vm_compute. exact Hobj.
    - by vm_compute. }
  rewrite Hce.
  assert (get (afterRejected this "savedQuery" (newValOf (_defaults this) "savedQuery" VNull)
                 e VNull o "Request failed") "savedQuery" VUndefined = Ok o) as Hafter.
  { rewrite (get_declared _ _ _ (afterRejected_cache _ _ _ _ _ _ _ _ He)).
    vm_compute. exact Hobj. }
  split_and!.
  - by vm_compute.
  - by vm_compute.
  - exact Hafter.
  - rewrite Hafter, Hbefore. intros [= ->]. done.
Qed.

End ClientFacts.

(** *** The client on the sample settings *)

Section ClientSamples.

#[local] Existing Instance sampleBuiltins.

(** The positive part of C5 on a name the sample client does not declare. *)
Example get_undeclared_sample :
  isDeclared (dateFormatChosen failingServer) "pageSize" = false ∧
  get (dateFormatChosen failingServer) "pageSize" VUndefined
    = Throw (UnrecognizedSettingError "pageSize") ∧
  get (dateFormatChosen failingServer) "pageSize" (VNum 10) = Ok (VNum 10).
Proof. split_and!; vm_compute; reflexivity. Qed.

(** C5 on the code, on the sample client: no setting is declared under
    [toString] and nothing has been stored under it, yet [get] returns
    [undefined] instead of throwing. *)
Lemma get_throws_unless_name_is_inherited_witness :
  _cache (dateFormatChosen failingServer) !! "toString" = None ∧
  Object_prototype_has "toString" = true ∧
  inherited_userValue (dateFormatChosen failingServer) !! "toString" = None ∧
  isDeclared (dateFormatChosen failingServer) "toString" = true ∧
  get (dateFormatChosen failingServer) "toString" VUndefined = Ok VUndefined ∧
  get (dateFormatChosen failingServer) "toString" (VNum 10) = Ok (VNum 10).
Proof.
  split; [vm_compute; reflexivity|]. split; [vm_compute; reflexivity|].
  split; [vm_compute; reflexivity|].
  destruct (proj2 (get_throws_unless_name_is_inherited (dateFormatChosen failingServer)
                     "toString" (VNum 10) ltac:(vm_compute; reflexivity))
              ltac:(vm_compute; reflexivity)) as (Hdecl & _ & Hget).
  split; [exact Hdecl|]. apply Hget. vm_compute; reflexivity.
Defined.

(** A value stored under an inherited name goes to the inherited object:
    the cache gets no entry, and [get] reads the value back. *)
Example stored_on_the_inherited_object :
  _cache (_setLocally "toString" (VStr "x") (dateFormatChosen failingServer)).2
    = _cache (dateFormatChosen failingServer) ∧
  inherited_userValue (_setLocally "toString" (VStr "x") (dateFormatChosen failingServer)).2
    = {[ "toString" := VStr "x" ]} ∧
  get (_setLocally "toString" (VStr "x") (dateFormatChosen failingServer)).2
      "toString" VUndefined = Ok (VStr "x").
Proof. split_and!; vm_compute; reflexivity. Qed.

(** C4, amended, on the locked [timeout]. *)
Lemma overridden_key_rejects_update_witness :
  isOverridden (lockedClient storingServer) "timeout" = true ∧
  set "timeout" (VNum 90) (lockedClient storingServer)
    = (Ok (Rejected (OverriddenSettingError "timeout")), lockedClient storingServer) ∧
  remove "timeout" (lockedClient storingServer)
    = (Ok (Rejected (OverriddenSettingError "timeout")), lockedClient storingServer).
Proof.
  split; [vm_compute; reflexivity|].
  apply (overridden_key_rejects_update (lockedClient storingServer) "timeout" (VNum 90)).
  vm_compute; reflexivity.
Defined.

(** C4 as stated fails: on the locked [timeout] the call of [set] does not
    throw, and neither does [remove]; each returns a promise, which is
    rejected. *)
Lemma overridden_set_returns_a_promise :
  isOverridden (lockedClient storingServer) "timeout" = true ∧
  (set "timeout" (VNum 90) (lockedClient storingServer)).1
    ≠ Throw (OverriddenSettingError "timeout") ∧
  (set "timeout" (VNum 90) (lockedClient storingServer)).1
    = Ok (Rejected (OverriddenSettingError "timeout")) ∧
  (remove "timeout" (lockedClient storingServer)).1
    ≠ Throw (OverriddenSettingError "timeout") ∧
  (remove "timeout" (lockedClient storingServer)).1
    = Ok (Rejected (OverriddenSettingError "timeout")).
Proof. split_and!; vm_compute; (reflexivity || discriminate). Qed.

(** C3, amended, on the chosen date format: setting it again does nothing. *)
Lemma set_same_override_is_noop_witness :
  set "dateFormat" (VStr "YYYY-MM-DD") (dateFormatChosen storingServer)
    = (Ok (Fulfilled true), dateFormatChosen storingServer).
Proof.
  apply (set_same_override_is_noop (dateFormatChosen storingServer) "dateFormat"
           (VStr "YYYY-MM-DD")
           {[ "value" := VStr "MMMM Do YYYY"; "userValue" := VStr "YYYY-MM-DD" ]}
           (VStr "YYYY-MM-DD")).
  - vm_compute; reflexivity.
  - vm_compute; reflexivity.
  - vm_compute; reflexivity.
  - vm_compute; reflexivity.
  - intros d Hd. vm_compute in Hd. injection Hd as <-. vm_compute; reflexivity.
  - intros _ _. discriminate.
Defined.

(** C3 as stated fails: no user override is stored, [get] returns the
    declared default, and [set] with that very value sends a request and calls
    the observer. *)
Lemma set_to_effective_value_sends_a_request :
  isDeclared (dateFormatUntouched storingServer) "dateFormat" = true ∧
  isOverridden (dateFormatUntouched storingServer) "dateFormat" = false ∧
  get (dateFormatUntouched storingServer) "dateFormat" VUndefined
    = Ok (VStr "MMMM Do YYYY") ∧
  batchSet_calls
    (set "dateFormat" (VStr "MMMM Do YYYY") (dateFormatUntouched storingServer)).2
    = [("dateFormat", VStr "MMMM Do YYYY")] ∧
  observer_calls
    (set "dateFormat" (VStr "MMMM Do YYYY") (dateFormatUntouched storingServer)).2
    = [(7, {| ev_key := "dateFormat"; ev_newValue := VStr "MMMM Do YYYY";
              ev_oldValue := VStr "MMMM Do YYYY" |})].
Proof. split_and!; vm_compute; reflexivity. Qed.

(** The default check on a name the defaults table only inherits: the value
    read is [undefined], so [set] with [undefined] stores [null], and a
    request is sent although the stored user value is [undefined] too. *)
Example set_undefined_on_inherited_name_sends_a_request :
  batchSet_calls
    (set "toString" VUndefined
       (newClient ∅ {[ "toString" := {[ "userValue" := VUndefined ]} ]} storingServer [7])).2
    = [("toString", VNull)].
Proof. vm_compute; reflexivity. Qed.

(** C2 on the code, with the sample built-ins. *)
Lemma failed_remove_does_not_restore_json_null_witness :
  get (savedQueryNull failingServer) "savedQuery" VUndefined = Ok VNull ∧
  ∃ this',
    remove "savedQuery" (savedQueryNull failingServer) = (Ok (Fulfilled false), this') ∧
    notify_errors this' = ["Request failed"] ∧
    batchSet_calls this' = [("savedQuery", VNull)] ∧
    get this' "savedQuery" VUndefined = Ok (VRef sampleObject) ∧
    get this' "savedQuery" VUndefined
      ≠ get (savedQueryNull failingServer) "savedQuery" VUndefined.
Proof.
  apply (failed_remove_does_not_restore_json_null (VRef sampleObject)).
  - vm_compute; reflexivity.
  - vm_compute; reflexivity.
  - discriminate.
Defined.

(** A [json] setting given a text that is no JSON: the request fails, and the
    revert, which starts by reading the value, throws; the promise is rejected
    with the syntax error instead of resolving to [false], the error is not
    reported, and the text stays stored. *)
Example failed_set_of_bad_json_throws :
  (set "savedQuery" (VStr "{") (savedQueryNull failingServer)).1
    = Ok (Rejected SyntaxError) ∧
  notify_errors (set "savedQuery" (VStr "{") (savedQueryNull failingServer)).2 = [] ∧
  cached (set "savedQuery" (VStr "{") (savedQueryNull failingServer)).2 "savedQuery"
    !! "userValue" = Some (VStr "{").
Proof. split_and!; vm_compute; reflexivity. Qed.

End ClientSamples.

(** ** 3. Object graphs: [getAll] and the constructor *)

Section RefsFacts.

Import Refs.

Implicit Types (h g : gmap loc (list (string * value))) (v w : value) (t : tree).
Implicit Types (l x y : loc) (n : nat).

Lemma tree_ind' (P : tree → Prop) :
  (∀ v, P (Leaf v)) →
  (∀ fields, Forall (λ kt : string * tree, P kt.2) fields → P (Node fields)) →
  ∀ t, P t.
Proof.
  intros HLeaf HNode. fix IH 1. intros [v|fields]; [apply HLeaf|].
  apply HNode. induction fields as [|[k t] fields IHfields]; constructor; [apply IH|done].
Qed.

(** *** Reachability *)

Lemma reach_here h l : reach h (VRef l) l.
Proof. exists l. split; [done|apply rtc_refl]. Qed.

Lemma reach_step h l fields k w x :
  h !! l = Some fields → (k, w) ∈ fields → reach h w x → reach h (VRef l) x.
Proof.
  intros Hl Hin (y & -> & Hyx). exists l. split; [done|].
  eapply rtc_l; [|done]. by exists fields, k.
Qed.

Lemma reach_inv h l x :
  reach h (VRef l) x →
  x = l ∨ ∃ fields k y, h !! l = Some fields ∧ (k, VRef y) ∈ fields ∧ reach h (VRef y) x.
Proof.
  intros (l0 & [= <-] & Hr). inversion Hr as [|? y ? (fields & k & Hl & Hin) Hyx]; subst.
  - by left.
  - right. exists fields, k, y. split_and!; [done|done|]. by exists y.
Qed.

Lemma reach_not_ref h v x : (∀ l, v ≠ VRef l) → ¬ reach h v x.
Proof. intros Hv (l & -> & _). by apply (Hv l). Qed.

(** Reading a region that a larger heap leaves as it is. *)
Lemma reach_agree h g v x :
  (∀ y, reach h v y → g !! y = h !! y) → reach g v x → reach h v x.
Proof.
  intros Hagree (l & -> & Hr). revert Hagree.
  induction Hr as [l|l y x (fields & k & Hl & Hin) Hyx IH]; intros Hagree.
  - apply reach_here.
  - rewrite (Hagree l (reach_here _ _)) in Hl.
    eapply reach_step; [done|done|]. apply IH.
    intros z Hz. apply Hagree. by eapply reach_step.
Qed.

Lemma reach_agree_iff h g v x :
  (∀ y, reach h v y → g !! y = h !! y) → reach g v x ↔ reach h v x.
Proof.
  intros Hagree. split; [by apply reach_agree|].
  intros (l & -> & Hr). revert Hagree.
  induction Hr as [l|l y x (fields & k & Hl & Hin) Hyx IH]; intros Hagree.
  - apply reach_here.
  - eapply reach_step; [by rewrite (Hagree l (reach_here _ _))|done|].
    apply IH. intros z Hz. apply Hagree. by eapply reach_step.
Qed.

(** *** [snapshot] *)

Lemma snapshot_S n h l :
  snapshot (S n) h (VRef l) =
    fields ← h !! l;
    ts ← mapM (λ kv : string * value, t ← snapshot n h kv.2; Some (kv.1, t)) fields;
    Some (Node ts).
Proof. reflexivity. Qed.

Lemma snapshot_not_ref n h v : (∀ l, v ≠ VRef l) → snapshot n h v = Some (Leaf v).
Proof. intros Hv. destruct v, n; try done; by destruct (Hv l). Qed.

Lemma snapshot_ref_inv n h l t :
  snapshot n h (VRef l) = Some t →
  ∃ n' fields ts,
    n = S n' ∧ h !! l = Some fields ∧ t = Node ts ∧
    Forall2 (λ (kv : string * value) (kt : string * tree),
               kt.1 = kv.1 ∧ snapshot n' h kv.2 = Some kt.2) fields ts.
Proof.
  destruct n as [|n']; [done|]. rewrite snapshot_S.
  intros (fields & Hl & (ts & Hts & [= <-])%bind_Some)%bind_Some.
  exists n', fields, ts. split_and!; try done.
  apply mapM_Some in Hts. eapply Forall2_impl; [done|].
  intros kv kt (t & Ht & [= <-])%bind_Some. done.
Qed.

Lemma snapshot_ref_intro n h l fields ts :
  h !! l = Some fields →
  Forall2 (λ (kv : string * value) (kt : string * tree),
             kt.1 = kv.1 ∧ snapshot n h kv.2 = Some kt.2) fields ts →
  snapshot (S n) h (VRef l) = Some (Node ts).
Proof.
  intros Hl Hts. rewrite snapshot_S, Hl. simpl.
  assert (mapM (λ kv : string * value, t ← snapshot n h kv.2; Some (kv.1, t)) fields
          = Some ts) as ->; [|done].
  apply mapM_Some. eapply Forall2_impl; [done|].
  intros kv [k t] [Hk Ht]. simpl in *. subst. by rewrite Ht.
Qed.

Lemma snapshot_weaken n h g v t :
  h ⊆ g → snapshot n h v = Some t → snapshot n g v = Some t.
Proof.
  intros Hsub. revert v t. induction n as [|n IH]; intros v t.
  { destruct v; done. }
  destruct v as [| | | | |l]; try done.
  intros (n' & fields & ts & [= <-] & Hl & -> & Hts)%snapshot_ref_inv.
  apply snapshot_ref_intro with fields; [by eapply lookup_weaken|].
  eapply Forall2_impl; [done|]. intros kv kt [? ?]. split; [done|]. by apply IH.
Qed.

Lemma snapshot_closed n h v t x :
  snapshot n h v = Some t → reach h v x → x ∈ dom h.
Proof.
  intros Ht (l & -> & Hr). revert n t Ht.
  induction Hr as [l|l y x (fields & k & Hl & Hin) Hyx IH]; intros n t Ht.
  - apply snapshot_ref_inv in Ht as (n' & fields & ts & _ & Hl & _). by apply elem_of_dom.
  - apply snapshot_ref_inv in Ht as (n' & fields' & ts & -> & Hl' & -> & Hts).
    simplify_eq.
    destruct (Forall2_elem_of_l _ _ _ _ Hts Hin) as (kt & _ & _ & Hy).
    by eapply IH.
Qed.

Lemma snapshot_pure n h v t : snapshot n h v = Some t → pure t.
Proof.
  revert v t. induction n as [|n IH]; intros v t.
  { destruct v; try done; intros [= <-]; by constructor. }
  destruct v as [| | | | |l]; try (intros [= <-]; by constructor).
  intros (n' & fields & ts & [= <-] & Hl & -> & Hts)%snapshot_ref_inv.
  constructor. clear Hl.
  induction Hts as [|kv kt fields ts [_ Ht] _ IHts]; [by constructor|].
  constructor; [by eapply IH|done].
Qed.

(** A heap that agrees on what a value reaches gives the same snapshot. *)
Lemma snapshot_agree n h g v :
  (∀ y, reach h v y → g !! y = h !! y) → snapshot n g v = snapshot n h v.
Proof.
  revert v. induction n as [|n IH]; intros v Hagree; [by destruct v|].
  destruct v as [| | | | |l]; try done.
  rewrite !snapshot_S, (Hagree l (reach_here _ _)).
  destruct (h !! l) as [fields|] eqn:Hl; [|done]. simpl.
  erewrite mapM_ext_in; [reflexivity|].
  intros [k w] Hin. simpl. rewrite IH; [done|].
  intros y Hy. apply Hagree. by eapply reach_step.
Qed.

(** *** [plant] *)

Lemma reach_weaken_inv h g v x :
  h ⊆ g → (∀ y, reach h v y → y ∈ dom h) → reach g v x → reach h v x.
Proof.
  intros Hsub Hclosed. apply reach_agree. intros y Hy.
  apply Hclosed, elem_of_dom in Hy as [fields Hf].
  rewrite Hf. by eapply lookup_weaken.
Qed.

Lemma plantWith_planted fields h props g :
  Forall (λ kt : string * tree, ∀ h v g, plant kt.2 h = (v, g) → planted h v g) fields →
  plantWith plant fields h = (props, g) →
  h ⊆ g ∧ ∀ k w x, (k, w) ∈ props → reach g w x → x ∈ dom g ∧ x ∉ dom h.
Proof.
  intros Hfields. revert h props g.
  induction Hfields as [|[k t] fields Ht _ IH]; intros h props g; simpl.
  { intros [= <- <-]. split; [done|]. intros k w x Hin. by apply elem_of_nil in Hin. }
  destruct (plant t h) as [v h1] eqn:Hplant.
  destruct (plantWith plant fields h1) as [props' g'] eqn:Hrest.
  intros [= <- <-].
  destruct (Ht _ _ _ Hplant) as [Hsub1 Hv]. destruct (IH _ _ _ Hrest) as [Hsub2 Hprops].
  split; [by etrans|].
  intros k' w x [[= -> ->]|Hin]%elem_of_cons Hr.
  - apply reach_weaken_inv with (h := h1) in Hr; [|done|intros y Hy; by apply Hv].
    destruct (Hv _ Hr) as [Hx1 Hx2]. split; [|done].
    by eapply (subseteq_dom h1 g').
  - destruct (Hprops _ _ _ Hin Hr) as [Hx1 Hx2]. split; [done|].
    intros Hx. apply Hx2. by eapply (subseteq_dom h h1).
Qed.

Lemma plant_planted t : pure t → ∀ h v g, plant t h = (v, g) → planted h v g.
Proof.
  induction t as [w|fields IH] using tree_ind'; intros Hpure h v g.
  - simpl. intros [= <- <-]. split; [done|]. intros x Hx. exfalso.
    inversion Hpure as [? Hw|]; subst. by eapply reach_not_ref.
  - simpl. destruct (plantWith plant fields h) as [props h1] eqn:Hfields.
    intros [= <- <-].
    assert (Forall (λ kt : string * tree, ∀ h v g, plant kt.2 h = (v, g) → planted h v g)
                   fields) as Hall.
    { inversion Hpure as [|? Hp]; subst.
      rewrite Forall_forall in IH, Hp. apply Forall_forall.
      intros kt Hin. apply IH; [done|]. by apply Hp. }
    destruct (plantWith_planted _ _ _ _ Hall Hfields) as [Hsub Hprops].
    pose proof (is_fresh (dom h1)) as Hfresh.
    assert (h1 ⊆ <[fresh (dom h1) := props]> h1) as Hsub1.
    { apply insert_subseteq. by apply not_elem_of_dom. }
    split; [by etrans|].
    intros x [->|(fields' & k & y & Hl & Hin & Hr)]%reach_inv.
    + split; [apply elem_of_dom; rewrite lookup_insert_eq; eauto|].
      intros Hx. apply Hfresh. by eapply (subseteq_dom h h1).
    + rewrite lookup_insert_eq in Hl. simplify_eq.
      apply reach_weaken_inv with (h := h1) in Hr;
        [|done|intros z Hz; by eapply Hprops].
      destruct (Hprops _ _ _ Hin Hr) as [Hx1 Hx2]. split; [|done].
      by eapply (subseteq_dom h1 (<[_ := _]> h1)).
Qed.

Lemma plantWith_subseteq fields h props g :
  Forall (λ kt : string * tree, pure kt.2) fields →
  plantWith plant fields h = (props, g) → h ⊆ g.
Proof.
  intros Hpure Hplant. refine (proj1 (plantWith_planted _ _ _ _ _ Hplant)).
  eapply Forall_impl; [done|]. intros kt Hkt. by apply plant_planted.
Qed.

Lemma plantWith_snapshot n fields h props g :
  Forall (λ kt : string * tree, pure kt.2) fields →
  Forall (λ kt : string * tree,
            ∀ h v g, plant kt.2 h = (v, g) → snapshot n g v = Some kt.2) fields →
  plantWith plant fields h = (props, g) →
  Forall2 (λ (kv : string * value) (kt : string * tree),
             kt.1 = kv.1 ∧ snapshot n g kv.2 = Some kt.2) props fields.
Proof.
  intros Hpure Hfields. revert Hpure h props g.
  induction Hfields as [|[k t] fields Ht _ IH]; intros Hpure h props g; simpl.
  { intros [= <- <-]. constructor. }
  destruct (plant t h) as [v h1] eqn:Hplant.
  destruct (plantWith plant fields h1) as [props' g'] eqn:Hrest.
  intros [= <- <-]. inversion Hpure as [|? ? Hpt Hpf]; subst.
  constructor; [|by eapply IH].
  split; [done|]. simpl.
  eapply snapshot_weaken; [by eapply plantWith_subseteq|]. by eapply Ht.
Qed.

(** The planted tree reads back as itself, with the fuel that read it. *)
Lemma plant_snapshot t :
  pure t → ∀ n h0 v0 h v g,
    snapshot n h0 v0 = Some t → plant t h = (v, g) → snapshot n g v = Some t.
Proof.
  induction t as [w|fields IH] using tree_ind'; intros Hpure n h0 v0 h v g Hsnap.
  - simpl. intros [= <- <-]. inversion Hpure as [? Hw|]; subst.
    by apply snapshot_not_ref.
  - simpl. destruct (plantWith plant fields h) as [props h1] eqn:Hfields.
    intros [= <- <-]. inversion Hpure as [|? Hp]; subst.
    destruct v0 as [| | | | |l0]; try (by destruct n).
    apply snapshot_ref_inv in Hsnap as (n' & fields0 & ts & -> & Hl0 & [= <-] & Hts).
    assert (h1 ⊆ <[fresh (dom h1) := props]> h1) as Hsub1.
    { apply insert_subseteq, not_elem_of_dom, is_fresh. }
    apply snapshot_ref_intro with props; [apply lookup_insert_eq|].
    eapply Forall2_impl.
    + eapply (plantWith_snapshot n'); [done| |done].
      rewrite Forall_forall in IH, Hp. apply Forall_forall. intros kt Hin h' v' g' Hplant.
      destruct (Forall2_elem_of_r _ _ _ _ Hts Hin) as (kv & _ & _ & Hkv).
      eapply IH; [done|by apply Hp|done|done].
    + intros kv kt [? ?]. split; [done|]. by eapply snapshot_weaken.
Qed.

(** *** [cloneDeep] *)

Lemma cloneDeep_Some n h v v' g :
  cloneDeep n h v = Some (v', g) →
  planted h v' g ∧ ∃ t, snapshot n h v = Some t ∧ snapshot n g v' = Some t.
Proof.
  unfold cloneDeep. intros (t & Ht & [= Hplant])%bind_Some.
  pose proof (snapshot_pure _ _ _ _ Ht) as Hpure.
  split; [by eapply plant_planted|].
  exists t. split; [done|]. by eapply plant_snapshot.
Qed.

Lemma cloneDeep_None n h v : cloneDeep n h v = None ↔ snapshot n h v = None.
Proof. unfold cloneDeep. by destruct (snapshot n h v). Qed.

(** *** [defaultsDeep] *)

Lemma assoc_Some {A} k (l : list (string * A)) a : assoc k l = Some a → (k, a) ∈ l.
Proof.
  induction l as [|[k' a'] l IH]; [done|]. simpl. case_bool_decide.
  - intros [= ->]. subst. apply list_elem_of_here.
  - intros Ha. by apply list_elem_of_further, IH.
Qed.

Lemma defaultsTree_pure a : ∀ b, pure a → pure b → pure (defaultsTree a b).
Proof.
  induction a as [w|fa IH] using tree_ind'; intros b Ha Hb; [done|].
  destruct b as [w|fb]; [done|]. simpl.
  inversion Ha as [|? Hfa]; inversion Hb as [|? Hfb]; subst.
  constructor. apply Forall_app. split.
  - rewrite Forall_forall in IH, Hfa, Hfb. apply Forall_forall.
    intros kt [[k ta] [-> Hin]]%list_elem_of_fmap. unfold fillWith. simpl.
    destruct (assoc k fb) as [tb|] eqn:Hk; [|by apply (Hfa (k, ta))].
    apply assoc_Some in Hk.
    pose proof (Hfa _ Hin) as Hta. pose proof (Hfb _ Hk) as Htb. simpl in *.
    destruct ta as [[]|]; try done.
    destruct tb; [done|]. by apply (IH (k, Node fields)).
  - apply Forall_forall. intros kt [_ Hin]%list_elem_of_filter.
    rewrite Forall_forall in Hfb. by apply Hfb.
Qed.

Lemma foldl_defaultsTree_pure ts a :
  pure a → Forall pure ts → pure (foldl defaultsTree a ts).
Proof.
  intros Ha Hts. revert a Ha. induction Hts as [|t ts Ht _ IH]; intros a Ha; [done|].
  simpl. apply IH. by apply defaultsTree_pure.
Qed.

Lemma defaultsDeep_Some n h sources c g :
  defaultsDeep n h sources = Some (c, g) → planted h c g.
Proof.
  unfold defaultsDeep. intros (ts & Hts & [= Hplant])%bind_Some.
  eapply plant_planted; [|done].
  apply foldl_defaultsTree_pure; [constructor; constructor|].
  apply mapM_Some in Hts. clear Hplant.
  induction Hts as [|v t vs ts Ht _ IH]; constructor; [|done].
  by eapply snapshot_pure.
Qed.

(** *** Writes by the caller *)

Lemma write_safe h this l fields w x :
  (∀ k w x, (k, w) ∈ fields → reach h w x → ¬ clientReach h this x) →
  (∀ y, reach h w y → ¬ clientReach h this y) →
  reach (<[l := fields]> h) w x → ¬ clientReach h this x.
Proof.
  intros Hfields Hsafe (l0 & -> & Hr). revert Hsafe.
  induction Hr as [l0|l0 y x (fields' & k & Hl & Hin) Hyx IH]; intros Hsafe.
  - apply Hsafe, reach_here.
  - apply IH. intros z Hz. destruct (decide (l0 = l)) as [->|Hne].
    + rewrite lookup_insert_eq in Hl. simplify_eq. by eapply Hfields.
    + rewrite lookup_insert_ne in Hl by done. apply Hsafe. by eapply reach_step.
Qed.

Lemma clientReach_agree h g this x :
  (∀ y, clientReach h this y → g !! y = h !! y) →
  clientReach g this x ↔ clientReach h this x.
Proof.
  intros Hagree. unfold clientReach.
  rewrite (reach_agree_iff h g (_cache this)), (reach_agree_iff h g (_defaults this));
    [done| |].
  - intros y Hy. apply Hagree. by right.
  - intros y Hy. apply Hagree. by left.
Qed.

(** The objects of the client are none of those the caller writes to. *)
Lemma mutated_frame this roots h h' :
  mutated this roots h h' →
  (∀ x, clientReach h this x → x ∈ dom h) →
  (∀ r x, r ∈ roots → reach h r x → ¬ clientReach h this x) →
  ∀ x, clientReach h this x → h' !! x = h !! x.
Proof.
  induction 1 as [h|h l fields h' Hl Hfields _ IH]; intros Hclosed Hroots x Hx; [done|].
  assert (¬ clientReach h this l) as Hnl.
  { destruct Hl as [(r & Hr & Hrl)|Hl]; [by eapply Hroots|]. intros Hc. by apply Hl, Hclosed. }
  assert (∀ y, clientReach h this y → <[l := fields]> h !! y = h !! y) as Hagree.
  { intros y Hy. apply lookup_insert_ne. by intros ->. }
  rewrite IH, Hagree; [done|done| | |].
  - intros y Hy%(clientReach_agree h); [|done].
    apply dom_insert, elem_of_union. right. by apply Hclosed.
  - intros r y Hr Hry Hy%(clientReach_agree h); [|done].
    revert Hy. eapply write_safe; [done| |done]. intros z. by apply Hroots.
  - by apply (clientReach_agree h).
Qed.

(** *** What the client answers depends on its own objects only *)

Lemma propertiesOf_agree h g v :
  (∀ y, reach h v y → g !! y = h !! y) → propertiesOf g v = propertiesOf h v.
Proof.
  intros Hagree. destruct v as [| | | | |l]; try done. simpl.
  by rewrite (Hagree l (reach_here _ _)).
Qed.

Lemma settingsOf_agree h g v :
  (∀ y, reach h v y → g !! y = h !! y) → settingsOf g v = settingsOf h v.
Proof.
  intros Hagree. unfold settingsOf. rewrite (propertiesOf_agree h g v Hagree).
  apply map_fmap_ext. intros k w Hk. apply propertiesOf_agree.
  intros y Hy. apply Hagree.
  destruct v as [| | | | |l]; try done. simpl in Hk.
  destruct (h !! l) as [fields|] eqn:Hl; [|done]. simpl in Hk.
  apply elem_of_list_to_map_2 in Hk. by eapply reach_step.
Qed.

Lemma getAllContent_snapshot n h this :
  getAllContent n h this = snapshot n h (_cache this).
Proof.
  unfold getAllContent, getAll.
  destruct (cloneDeep n h (_cache this)) as [[copy g]|] eqn:Hclone; simpl.
  - apply cloneDeep_Some in Hclone as [_ (t & -> & ->)]. done.
  - by apply cloneDeep_None in Hclone.
Qed.

Lemma agree_sameAnswers `{Builtins} this h g :
  (∀ y, clientReach h this y → g !! y = h !! y) → sameAnswers this h g.
Proof.
  intros Hagree.
  assert (∀ y, reach h (_cache this) y → g !! y = h !! y) as Hc
    by (intros y Hy; apply Hagree; by left).
  assert (∀ y, reach h (_defaults this) y → g !! y = h !! y) as Hd
    by (intros y Hy; apply Hagree; by right).
  split_and!.
  - intros key d. unfold get.
    by rewrite (settingsOf_agree h g (_cache this)), (settingsOf_agree h g (_defaults this)).
  - intros n. rewrite !getAllContent_snapshot. by apply snapshot_agree.
  - intros n. by apply snapshot_agree.
  - intros n. by apply snapshot_agree.
Qed.

Lemma wellFormed_closed h this x : wellFormed h this → clientReach h this x → x ∈ dom h.
Proof. intros [Hc Hd] [Hx|Hx]; [by apply Hc|by apply Hd]. Qed.

Lemma planted_reach_old h g r x :
  h ⊆ g → closedIn h r → reach g r x → x ∈ dom h.
Proof. intros Hsub Hr Hx. apply Hr. by eapply reach_weaken_inv. Qed.

(** *** [getAll] *)

Lemma getAll_isolated `{Builtins} n h this :
  wellFormed h this →
  match getAll n h this with
  | Some (copy, h1) =>
      snapshot n h1 copy = snapshot n h (_cache this) ∧
      (∀ x, reach h1 copy x → x ∉ dom h) ∧
      (∀ h2, mutated this [copy] h1 h2 → sameAnswers this h h2)
  | None => snapshot n h (_cache this) = None
  end.
Proof.
  intros Hwf. unfold getAll.
  destruct (cloneDeep n h (_cache this)) as [[copy h1]|] eqn:Hclone;
    [|by apply cloneDeep_None].
  apply cloneDeep_Some in Hclone as [[Hsub Hcopy] (t & Ht & Hsnap)].
  split_and!; [by rewrite Ht|by intros x [_ ?]%Hcopy|].
  assert (∀ y, clientReach h this y → h1 !! y = h !! y) as Hagree.
  { intros y [fields Hy]%(wellFormed_closed _ _ _ Hwf)%elem_of_dom.
    rewrite Hy. by eapply lookup_weaken. }
  intros h2 Hmut. apply agree_sameAnswers. intros y Hy.
  rewrite <-(Hagree y Hy). eapply mutated_frame; [done| | |by apply (clientReach_agree h)].
  - intros x Hx%(clientReach_agree h); [|done].
    eapply (subseteq_dom h h1); [done|]. by eapply wellFormed_closed.
  - intros r x Hr'%list_elem_of_singleton Hr Hx%(clientReach_agree h); [|done]. subst r.
    apply Hcopy in Hr as [_ Hr]. apply Hr. by eapply wellFormed_closed.
Qed.

(** *** The constructor *)

Lemma plantWith_readable fields h props g :
  Forall (λ kt : string * tree, pure kt.2) fields →
  Forall (λ kt : string * tree,
            ∀ h v g, plant kt.2 h = (v, g) →
                     ∃ m, ∀ m', m ≤ m' → snapshot m' g v = Some kt.2) fields →
  plantWith plant fields h = (props, g) →
  ∃ m, ∀ m', m ≤ m' →
    Forall2 (λ (kv : string * value) (kt : string * tree),
               kt.1 = kv.1 ∧ snapshot m' g kv.2 = Some kt.2) props fields.
Proof.
  intros Hpure Hfields. revert Hpure h props g.
  induction Hfields as [|[k t] fields Ht _ IH]; intros Hpure h props g; simpl.
  { intros [= <- <-]. exists 0. constructor. }
  destruct (plant t h) as [v h1] eqn:Hplant.
  destruct (plantWith plant fields h1) as [props' g'] eqn:Hrest.
  intros [= <- <-]. inversion Hpure as [|? ? Hpt Hpf]; subst.
  destruct (Ht _ _ _ Hplant) as [m1 Hm1]. destruct (IH Hpf _ _ _ Hrest) as [m2 Hm2].
  exists (m1 `max` m2). intros m' Hm'. constructor; [|apply Hm2; lia].
  split; [done|]. simpl.
  eapply snapshot_weaken; [by eapply plantWith_subseteq|]. apply Hm1. lia.
Qed.

(** A planted tree can be read back, given fuel for its depth. *)
Lemma plant_readable t :
  pure t → ∀ h v g, plant t h = (v, g) → ∃ m, ∀ m', m ≤ m' → snapshot m' g v = Some t.
Proof.
  induction t as [w|fields IH] using tree_ind'; intros Hpure h v g.
  - simpl. intros [= <- <-]. inversion Hpure as [? Hw|]; subst.
    exists 0. intros m' _. by apply snapshot_not_ref.
  - simpl. destruct (plantWith plant fields h) as [props h1] eqn:Hfields.
    intros [= <- <-]. inversion Hpure as [|? Hp]; subst.
    destruct (plantWith_readable fields h props h1) as [m Hm]; [done| |done|].
    { rewrite Forall_forall in IH, Hp. apply Forall_forall. intros kt Hin.
      apply IH; [done|by apply Hp]. }
    exists (S m). intros [|m'] Hm'; [lia|].
    apply snapshot_ref_intro with props; [apply lookup_insert_eq|].
    eapply Forall2_impl; [apply (Hm m'); lia|].
    intros kv kt [? ?]. split; [done|].
    eapply snapshot_weaken; [|done]. apply insert_subseteq, not_elem_of_dom, is_fresh.
Qed.

Lemma defaultsDeep_readable n h sources c g :
  defaultsDeep n h sources = Some (c, g) → ∃ m t, snapshot m g c = Some t.
Proof.
  unfold defaultsDeep. intros (ts & Hts & [= Hplant])%bind_Some.
  destruct (plant_readable _ (foldl_defaultsTree_pure ts (Node []) ltac:(by repeat constructor)
              ltac:(apply mapM_Some in Hts; clear Hplant;
                    induction Hts; constructor; [by eapply snapshot_pure|done]))
              _ _ _ Hplant) as [m Hm].
  exists m, (foldl defaultsTree (Node []) ts). by apply Hm.
Qed.

Lemma constructor_isolated `{Builtins} n h defaults initialSettings :
  closedIn h defaults →
  closedIn h initialSettings →
  match constructor n h defaults initialSettings with
  | Some (this, h1) =>
      wellFormed h1 this ∧
      snapshot n h1 (_defaults this) = snapshot n h defaults ∧
      (∀ x, clientReach h1 this x → x ∉ dom h) ∧
      (∃ m, is_Some (getAll m h1 this)) ∧
      (∀ h2, mutated this [defaults; initialSettings] h1 h2 → sameAnswers this h1 h2)
  | None => snapshot n h defaults = None ∨ snapshot n h initialSettings = None
  end.
Proof.
  intros Hdef Hini. unfold constructor.
  destruct (cloneDeep n h defaults) as [[d g1]|] eqn:Hd; simpl;
    [|left; by apply cloneDeep_None].
  apply cloneDeep_Some in Hd as [[Hsub1 Hd] (td & Htd0 & Htd)].
  destruct (cloneDeep n g1 initialSettings) as [[s g2]|] eqn:Hs; simpl.
  2:{ right. apply cloneDeep_None in Hs.
      destruct (snapshot n h initialSettings) as [t|] eqn:Ht; [|done].
      by rewrite (snapshot_weaken _ _ _ _ _ Hsub1 Ht) in Hs. }
  apply cloneDeep_Some in Hs as [[Hsub2 Hs] (ts & _ & Hts)].
  destruct (defaultsDeep n g2 [d; s]) as [[c h1]|] eqn:Hc; simpl.
  2:{ exfalso. unfold defaultsDeep in Hc. simpl in Hc.
      by rewrite (snapshot_weaken _ _ _ _ _ Hsub2 Htd), Hts in Hc. }
  pose proof (defaultsDeep_readable _ _ _ _ _ Hc) as (m & tc & Htc).
  apply defaultsDeep_Some in Hc as [Hsub3 Hc].
  assert (g1 ⊆ h1) as Hsub13 by (by transitivity g2).
  assert (h ⊆ h1) as Hsub by (by transitivity g1).
  assert (∀ x, reach h1 d x → x ∈ dom g1 ∧ x ∉ dom h) as Hd1.
  { intros x Hx. apply Hd. eapply reach_weaken_inv; [exact Hsub13| |done].
    intros y Hy. by apply Hd. }
  assert (wellFormed h1 {| _defaults := d; _cache := c |}) as Hwf.
  { split; simpl.
    - intros x Hx. by apply Hc.
    - intros x [Hx _]%Hd1. by eapply (subseteq_dom g1 h1). }
  assert (∀ x, clientReach h1 {| _defaults := d; _cache := c |} x → x ∉ dom h) as Hnew.
  { intros x [[_ Hx]%Hc|[_ Hx]%Hd1]; simpl in *; [|done].
    intros Hxh. apply Hx. eapply (subseteq_dom h g2); [by transitivity g1|done]. }
  split_and!; [done| |done| |].
  - simpl. rewrite Htd0. exact (snapshot_weaken _ _ _ _ _ Hsub13 Htd).
  - exists m. unfold getAll, cloneDeep. simpl. by rewrite Htc.
  - intros h2 Hmut. apply agree_sameAnswers. eapply mutated_frame; [done| |].
    + intros x. by apply wellFormed_closed.
    + intros r x [->|Hr']%elem_of_cons Hr Hx%Hnew; apply Hx.
      * exact (planted_reach_old _ _ _ _ Hsub Hdef Hr).
      * apply list_elem_of_singleton in Hr' as ->.
        exact (planted_reach_old _ _ _ _ Hsub Hini Hr).
Qed.

Lemma snapshot_closedIn n h v : is_Some (snapshot n h v) → closedIn h v.
Proof. intros [t Ht] x Hx. by eapply snapshot_closed. Qed.

(** C10. [getAll] returns a deep copy of the cache: the same content, held by
    objects that did not exist before the call, so that whatever the caller
    then does to the copy, [get] and [getAll] answer as before. Likewise the
    constructor keeps deep copies: the client's tables are made of new objects
    only, the defaults table has the content of [defaults], and whatever the
    caller then does to [defaults] and [initialSettings] changes no answer of
    the client. Both calls return whenever what they copy can be read with the
    given fuel. *)
Theorem getAll_and_constructor_copy_deeply `{Builtins} :
  (∀ n h this,
     wellFormed h this →
     match getAll n h this with
     | Some (copy, h1) =>
         snapshot n h1 copy = snapshot n h (_cache this) ∧
         (∀ x, reach h1 copy x → x ∉ dom h) ∧
         (∀ h2, mutated this [copy] h1 h2 → sameAnswers this h h2)
     | None => snapshot n h (_cache this) = None
     end) ∧
  (∀ n h defaults initialSettings,
     closedIn h defaults →
     closedIn h initialSettings →
     match constructor n h defaults initialSettings with
     | Some (this, h1) =>
         wellFormed h1 this ∧
         snapshot n h1 (_defaults this) = snapshot n h defaults ∧
         (∀ x, clientReach h1 this x → x ∉ dom h) ∧
         (∃ m, is_Some (getAll m h1 this)) ∧
         (∀ h2, mutated this [defaults; initialSettings] h1 h2 → sameAnswers this h1 h2)
     | None => snapshot n h defaults = None ∨ snapshot n h initialSettings = None
     end).
Proof.
  split; [intros n h this; apply getAll_isolated|].
  intros n h defaults initialSettings. apply constructor_isolated.
Qed.

End RefsFacts.

(** *** The sample store *)

Section RefsSamples.

Import Refs.

#[local] Existing Instance sampleBuiltins.

(** The constructor on the sample store: the cache holds the default with the
    user's value beside it, in objects of its own. *)
Example constructed_cache :
  match constructor 4 sampleStore (VRef 1%positive) (VRef 5%positive) with
  | Some (this, h1) =>
      snapshot 4 h1 (_cache this) =
        Some (Node [("dateFormat", Node [("value", Leaf (VStr "MMMM Do YYYY"));
                                         ("userValue", Leaf (VStr "YYYY-MM-DD"))]);
                    ("defaultColumns", Node [("value", Node [("0", Leaf (VStr "_source"))])])]) ∧
      get h1 this "dateFormat" VUndefined = Ok (VStr "YYYY-MM-DD") ∧
      strict_eq (_cache this) (VRef 1%positive) = false ∧
      strict_eq (_defaults this) (VRef 1%positive) = false
  | None => False
  end.
Proof. vm_compute. split_and!; reflexivity. Qed.

(** The page overwrites the default it passed in; the client does not see it. *)
Example defaults_overwritten_afterwards :
  match constructor 4 sampleStore (VRef 1%positive) (VRef 5%positive) with
  | Some (this, h1) =>
      get (<[2%positive := [("value", VStr "overwritten")]]> h1) this "dateFormat" (VStr "x")
        = get h1 this "dateFormat" (VStr "x") ∧
      snapshot 4 (<[2%positive := [("value", VStr "overwritten")]]> h1) (_defaults this)
        = snapshot 4 sampleStore (VRef 1%positive)
  | None => False
  end.
Proof. vm_compute. split_and!; reflexivity. Qed.

(** C10 on the sample stores. *)
Lemma getAll_and_constructor_copy_deeply_witness :
  match getAll 3 sampleClientStore sampleClient with
  | Some (copy, h1) =>
      snapshot 3 h1 copy = snapshot 3 sampleClientStore (_cache sampleClient) ∧
      (∀ x, reach h1 copy x → x ∉ dom sampleClientStore) ∧
      (∀ h2, mutated sampleClient [copy] h1 h2 →
             sameAnswers sampleClient sampleClientStore h2)
  | None => snapshot 3 sampleClientStore (_cache sampleClient) = None
  end ∧
  match constructor 4 sampleStore (VRef 1%positive) (VRef 5%positive) with
  | Some (this, h1) =>
      wellFormed h1 this ∧
      snapshot 4 h1 (_defaults this) = snapshot 4 sampleStore (VRef 1%positive) ∧
      (∀ x, clientReach h1 this x → x ∉ dom sampleStore) ∧
      (∃ m, is_Some (getAll m h1 this)) ∧
      (∀ h2, mutated this [VRef 1%positive; VRef 5%positive] h1 h2 → sameAnswers this h1 h2)
  | None =>
      snapshot 4 sampleStore (VRef 1%positive) = None ∨
      snapshot 4 sampleStore (VRef 5%positive) = None
  end.
Proof.
  split.
  - apply (proj1 getAll_and_constructor_copy_deeply 3 sampleClientStore sampleClient).
    split; apply (snapshot_closedIn 3); vm_compute; eexists; reflexivity.
  - apply (proj2 getAll_and_constructor_copy_deeply 4 sampleStore
             (VRef 1%positive) (VRef 5%positive));
      apply (snapshot_closedIn 4); vm_compute; eexists; reflexivity.
Defined.

End RefsSamples.

(** ** 4. The shape of the projection *)

Section MenuShape.

Context {Embeddable ContainerState Content Icon : Type}.

Local Abbreviation Panel := (DashboardContextMenuPanel Embeddable ContainerState Content).
Local Abbreviation Action := (DashboardPanelAction Embeddable ContainerState Content Icon).
Local Abbreviation EuiPanel := (EuiContextMenuPanelDescriptor Content Icon).
Local Abbreviation EuiItem := (EuiContextMenuPanelItemDescriptor Icon).

Implicit Types (p child : Panel) (a action : Action) (actions l : list Action).
Implicit Types (e : option Embeddable) (c : ContainerState) (n fuel : nat).

Lemma visibleChildActions_elem i actions e c a child :
  (a, child) ∈ visibleChildActions i actions e c ↔
  a ∈ actions ∧ parentPanelId a = i ∧ isVisible a e c = true ∧
  childContextMenuPanel a = Some child.
Proof.
  rewrite visibleChildActions_eq, list_elem_of_omap. split.
  - intros (a' & Hin & Hch). unfold childOf in Hch.
    destruct (isVisible a' e c) eqn:Hvis; [|done].
    destruct (childContextMenuPanel a') as [ch|] eqn:Hchild; simplify_eq/=.
    apply list_elem_of_filter in Hin as [Hpar Hin]. done.
  - intros (Hin & Hpar & Hvis & Hchild). exists a. split.
    + by apply list_elem_of_filter.
    + unfold childOf. by rewrite Hvis, Hchild.
Qed.

(** Where a panel of the result comes from: it is the panel at hand, or it
    lies in the projection of the child panel of one of its visible actions. *)
Lemma buildEuiContextMenuPanels_elem n p actions e c out (q : EuiPanel) :
  buildEuiContextMenuPanels (S n) p actions e c = Some out →
  q ∈ out →
  q = ownPanel p actions e c ∨
  ∃ a child sub,
    (a, child) ∈ visibleChildActions (panel_id p) actions e c ∧
    buildEuiContextMenuPanels n child actions e c = Some sub ∧ q ∈ sub.
Proof.
  rewrite buildEuiContextMenuPanels_S. intros (subs & Hsubs & [= <-])%bind_Some.
  intros [->|Hq]%elem_of_cons; [by left|right].
  apply elem_of_concat in Hq as (sub & Hq & Hsub).
  apply mapM_Some in Hsubs.
  destruct (Forall2_elem_of_r _ _ _ _ Hsubs Hsub) as ([a child] & Hin & Hrun).
  by exists a, child, sub.
Qed.

(** Every panel of the result is the projection of a panel that is reached
    from the root through visible actions, and that is the root or the child
    panel some visible action declares. *)
Lemma projected_panel n p actions e c out (q : EuiPanel) :
  buildEuiContextMenuPanels n p actions e c = Some out →
  q ∈ out →
  ∃ p', q = ownPanel p' actions e c ∧
        rtc (childEdge actions e c) (panel_id p) (panel_id p') ∧
        (p' = p ∨ ∃ a, a ∈ actions ∧ isVisible a e c = true ∧
                       childContextMenuPanel a = Some p').
Proof.
  revert p out. induction n as [|n IH]; intros p out Hrun Hq; [done|].
  destruct (buildEuiContextMenuPanels_elem _ _ _ _ _ _ _ Hrun Hq)
    as [->|(a & child & sub & Hin & Hsub & Hqsub)].
  { exists p. split_and!; [done|apply rtc_refl|by left]. }
  destruct (IH _ _ Hsub Hqsub) as (p' & -> & Hreach & Hfrom).
  exists p'. split_and!; [done| |].
  - eapply rtc_l; [|done]. by eapply visibleChildActions_edge.
  - right. destruct Hfrom as [->|?]; [|done].
    apply visibleChildActions_elem in Hin as (? & ? & ? & ?). by exists a.
Qed.

Lemma reachable_is_projected n p actions e c out j :
  buildEuiContextMenuPanels n p actions e c = Some out →
  rtc (childEdge actions e c) (panel_id p) j →
  j ∈ eui_id <$> out.
Proof.
  revert p out. induction n as [|n IH]; intros p out Hrun Hreach; [done|].
  rewrite buildEuiContextMenuPanels_S in Hrun.
  apply bind_Some in Hrun as (subs & Hsubs & [= <-]).
  rewrite fmap_cons, elem_of_cons.
  apply rtc_inv in Hreach as [<-|(k & Hedge & Hreach)]; [by left|].
  apply edge_visibleChildActions in Hedge as (a & child & Hin & <-).
  apply mapM_Some in Hsubs.
  destruct (Forall2_elem_of_l _ _ _ _ Hsubs Hin) as (sub & Hsub & Hrun).
  right. apply list_elem_of_fmap.
  pose proof (IH _ _ Hrun Hreach) as (q & -> & Hq)%list_elem_of_fmap.
  exists q. split; [done|]. apply elem_of_concat. by exists sub.
Qed.

(** X1. Whatever the nesting, every panel of the result lists the visible
    actions registered for its own id and nothing else: its items are the
    descriptors of the actions of the list whose [parentPanelId] is the
    panel's id and whose [isVisible] returns true, in the order of the action
    list. The descriptor of an action carries its display name, its icon, the
    id of its child panel when it declares one, its click handler, what
    [isDisabled] returns, and the test subject made of its id. An action that
    is disabled but visible is listed. *)
Theorem every_panel_lists_its_visible_actions n p actions e c out (q : EuiPanel) :
  buildEuiContextMenuPanels n p actions e c = Some out →
  q ∈ out →
  eui_items q =
    (λ a, {| item_name := displayName a;
             item_icon := icon a;
             item_panel := panel_id <$> childContextMenuPanel a;
             item_onClick := action_id a;
             item_disabled := isDisabled a e c;
             data_test_subj := "dashboardPanelAction-" +:+ action_id a |}) <$>
      filter (λ a, parentPanelId a = eui_id q ∧ isVisible a e c = true) actions.
Proof.
  intros Hrun Hq.
  destruct (projected_panel _ _ _ _ _ _ _ Hrun Hq) as (p' & -> & _).
  simpl. unfold getActionsForPanel. rewrite list_filter_filter.
  f_equal. apply list_filter_iff. intros a. tauto.
Qed.

(** X2. A panel for which no visible action is registered (an empty action
    list, only actions of other panels, or only hidden ones) projects to
    itself alone, with no items; one level of calls is enough. *)
Theorem no_visible_action_single_panel n p actions e c :
  (∀ a, a ∈ actions → parentPanelId a = panel_id p → isVisible a e c = false) →
  buildEuiContextMenuPanels (S n) p actions e c =
    Some [ {| eui_id := panel_id p; eui_title := panel_title p; eui_items := [];
              eui_content := getContent p e c |} ].
Proof.
  intros Hnone.
  assert (filter (λ a, isVisible a e c = true) (getActionsForPanel (panel_id p) actions) = [])
    as Hitems.
  { destruct (filter _ _) as [|a rest] eqn:Hf; [done|].
    assert (a ∈ filter (λ a, isVisible a e c = true)
                  (getActionsForPanel (panel_id p) actions)) as Hin by (rewrite Hf; left).
    apply list_elem_of_filter in Hin as [Hvis Hin].
    apply list_elem_of_filter in Hin as [Hpar Hin].
    by rewrite (Hnone a Hin Hpar) in Hvis. }
  assert (visibleChildActions (panel_id p) actions e c = []) as Hchildren.
  { destruct (visibleChildActions _ _ _ _) as [|[a child] rest] eqn:Hv; [done|].
    assert ((a, child) ∈ visibleChildActions (panel_id p) actions e c) as Hin
      by (rewrite Hv; left).
    apply visibleChildActions_elem in Hin as (Hin & Hpar & Hvis & _).
    by rewrite (Hnone a Hin Hpar) in Hvis. }
  rewrite buildEuiContextMenuPanels_S, Hchildren. simpl.
  unfold ownPanel. by rewrite Hitems.
Qed.

(** X3. No item of the result points nowhere: when an item names a panel to
    open, a panel with that id is in the result. *)
Theorem item_links_resolve n p actions e c out (q : EuiPanel) (it : EuiItem) j :
  buildEuiContextMenuPanels n p actions e c = Some out →
  q ∈ out → it ∈ eui_items q → item_panel it = Some j →
  ∃ q', q' ∈ out ∧ eui_id q' = j.
Proof.
  intros Hrun Hq Hit Hlink.
  destruct (projected_panel _ _ _ _ _ _ _ Hrun Hq) as (p' & -> & Hreach & _).
  simpl in Hit. apply list_elem_of_fmap in Hit as (a & -> & Ha).
  apply list_elem_of_filter in Ha as [Hvis Ha].
  apply list_elem_of_filter in Ha as [Hpar Ha].
  simpl in Hlink. destruct (childContextMenuPanel a) as [child|] eqn:Hchild; simplify_eq/=.
  assert (panel_id child ∈ eui_id <$> out) as (q' & ? & ?)%list_elem_of_fmap.
  { apply (reachable_is_projected _ _ _ _ _ _ _ Hrun).
    eapply rtc_r; [done|]. by exists a, child. }
  by exists q'.
Qed.

(** X4. The ids of the panels in the result are the ids reached from the root
    panel through visible actions that declare a child panel, no more and no
    fewer. *)
Theorem projected_ids_are_the_reachable_ids n p actions e c out j :
  buildEuiContextMenuPanels n p actions e c = Some out →
  j ∈ eui_id <$> out ↔ rtc (childEdge actions e c) (panel_id p) j.
Proof.
  intros Hrun. split.
  - intros (q & -> & Hq)%list_elem_of_fmap.
    by destruct (projected_panel _ _ _ _ _ _ _ Hrun Hq) as (p' & -> & Hreach & _).
  - exact (reachable_is_projected _ _ _ _ _ _ _ Hrun).
Qed.

(** X5. A panel of the result takes its id, title and content from the root
    panel or from the child panel declared by a visible action of the list;
    the builder makes up no panel. *)
Theorem every_panel_is_the_root_or_a_visible_child n p actions e c out (q : EuiPanel) :
  buildEuiContextMenuPanels n p actions e c = Some out →
  q ∈ out →
  ∃ p', eui_id q = panel_id p' ∧ eui_title q = panel_title p' ∧
        eui_content q = getContent p' e c ∧
        (p' = p ∨ ∃ a, a ∈ actions ∧ isVisible a e c = true ∧
                       childContextMenuPanel a = Some p').
Proof.
  intros Hrun Hq.
  destruct (projected_panel _ _ _ _ _ _ _ Hrun Hq) as (p' & -> & _ & Hfrom).
  by exists p'.
Qed.

(** X6. An action registered for a panel that the root does not lead to
    contributes nothing: the result is that of the list without it. *)
Theorem action_of_unreached_panel_contributes_nothing n p l1 a l2 e c :
  ¬ rtc (childEdge (l1 ++ l2) e c) (panel_id p) (parentPanelId a) →
  buildEuiContextMenuPanels n p (l1 ++ a :: l2) e c =
  buildEuiContextMenuPanels n p (l1 ++ l2) e c.
Proof.
  revert p. induction n as [|n IH]; intros p Hfar; [done|].
  assert (parentPanelId a ≠ panel_id p) as Hpar.
  { intros Heq. apply Hfar. rewrite Heq. apply rtc_refl. }
  assert (getActionsForPanel (panel_id p) (l1 ++ a :: l2) =
          getActionsForPanel (panel_id p) (l1 ++ l2)) as Hsame.
  { rewrite !getActionsForPanel_app. f_equal.
    unfold getActionsForPanel. by rewrite filter_cons_False. }
  rewrite !buildEuiContextMenuPanels_S.
  unfold ownPanel. rewrite !visibleChildActions_eq, Hsame.
  erewrite mapM_ext_in; [reflexivity|].
  intros [a' child] Hin. simpl. apply IH. intros Hreach. apply Hfar.
  eapply rtc_l; [|done].
  eapply visibleChildActions_edge. rewrite visibleChildActions_eq. done.
Qed.

End MenuShape.

(** *** On the sample menu *)

(** X1 on the two panels of the sample menu in edit mode: the main menu
    lists [customizePanel] and [togglePanel], the child panel [resetTitle]. *)
Lemma every_panel_lists_its_visible_actions_witness :
  eui_items (ownPanel mainMenu sampleActions None "edit") =
    [ {| item_name := "customizePanel"; item_icon := "gear";
         item_panel := Some "customizeTitle"; item_onClick := "customizePanel";
         item_disabled := false;
         data_test_subj := "dashboardPanelAction-customizePanel" |};
      {| item_name := "togglePanel"; item_icon := "gear";
         item_panel := None; item_onClick := "togglePanel";
         item_disabled := false;
         data_test_subj := "dashboardPanelAction-togglePanel" |} ] ∧
  eui_items (ownPanel customizeTitle sampleActions None "edit") =
    [ {| item_name := "resetTitle"; item_icon := "gear";
         item_panel := None; item_onClick := "resetTitle";
         item_disabled := false;
         data_test_subj := "dashboardPanelAction-resetTitle" |} ].
Proof.
  split.
  - etrans.
    + eapply (every_panel_lists_its_visible_actions 3 mainMenu sampleActions None "edit").
      * vm_compute; reflexivity.
      * left.
    + vm_compute; reflexivity.
  - etrans.
    + eapply (every_panel_lists_its_visible_actions 3 mainMenu sampleActions None "edit").
      * vm_compute; reflexivity.
      * right; left.
    + vm_compute; reflexivity.
Defined.

(** X2: in view mode the main menu is left with no visible action of its
    own. *)
Lemma no_visible_action_single_panel_witness :
  buildEuiContextMenuPanels 1 mainMenu [customizePanel; resetTitle] None "view" =
    Some [ {| eui_id := "mainMenu"; eui_title := "Options"; eui_items := [];
              eui_content := "" |} ].
Proof.
  apply (no_visible_action_single_panel 0 mainMenu [customizePanel; resetTitle] None "view").
  intros a Hin Hpar. rewrite !elem_of_cons, elem_of_nil in Hin.
  destruct Hin as [->|[->|[]]]; [reflexivity|discriminate Hpar].
Defined.

(** X3: the item of [customizePanel] opens [customizeTitle], which is in the
    result. *)
Lemma item_links_resolve_witness :
  ∃ q', q' ∈ [ownPanel mainMenu sampleActions None "edit";
              ownPanel customizeTitle sampleActions None "edit"] ∧
        eui_id q' = "customizeTitle".
Proof.
  apply (item_links_resolve 3 mainMenu sampleActions None "edit" _
           (ownPanel mainMenu sampleActions None "edit")
           (convertPanelActionToContextMenuItem customizePanel "edit" None)).
  - vm_compute; reflexivity.
  - left.
  - left.
  - reflexivity.
Defined.

(** X4 on the sample menu in edit mode. *)
Lemma projected_ids_are_the_reachable_ids_witness :
  "customizeTitle" ∈ eui_id <$> [ownPanel mainMenu sampleActions None "edit";
                                 ownPanel customizeTitle sampleActions None "edit"] ↔
  rtc (childEdge sampleActions None "edit") (panel_id mainMenu) "customizeTitle".
Proof.
  apply (projected_ids_are_the_reachable_ids 3 mainMenu sampleActions None "edit").
  vm_compute; reflexivity.
Defined.

(** X5 on the child panel of the sample menu. *)
Lemma every_panel_is_the_root_or_a_visible_child_witness :
  ∃ p', eui_id (ownPanel customizeTitle sampleActions None "edit") = panel_id p' ∧
        eui_title (ownPanel customizeTitle sampleActions None "edit") = panel_title p' ∧
        eui_content (ownPanel customizeTitle sampleActions None "edit")
          = getContent p' None "edit" ∧
        (p' = mainMenu ∨ ∃ a, a ∈ sampleActions ∧ isVisible a None "edit" = true ∧
                              childContextMenuPanel a = Some p').
Proof.
  eapply (every_panel_is_the_root_or_a_visible_child 3 mainMenu sampleActions None "edit").
  - vm_compute; reflexivity.
  - right; left.
Defined.

(** X6: in view mode nothing leads to [customizeTitle], so [resetTitle] can
    be left out. *)
Lemma action_of_unreached_panel_contributes_nothing_witness :
  buildEuiContextMenuPanels 3 mainMenu ([customizePanel; togglePanel] ++ resetTitle :: [])
    None "view" =
  buildEuiContextMenuPanels 3 mainMenu ([customizePanel; togglePanel] ++ []) None "view".
Proof.
  apply (action_of_unreached_panel_contributes_nothing 3 mainMenu
           [customizePanel; togglePanel] resetTitle [] None "view").
  intros [Heq|(k & Hedge & _)]%rtc_inv; [discriminate Heq|].
  destruct Hedge as (a & child & Hin & Hpar & Hvis & Hchild & Hid).
  simpl in Hin. rewrite !elem_of_cons, elem_of_nil in Hin.
  destruct Hin as [->|[->|[]]]; discriminate.
Defined.

(** ** 5. The settings client: reads, updates, observers *)

(** Reduces the field projections of a client written with the setters. *)
Ltac client_fields :=
  cbn [fst snd _defaults _cache _api _updateObservers inherited_userValue batchSet_calls
       observer_calls notify_errors with_defaults with_cache with_observers
       with_inherited_userValue with_batchSet_calls with_observer_calls with_notify_errors
       newClient] in *.

Section ClientUpdates.

Context `{Builtins}.

Implicit Types (this : UiSettingsClient) (key : string) (v : value).
Implicit Types (e : gmap string value).

Lemma strict_eq_str (t : value) (s : string) : strict_eq t (VStr s) = false ↔ t ≠ VStr s.
Proof.
  destruct t; simpl; try (split; [discriminate|done]).
  rewrite bool_decide_eq_false. split; congruence.
Qed.

(** [_setLocally] on a key that is not declared: the entry is created
    empty, the value read back is [undefined]. *)
Lemma _setLocally_undeclared this key newValue :
  isDeclared this key = false →
  _setLocally key newValue this =
    (Ok tt,
     with_observer_calls
       (observer_calls this ++ broadcast (_updateObservers this) key newValue VUndefined)
       (with_cache (<[key := storeUserValue ∅ newValue]> (<[key := ∅]> (_cache this))) this)).
Proof.
  intros Hdecl.
  unfold _setLocally, _broadcastUpdate, bind, assertUpdateAllowed, read, ret, modify, lift.
  unfold isOverridden. rewrite Hdecl. cbn [andb]. cbv beta iota.
  rewrite Hdecl. cbv beta iota.
  rewrite (get_declared (with_cache (<[key:=∅]> (_cache this)) this) key ∅)
    by (client_fields; apply lookup_insert_eq).
  rewrite effectiveValue_plain by (by rewrite field_empty).
  rewrite !field_empty. cbn [is_nullish].
  rewrite (store_cached_own _ _ ∅) by (client_fields; apply lookup_insert_eq).
  client_fields. by rewrite cached_insert.
Qed.

(** *** Reading *)

(** X7. On a key whose type is neither [json] nor [number], [get] with a
    fallback other than [undefined] returns the stored user value when there
    is one, and the fallback otherwise: the fallback goes before the declared
    default, on a declared key as on an unknown one. *)
Theorem get_prefers_user_value_then_fallback this key fallback :
  field (cached this key) "type" ≠ VStr "json" →
  field (cached this key) "type" ≠ VStr "number" →
  fallback ≠ VUndefined →
  get this key fallback =
    Ok (if isDefault this key then fallback else field (cached this key) "userValue").
Proof.
  intros Hjson%strict_eq_str Hnum%strict_eq_str Hfb%strict_eq_undefined.
  unfold get. rewrite Hjson, Hnum, Hfb.
  unfold isDefault. by destruct (isDeclared this key).
Qed.

(** X8. What [_setLocally] stores is what [get] returns next: on a key that
    the server does not override and whose type is neither [json] nor
    [number], declared or not, [_setLocally] returns, the key is declared
    afterwards, [get] returns the new value (the declared default when the new
    value is [null] or [undefined]), and no other key is touched. *)
Theorem setLocally_then_get this key v :
  isOverridden this key = false →
  field (cached this key) "type" ≠ VStr "json" →
  field (cached this key) "type" ≠ VStr "number" →
  ∃ this',
    _setLocally key v this = (Ok tt, this') ∧
    isDeclared this' key = true ∧
    get this' key VUndefined =
      Ok (if is_nullish v then field (cached this key) "value" else v) ∧
    isDefault this' key = is_nullish v ∧
    (∀ k, k ≠ key → _cache this' !! k = _cache this !! k).
Proof.
  intros Hov Hjson%strict_eq_str Hnum%strict_eq_str.
  assert (∃ this',
    _setLocally key v this = (Ok tt, this') ∧
    isDeclared this' key = true ∧
    cached this' key = storeUserValue (cached this key) v ∧
    (∀ k, k ≠ key → _cache this' !! k = _cache this !! k))
    as (this' & Hrun & Hdecl' & He & Hothers).
  { destruct (isDeclared this key) eqn:Hdecl.
    - rewrite (isOverridden_of_declared _ _ Hdecl) in Hov.
      eexists. split; [|split_and!].
      + eapply _setLocally_of_declared; [done|done|]. by apply effectiveValue_plain.
      + change (isDeclared (with_observer_calls ?l ?s) key) with (isDeclared s key).
        by rewrite isDeclared_store_cached.
      + change (cached (with_observer_calls ?l ?s) key) with (cached s key).
        by apply cached_store_cached_userValue.
      + intros k Hk. client_fields. by apply cache_store_cached_ne.
    - destruct (isDeclared_false _ _ Hdecl) as (Hnone & Hce). rewrite Hce in *.
      eexists. split; [|split_and!].
      + by apply _setLocally_undeclared.
      + eapply isDeclared_Some. client_fields. apply lookup_insert_eq.
      + apply cached_Some. client_fields. apply lookup_insert_eq.
      + intros k Hk. client_fields. by rewrite !lookup_insert_ne. }
  exists this'. split_and!; [done|done| | |done].
  - rewrite (get_of_declared _ _ Hdecl'), He.
    rewrite effectiveValue_plain by (by rewrite storeUserValue_field).
    rewrite storeUserValue_userValue_plain, storeUserValue_field by done.
    by destruct v.
  - rewrite isDefault_nullish, He.
    rewrite storeUserValue_userValue_plain by done. by destruct v.
Qed.

Lemma storeUserValue_userValue_json e v :
  strict_eq (field e "type") (VStr "json") = true →
  strict_eq v VNull = false →
  field (storeUserValue e v) "userValue" = if not_string v then JSON_stringify v else v.
Proof.
  intros Hjson Hnull. unfold storeUserValue. rewrite Hjson, Hnull. simpl.
  destruct (not_string v); unfold field; by rewrite lookup_insert_eq.
Qed.

(** X21. On a declared key that the server does not override and whose
    value can be read, after [_setLocally] with a value other than [null] and
    [undefined]: for a [json] setting [get] returns the parsed text, the text
    being the value itself when it is a string and [JSON.stringify] of it
    otherwise (the parsed default when that is [undefined]); for a [number]
    setting [get] returns [parseFloat] of the value. *)
Theorem typed_value_is_converted_on_read this key v old :
  isDeclared this key = true →
  isOverridden this key = false →
  get this key VUndefined = Ok old →
  is_nullish v = false →
  ∃ this',
    _setLocally key v this = (Ok tt, this') ∧
    (field (cached this key) "type" = VStr "json" →
     get this' key VUndefined =
       if not_string v
       then (if is_nullish (JSON_stringify v)
             then JSON_parse (field (cached this key) "value")
             else JSON_parse (JSON_stringify v))
       else JSON_parse v) ∧
    (field (cached this key) "type" = VStr "number" →
     get this' key VUndefined = Ok (parseFloat v)).
Proof.
  intros Hdecl Hov Hold Hv.
  rewrite (isOverridden_of_declared _ _ Hdecl) in Hov.
  rewrite (get_of_declared _ _ Hdecl) in Hold.
  eexists. split; [by apply (_setLocally_of_declared _ _ _ _ Hdecl Hov Hold)|].
  set (this' := with_observer_calls _ _).
  assert (isDeclared this' key = true) as Hdecl'.
  { subst this'. change (isDeclared (with_observer_calls ?l ?s) key) with (isDeclared s key).
    by rewrite isDeclared_store_cached. }
  assert (cached this' key = storeUserValue (cached this key) v) as He'.
  { subst this'. change (cached (with_observer_calls ?l ?s) key) with (cached s key).
    by apply cached_store_cached_userValue. }
  set (e := cached this key) in *.
  assert (strict_eq v VNull = false) as Hnull by (by destruct v).
  rewrite (get_of_declared _ _ Hdecl'), He'. unfold effectiveValue.
  rewrite !(storeUserValue_field _ _ "type"), !(storeUserValue_field _ _ "value") by done.
  split.
  - intros Hty. rewrite Hty. cbn [strict_eq]. rewrite bool_decide_eq_true_2 by done.
    rewrite storeUserValue_userValue_json by (by rewrite ?Hty).
    destruct (not_string v); [by destruct (is_nullish (JSON_stringify v))|by rewrite Hv].
  - intros Hty. rewrite Hty. cbn [strict_eq].
    rewrite bool_decide_eq_false_2 by discriminate. rewrite bool_decide_eq_true_2 by done.
    rewrite storeUserValue_userValue_plain by (by rewrite Hty).
    by rewrite Hnull, Hv.
Qed.

(** X9. After [overrideLocalDefault], on a key whose type is neither [json]
    nor [number], [get] returns the new default when no user value is stored
    and the user value otherwise; the key need not have been declared, and a
    key the server overrides is not refused. *)
Theorem overrideLocalDefault_then_get this key newDefault :
  field (cached this key) "type" ≠ VStr "json" →
  field (cached this key) "type" ≠ VStr "number" →
  get (overrideLocalDefault key newDefault this).2 key VUndefined =
    Ok (if isDefault this key then newDefault else field (cached this key) "userValue").
Proof.
  intros Hjson%strict_eq_str Hnum%strict_eq_str.
  set (entry := <["value" := newDefault]> (cached this key)).
  assert (_cache (overrideLocalDefault key newDefault this).2 !! key = Some entry) as He.
  { unfold overrideLocalDefault, _broadcastUpdate, bind, read, modify, ret. client_fields.
    destruct (is_nullish _); client_fields; apply lookup_insert_eq. }
  rewrite (get_declared _ _ _ He), isDefault_nullish.
  assert (∀ f, f ≠ "value" → field entry f = field (cached this key) f) as Hother.
  { intros f Hf. unfold entry, field. by rewrite lookup_insert_ne. }
  rewrite effectiveValue_plain by (by rewrite Hother).
  rewrite Hother by done. destruct (is_nullish _); [|done].
  unfold entry, field. by rewrite lookup_insert_eq.
Qed.

(** *** One update *)

(** [_update] uses its argument through the value it stores only. *)
Lemma newValOf_update key v1 v2 this :
  newValOf (_defaults this) key v1 = newValOf (_defaults this) key v2 →
  _updateBody key v1 this = _updateBody key v2 this.
Proof.
  intros Heq. unfold _updateBody, bind, read, assertUpdateAllowed.
  destruct (isOverridden this key); [done|]. by rewrite Heq.
Qed.

(** X10. For a key of the defaults table whose entry has no [defaultValue]
    field, [set(key, undefined)] is [remove(key)]: the comparison with the
    absent field turns [undefined] into [null]. *)
Theorem set_undefined_is_remove this key d :
  _defaults this !! key = Some d →
  field d "defaultValue" = VUndefined →
  set key VUndefined this = remove key this.
Proof.
  intros Hd Hfield. rewrite set_eq, remove_eq. unfold async.
  rewrite (newValOf_update key VUndefined VNull); [done|].
  unfold newValOf. rewrite (has_key_own _ _ _ Hd), Hd. simpl. by rewrite Hfield.
Qed.

Lemma broadcast_about observers key nv ov :
  Forall (λ call : nat * UpdateEvent, call.1 ∈ observers ∧ ev_key call.2 = key)
         (broadcast observers key nv ov).
Proof.
  unfold broadcast. apply Forall_fmap, Forall_forall. by intros o Ho.
Qed.

Lemma touchesOnly_refl key this : touchesOnly key this this.
Proof.
  split_and!; try done. exists []. by rewrite app_nil_r.
Qed.

Lemma touchesOnly_trans key this1 this2 this3 :
  touchesOnly key this1 this2 → touchesOnly key this2 this3 → touchesOnly key this1 this3.
Proof.
  intros (Hd1 & Ha1 & Ho1 & ev1 & He1 & Hf1) (Hd2 & Ha2 & Ho2 & ev2 & He2 & Hf2).
  split_and!; try congruence.
  - exists (ev1 ++ ev2). split; [by rewrite He2, He1, app_assoc|].
    apply Forall_app. split; [done|]. by rewrite Ho1 in Hf2.
Qed.

Lemma _setLocally_touchesOnly key v this :
  touchesOnly key this (_setLocally key v this).2 ∧
  (∀ k, k ≠ key → _cache (_setLocally key v this).2 !! k = _cache this !! k) ∧
  batchSet_calls (_setLocally key v this).2 = batchSet_calls this ∧
  notify_errors (_setLocally key v this).2 = notify_errors this.
Proof.
  unfold _setLocally, _broadcastUpdate, bind, assertUpdateAllowed, read, ret, modify, lift,
    store_cached.
  destruct (isOverridden this key); [by split; [apply touchesOnly_refl|]|].
  destruct (isDeclared this key); client_fields.
  - destruct (get this key VUndefined); client_fields; [|by split; [apply touchesOnly_refl|]].
    split_and!; client_fields; try done.
    + split_and!; client_fields; try done. eexists. split; [done|]. apply broadcast_about.
    + intros k Hk. destruct (bool_decide _); by rewrite ?lookup_insert_ne by done.
  - destruct (get _ key VUndefined); client_fields.
    + split_and!; client_fields; try done.
      * split_and!; client_fields; try done. eexists. split; [done|]. apply broadcast_about.
      * intros k Hk. destruct (bool_decide _); by rewrite ?lookup_insert_ne by done.
    + split_and!; client_fields; try done.
      * split_and!; client_fields; try done. exists []. by rewrite app_nil_r.
      * intros k Hk. by rewrite !lookup_insert_ne.
Qed.

Lemma _updateBody_touches_one_key this key v :
  ∃ r this',
    _updateBody key v this = (r, this') ∧
    _defaults this' = _defaults this ∧
    _api this' = _api this ∧
    _updateObservers this' = _updateObservers this ∧
    (batchSet_calls this' = batchSet_calls this ∨
     batchSet_calls this' = batchSet_calls this ++ [(key, newValOf (_defaults this) key v)]) ∧
    (notify_errors this' = notify_errors this ∨
     r = Ok false ∧ ∃ reason, notify_errors this' = notify_errors this ++ [reason]) ∧
    (∃ events,
       observer_calls this' = observer_calls this ++ events ∧
       Forall (λ call : nat * UpdateEvent,
                 call.1 ∈ _updateObservers this ∧ ev_key call.2 = key) events) ∧
    (r ≠ Ok true → ∀ k, k ≠ key → _cache this' !! k = _cache this !! k).
Proof.
  destruct (_updateBody key v this) as [r this'] eqn:Hrun. exists r, this'. split; [done|].
  revert Hrun. unfold _updateBody.
  unfold bind at 1, assertUpdateAllowed.
  destruct (isOverridden this key).
  { intros [= <- <-]. split_and!; auto. exists []. by rewrite app_nil_r. }
  unfold bind at 1, read at 1. unfold bind at 1, read at 1. unfold bind at 1, read at 1.
  set (newVal := newValOf (_defaults this) key v).
  destruct (strict_eq _ newVal).
  { intros [= <- <-]. split_and!; auto. exists []. by rewrite app_nil_r. }
  assert (∀ initialVal,
    bind (_setLocally key newVal) (λ _,
      bind (modify (λ this0, with_batchSet_calls (batchSet_calls this0 ++ [(key, newVal)]) this0))
        (λ _, bind (read (λ this0, _api this0 key newVal)) (λ answer,
           match answer with
           | Resolves settings =>
               bind (modify (with_cache (defaultsDeep [_defaults this; settings])))
                 (λ _, ret true)
           | Rejects reason =>
               bind (_setLocally key initialVal) (λ _,
                 bind (modify (λ this0,
                         with_notify_errors (notify_errors this0 ++ [reason]) this0))
                   (λ _, ret false))
           end))) this = (r, this') →
    _defaults this' = _defaults this ∧
    _api this' = _api this ∧
    _updateObservers this' = _updateObservers this ∧
    (batchSet_calls this' = batchSet_calls this ∨
     batchSet_calls this' = batchSet_calls this ++ [(key, newVal)]) ∧
    (notify_errors this' = notify_errors this ∨
     r = Ok false ∧ ∃ reason, notify_errors this' = notify_errors this ++ [reason]) ∧
    (∃ events,
       observer_calls this' = observer_calls this ++ events ∧
       Forall (λ call : nat * UpdateEvent,
                 call.1 ∈ _updateObservers this ∧ ev_key call.2 = key) events) ∧
    (r ≠ Ok true → ∀ k, k ≠ key → _cache this' !! k = _cache this !! k)) as Hrest.
  { intros initialVal. unfold bind at 1.
    pose proof (_setLocally_touchesOnly key newVal this) as (Ht1 & Hc1 & Hb1 & Hn1).
    destruct (_setLocally key newVal this) as [[[]|err] this1]; client_fields.
    2:{ intros [= <- <-]. destruct Ht1 as (? & ? & ? & ?). split_and!; auto. }
    unfold bind at 1, modify at 1. unfold bind at 1, read at 1. client_fields.
    destruct (_api this1 key newVal) as [settings|reason].
    - unfold bind, modify, ret. intros [= <- <-]. client_fields.
      destruct Ht1 as (? & ? & ? & ?). split_and!; auto.
      + right. by rewrite Hb1.
      + by intros [].
    - unfold bind at 1.
      match goal with |- context [_setLocally key initialVal ?t] =>
        pose proof (_setLocally_touchesOnly key initialVal t) as (Ht2 & Hc2 & Hb2 & Hn2);
        destruct (_setLocally key initialVal t) as [[[]|err] this2] end; client_fields.
      + unfold bind, modify, ret. intros [= <- <-]. client_fields.
        assert (touchesOnly key this this2) as (? & ? & ? & ?).
        { eapply touchesOnly_trans; [exact Ht1|].
          destruct Ht2 as (? & ? & ? & ?). split_and!; auto. }
        split_and!; auto.
        * right. by rewrite Hb2, Hb1.
        * right. split; [done|]. exists reason. by rewrite Hn2, Hn1.
        * intros _ k Hk. by rewrite Hc2, Hc1.
      + intros [= <- <-].
        assert (touchesOnly key this this2) as (? & ? & ? & ?).
        { eapply touchesOnly_trans; [exact Ht1|].
          destruct Ht2 as (? & ? & ? & ?). split_and!; auto. }
        split_and!; auto.
        * right. by rewrite Hb2, Hb1.
        * left. by rewrite Hn2, Hn1.
        * intros _ k Hk. by rewrite Hc2, Hc1. }
  destruct (isDeclared this key).
  - unfold bind at 1, lift.
    destruct (get this key VUndefined) as [initialVal|err].
    + apply Hrest.
    + intros [= <- <-]. split_and!; auto. exists []. by rewrite app_nil_r.
  - unfold bind at 1, ret at 1. apply Hrest.
Qed.

(** X11. What one [set] can do, however it ends: the call returns a
    promise; the defaults, the API and the observers stay as they are; at most
    one request is sent, for this key and the value to store; at most one
    error is reported, and then the promise resolves to [false]; the observers
    hear about this key only; and unless the promise resolves to [true], the
    cached entries of all other keys are left alone. *)
Theorem set_touches_one_key this key v :
  ∃ p this',
    set key v this = (Ok p, this') ∧
    _defaults this' = _defaults this ∧
    _api this' = _api this ∧
    _updateObservers this' = _updateObservers this ∧
    (batchSet_calls this' = batchSet_calls this ∨
     batchSet_calls this' = batchSet_calls this ++ [(key, newValOf (_defaults this) key v)]) ∧
    (notify_errors this' = notify_errors this ∨
     p = Fulfilled false ∧ ∃ reason, notify_errors this' = notify_errors this ++ [reason]) ∧
    (∃ events,
       observer_calls this' = observer_calls this ++ events ∧
       Forall (λ call : nat * UpdateEvent,
                 call.1 ∈ _updateObservers this ∧ ev_key call.2 = key) events) ∧
    (p ≠ Fulfilled true → ∀ k, k ≠ key → _cache this' !! k = _cache this !! k).
Proof.
  destruct (_updateBody_touches_one_key this key v)
    as (r & this' & Hrun & Hd & Ha & Ho & Hb & Hn & He & Hc).
  destruct r as [b|err].
  - exists (Fulfilled b), this'. split; [by apply set_Ok|].
    split_and!; try done.
    + destruct Hn as [?|[[= ->] ?]]; [by left|by right].
    + intros Hp. apply Hc. by intros [= ->].
  - exists (Rejected err), this'. split; [by apply set_Throw|].
    split_and!; try done.
    + destruct Hn as [?|[? ?]]; [by left|done].
    + intros _. by apply Hc.
Qed.

(** *** When the server answers *)

(** An accepted update of a declared key, in full. *)
Lemma set_resolved this key v initialVal settings :
  isDeclared this key = true →
  isOverridden this key = false →
  strict_eq (field (cached this key) "userValue") (newValOf (_defaults this) key v) = false →
  get this key VUndefined = Ok initialVal →
  _api this key (newValOf (_defaults this) key v) = Resolves settings →
  set key v this =
    (Ok (Fulfilled true),
     with_cache (defaultsDeep [_defaults this; settings])
       (with_batchSet_calls (batchSet_calls this ++ [(key, newValOf (_defaults this) key v)])
          (with_observer_calls
             (observer_calls this ++
                broadcast (_updateObservers this) key (newValOf (_defaults this) key v) initialVal)
             (store_cached key
                (storeUserValue (cached this key) (newValOf (_defaults this) key v)) this)))).
Proof.
  intros Hdecl Hov Hch Hiv Hapi.
  rewrite (isOverridden_of_declared _ _ Hdecl) in Hov.
  rewrite (get_of_declared _ _ Hdecl) in Hiv.
  apply set_Ok.
  rewrite (_updateBody_start _ _ _ Hdecl Hov Hch).
  unfold bind at 1, lift. rewrite (get_of_declared _ _ Hdecl), Hiv.
  unfold bind at 1. rewrite (_setLocally_of_declared _ _ _ _ Hdecl Hov Hiv).
  unfold bind at 1, modify at 1. unfold bind at 1, read at 1.
  change (_api (with_batchSet_calls ?l (with_observer_calls ?c (store_cached ?k ?e this))))
    with (_api this).
  rewrite Hapi. reflexivity.
Qed.

(** X12. An update that changes a declared key and that the server accepts
    resolves to [true]; the cache is then the defaults filled with the
    settings of the answer (the value stored locally meanwhile is not kept),
    one request has been sent, every observer has been called once, with the
    value to store and the value [get] returned before, and no error is
    reported. *)
Theorem resolved_update_refreshes_from_server this key v initialVal settings :
  isDeclared this key = true →
  isOverridden this key = false →
  strict_eq (field (cached this key) "userValue") (newValOf (_defaults this) key v) = false →
  get this key VUndefined = Ok initialVal →
  _api this key (newValOf (_defaults this) key v) = Resolves settings →
  ∃ this',
    set key v this = (Ok (Fulfilled true), this') ∧
    _cache this' = defaultsDeep [_defaults this; settings] ∧
    batchSet_calls this' = batchSet_calls this ++ [(key, newValOf (_defaults this) key v)] ∧
    observer_calls this' =
      observer_calls this ++
        broadcast (_updateObservers this) key (newValOf (_defaults this) key v) initialVal ∧
    notify_errors this' = notify_errors this.
Proof.
  intros Hdecl Hov Hch Hiv Hapi.
  eexists. split; [by apply (set_resolved _ _ _ _ _ Hdecl Hov Hch Hiv Hapi)|].
  by client_fields.
Qed.

Lemma lookup_defaultsDeep (d s : gmap string (gmap string value)) k :
  defaultsDeep [d; s] !! k =
    match d !! k, s !! k with
    | Some a, Some b => Some (union_with defaultsField a b)
    | Some a, None => Some a
    | None, o => o
    end.
Proof.
  unfold defaultsDeep. simpl. rewrite !lookup_union_with, lookup_empty. simpl.
  destruct (d !! k), (s !! k); reflexivity.
Qed.

Lemma field_union_with (a b : gmap string value) f :
  field (union_with defaultsField a b) f =
    if strict_eq (field a f) VUndefined then field b f else field a f.
Proof.
  unfold field. rewrite lookup_union_with.
  destruct (a !! f) as [x|], (b !! f) as [y|]; simpl; try done.
  by destruct (strict_eq x VUndefined) eqn:Hx; [destruct x|].
Qed.

(** Every field of the refreshed cache is read from the defaults first,
    then from the settings. *)
Lemma field_defaultsDeep (d s : gmap string (gmap string value)) k f :
  field (default ∅ (defaultsDeep [d; s] !! k)) f =
    if strict_eq (field (default ∅ (d !! k)) f) VUndefined
    then field (default ∅ (s !! k)) f
    else field (default ∅ (d !! k)) f.
Proof.
  rewrite lookup_defaultsDeep.
  destruct (d !! k) as [a|], (s !! k) as [b|]; simpl;
    rewrite ?field_union_with, ?field_empty; try done.
  by destruct (strict_eq (field a f) VUndefined) eqn:Hx; [destruct (field a f)|].
Qed.

(** X13. What [get] returns after an accepted update is decided by the
    answer: the user value the answer carries for the key; the declared
    default when the answer does not list the key; and when the key is
    neither in the answer nor in the defaults, and its name is not one that
    plain objects inherit, it is declared no more, and [get] throws. (The
    defaults entry has no user value and its type is neither [json] nor
    [number].) *)
Theorem get_after_successful_set this key v initialVal settings :
  isDeclared this key = true →
  isOverridden this key = false →
  strict_eq (field (cached this key) "userValue") (newValOf (_defaults this) key v) = false →
  get this key VUndefined = Ok initialVal →
  _api this key (newValOf (_defaults this) key v) = Resolves settings →
  field (default ∅ (_defaults this !! key)) "userValue" = VUndefined →
  field (default ∅ (_defaults this !! key)) "type" ≠ VStr "json" →
  field (default ∅ (_defaults this !! key)) "type" ≠ VStr "number" →
  ∃ this',
    set key v this = (Ok (Fulfilled true), this') ∧
    (∀ u, settings !! key = Some {[ "userValue" := u ]} → is_nullish u = false →
          get this' key VUndefined = Ok u ∧ isDefault this' key = false) ∧
    (settings !! key = None → is_Some (_defaults this !! key) →
          get this' key VUndefined = Ok (field (default ∅ (_defaults this !! key)) "value") ∧
          isDefault this' key = true) ∧
    (settings !! key = None → _defaults this !! key = None →
     Object_prototype_has key = false →
          isDeclared this' key = false ∧
          get this' key VUndefined = Throw (UnrecognizedSettingError key)).
Proof.
  intros Hdecl Hov Hch Hiv Hapi Huser Hjson Hnum.
  eexists. split; [by apply (set_resolved _ _ _ _ _ Hdecl Hov Hch Hiv Hapi)|].
  set (this' := with_cache _ _).
  assert (_cache this' = defaultsDeep [_defaults this; settings]) as Hcache by done.
  assert (∀ e', _cache this' !! key = Some e' → ∀ f, field (cached this' key) f =
            if strict_eq (field (default ∅ (_defaults this !! key)) f) VUndefined
            then field (default ∅ (settings !! key)) f
            else field (default ∅ (_defaults this !! key)) f) as Hfield.
  { intros e' He' f. rewrite (cached_Some _ _ _ He').
    rewrite <-field_defaultsDeep, <-Hcache. by rewrite He'. }
  split_and!.
  - intros u Hs Hu.
    assert (is_Some (_cache this' !! key)) as [e' He'].
    { rewrite Hcache, lookup_defaultsDeep, Hs. destruct (_defaults this !! key); by eexists. }
    specialize (Hfield e' He').
    assert (field (cached this' key) "userValue" = u) as Hu'.
    { rewrite Hfield, Huser, Hs. simpl. unfold field. by rewrite lookup_singleton_eq. }
    split; [|by rewrite isDefault_nullish, Hu'].
    rewrite (get_declared _ _ _ He'). rewrite <-(cached_Some _ _ _ He').
    rewrite effectiveValue_plain.
    + by rewrite Hu', Hu.
    + apply strict_eq_str. rewrite Hfield, Hs. simpl.
      destruct (strict_eq _ VUndefined); [|done]. unfold field.
      by rewrite lookup_singleton_ne.
    + apply strict_eq_str. rewrite Hfield, Hs. simpl.
      destruct (strict_eq _ VUndefined); [|done]. unfold field.
      by rewrite lookup_singleton_ne.
  - intros Hs [d Hd].
    assert (_cache this' !! key = Some d) as He'.
    { by rewrite Hcache, lookup_defaultsDeep, Hs, Hd. }
    rewrite Hd in Huser, Hjson, Hnum. simpl in Huser, Hjson, Hnum.
    rewrite Hd. simpl.
    split; [|by rewrite isDefault_nullish, (cached_Some _ _ _ He'), Huser].
    rewrite (get_declared _ _ _ He'), effectiveValue_plain by (by apply strict_eq_str).
    by rewrite Huser.
  - intros Hs Hd Hproto.
    assert (isDeclared this' key = false) as Hdecl'.
    { apply has_key_false. by rewrite Hcache, lookup_defaultsDeep, Hs, Hd. }
    split; [done|]. unfold get. by rewrite Hdecl'.
Qed.


(** *** When the request fails *)

(** A rejected update on a key whose type is neither [json] nor [number],
    in full. *)
Lemma _update_rejected_plain this key v initialVal reason :
  isDeclared this key = true →
  isOverridden this key = false →
  field (cached this key) "type" ≠ VStr "json" →
  field (cached this key) "type" ≠ VStr "number" →
  strict_eq (field (cached this key) "userValue") (newValOf (_defaults this) key v) = false →
  get this key VUndefined = Ok initialVal →
  _api this key (newValOf (_defaults this) key v) = Rejects reason →
  ∃ this',
    set key v this = (Ok (Fulfilled false), this') ∧
    get this' key VUndefined = Ok initialVal ∧
    notify_errors this' = notify_errors this ++ [reason] ∧
    batchSet_calls this' = batchSet_calls this ++ [(key, newValOf (_defaults this) key v)] ∧
    observer_calls this' =
      (observer_calls this ++
         broadcast (_updateObservers this) key (newValOf (_defaults this) key v) initialVal) ++
        broadcast (_updateObservers this) key initialVal
          (if is_nullish (newValOf (_defaults this) key v)
           then field (cached this key) "value"
           else newValOf (_defaults this) key v) ∧
    field (cached this' key) "userValue" =
      (if strict_eq initialVal VNull then VUndefined else initialVal).
Proof.
  intros Hdecl Hov Hjson%strict_eq_str Hnum%strict_eq_str Hch Hiv Hapi.
  rewrite (isOverridden_of_declared _ _ Hdecl) in Hov.
  rewrite (get_of_declared _ _ Hdecl) in Hiv.
  set (e := cached this key) in *.
  set (newVal := newValOf (_defaults this) key v) in *.
  assert (effectiveValue (storeUserValue e newVal) =
          Ok (if is_nullish newVal then field e "value" else newVal)) as Hshown.
  { rewrite effectiveValue_plain by (by rewrite storeUserValue_field).
    rewrite storeUserValue_userValue_plain, storeUserValue_field by done.
    by destruct newVal. }
  eexists. split.
  { apply set_Ok. by apply _updateBody_rejected. }
  subst e.
  split_and!; try done.
  - rewrite get_of_declared by (by rewrite isDeclared_afterRejected).
    rewrite cached_afterRejected by done. by apply plain_revert.
  - rewrite cached_afterRejected by done.
    by rewrite storeUserValue_userValue_plain by (by rewrite storeUserValue_field).
Qed.

(** X15. On a declared key whose type is neither [json] nor [number], an
    update the server rejects resolves to [false] and [get] returns what it
    returned before; one request was sent, one error is reported, and every
    observer is called twice: for the change, and for the revert, whose old
    value is the value that had been stored meanwhile. *)
Theorem rejected_update_reverts_plain_key this key v initialVal reason :
  isDeclared this key = true →
  isOverridden this key = false →
  field (cached this key) "type" ≠ VStr "json" →
  field (cached this key) "type" ≠ VStr "number" →
  strict_eq (field (cached this key) "userValue") (newValOf (_defaults this) key v) = false →
  get this key VUndefined = Ok initialVal →
  _api this key (newValOf (_defaults this) key v) = Rejects reason →
  ∃ this',
    set key v this = (Ok (Fulfilled false), this') ∧
    get this' key VUndefined = Ok initialVal ∧
    notify_errors this' = notify_errors this ++ [reason] ∧
    batchSet_calls this' = batchSet_calls this ++ [(key, newValOf (_defaults this) key v)] ∧
    observer_calls this' =
      (observer_calls this ++
         broadcast (_updateObservers this) key (newValOf (_defaults this) key v) initialVal) ++
        broadcast (_updateObservers this) key initialVal
          (if is_nullish (newValOf (_defaults this) key v)
           then field (cached this key) "value"
           else newValOf (_defaults this) key v).
Proof.
  intros Hdecl Hov Hjson Hnum Hch Hiv Hapi.
  destruct (_update_rejected_plain this key v _ reason Hdecl Hov Hjson Hnum Hch Hiv Hapi)
    as (this' & ? & ? & ? & ? & ? & _).
  by exists this'.
Qed.

(** X16. The revert stores what [get] had returned. On a key that had no user
    value and whose default is neither [null] nor [undefined], a rejected
    update therefore leaves the default stored as a user value: [get] returns
    the same, but [isDefault] has turned false. *)
Theorem failed_update_turns_default_into_override this key v reason :
  isDeclared this key = true →
  isOverridden this key = false →
  field (cached this key) "type" ≠ VStr "json" →
  field (cached this key) "type" ≠ VStr "number" →
  isDefault this key = true →
  is_nullish (field (cached this key) "value") = false →
  strict_eq (field (cached this key) "userValue") (newValOf (_defaults this) key v) = false →
  _api this key (newValOf (_defaults this) key v) = Rejects reason →
  ∃ this',
    set key v this = (Ok (Fulfilled false), this') ∧
    field (cached this' key) "userValue" = field (cached this key) "value" ∧
    isDefault this' key = false.
Proof.
  intros Hdecl Hov Hjson Hnum Hdef Hval Hch Hapi.
  assert (get this key VUndefined = Ok (field (cached this key) "value")) as Hget.
  { rewrite (get_of_declared _ _ Hdecl), effectiveValue_plain by (by apply strict_eq_str).
    rewrite isDefault_nullish in Hdef. by rewrite Hdef. }
  destruct (_update_rejected_plain this key v _ reason Hdecl Hov Hjson Hnum Hch Hget Hapi)
    as (this' & Hrun & _ & _ & _ & _ & Huser).
  assert (field (cached this' key) "userValue" = field (cached this key) "value") as Hu.
  { rewrite Huser. by destruct (field (cached this key) "value"). }
  exists this'. split_and!; [done|done|].
  by rewrite isDefault_nullish, Hu.
Qed.

(** X17. [set] on a key that is not declared, with a value other than
    [undefined], sends the request. When the server accepts, the cache is
    refreshed from the answer; when it rejects, the call resolves to [false]
    with one error reported, and the key stays behind as a declared custom
    setting without a value: [get] no longer throws, it returns
    [undefined]. *)
Theorem set_of_unknown_key this key v :
  isDeclared this key = false →
  v ≠ VUndefined →
  (∀ settings,
     _api this key (newValOf (_defaults this) key v) = Resolves settings →
     ∃ this',
       set key v this = (Ok (Fulfilled true), this') ∧
       _cache this' = defaultsDeep [_defaults this; settings] ∧
       batchSet_calls this' = batchSet_calls this ++ [(key, newValOf (_defaults this) key v)]) ∧
  (∀ reason,
     _api this key (newValOf (_defaults this) key v) = Rejects reason →
     ∃ this',
       set key v this = (Ok (Fulfilled false), this') ∧
       batchSet_calls this' = batchSet_calls this ++ [(key, newValOf (_defaults this) key v)] ∧
       notify_errors this' = notify_errors this ++ [reason] ∧
       isDeclared this' key = true ∧
       isCustom this' key = true ∧
       get this' key VUndefined = Ok VUndefined).
Proof.
  intros Hdecl Hv.
  set (newVal := newValOf (_defaults this) key v).
  assert (strict_eq VUndefined newVal = false) as Hch.
  { unfold newVal, newValOf. destruct (_ && _); [done|]. by destruct v. }
  set (this1 :=
    with_batchSet_calls (batchSet_calls this ++ [(key, newVal)])
      (with_observer_calls
         (observer_calls this ++ broadcast (_updateObservers this) key newVal VUndefined)
         (with_cache (<[key := storeUserValue ∅ newVal]> (<[key := ∅]> (_cache this))) this))).
  assert (_updateBody key v this =
    match _api this key newVal with
    | Resolves settings =>
        bind (modify (with_cache (defaultsDeep [_defaults this; settings]))) (λ _, ret true)
    | Rejects reason =>
        bind (_setLocally key VUndefined) (λ _,
          bind (modify (λ this0, with_notify_errors (notify_errors this0 ++ [reason]) this0))
            (λ _, ret false))
    end this1) as Hbody.
  { unfold _updateBody. unfold bind at 1, assertUpdateAllowed.
    unfold isOverridden. rewrite Hdecl. cbn [andb].
    unfold bind at 1, read at 1. rewrite Hdecl.
    unfold bind at 1, read at 1. unfold bind at 1, read at 1.
    fold newVal. rewrite Hch. unfold bind at 1, ret at 1.
    unfold bind at 1. rewrite (_setLocally_undeclared _ _ _ Hdecl).
    unfold bind at 1, modify at 1. unfold bind at 1, read at 1. reflexivity. }
  split.
  - intros settings Hapi. rewrite Hapi in Hbody. eexists.
    split; [apply set_Ok; rewrite Hbody; reflexivity|]. by client_fields.
  - intros reason Hapi. rewrite Hapi in Hbody. unfold bind at 1 in Hbody.
    erewrite _setLocally_declared in Hbody;
      [|unfold this1; client_fields; apply lookup_insert_eq
       |by rewrite storeUserValue_field, field_empty
       |apply effectiveValue_plain; by rewrite storeUserValue_field, field_empty].
    eexists. split; [apply set_Ok; rewrite Hbody; reflexivity|]. unfold this1. client_fields.
    set (entry := storeUserValue (storeUserValue ∅ newVal) VUndefined).
    set (this' := with_notify_errors _ _).
    assert (_cache this' !! key = Some entry) as He by apply lookup_insert_eq.
    assert (entry !! "value" = None) as Hvalue.
    { unfold entry. by rewrite !storeUserValue_lookup, lookup_empty. }
    assert (field entry "userValue" = VUndefined) as Huser.
    { unfold entry. by rewrite storeUserValue_userValue_plain
        by (by rewrite storeUserValue_field, field_empty). }
    assert (field entry "type" = VUndefined) as Htype.
    { unfold entry. by rewrite !storeUserValue_field, field_empty. }
    split_and!; try done.
    + by eapply isDeclared_Some.
    + unfold isCustom. rewrite (isDeclared_Some _ _ _ He), (cached_Some _ _ _ He), Hvalue.
      cbn [andb negb]. rewrite bool_decide_eq_false_2; [done|]. by intros [? ?].
    + rewrite (get_declared _ _ _ He), effectiveValue_plain by (by rewrite Htype).
      rewrite Huser. cbn [is_nullish]. unfold field. by rewrite Hvalue.
Qed.

(** *** Observers *)
Lemma calls_to_broadcast (o : nat) observers key nv ov :
  filter (λ call : nat * UpdateEvent, call.1 = o) (broadcast observers key nv ov) =
  broadcast (filter (λ o', o' = o) observers) key nv ov.
Proof.
  unfold broadcast. induction observers as [|o' os IH]; [done|].
  rewrite fmap_cons. destruct (decide (o' = o)) as [Heq|Hne].
  - rewrite !filter_cons_True by done. by rewrite fmap_cons, IH.
  - by rewrite !filter_cons_False by done.
Qed.

Lemma filter_eq_notin (o : nat) (os : list nat) :
  o ∉ os → filter (λ o', o' = o) os = [].
Proof.
  intros Hnotin. destruct (filter _ os) as [|x rest] eqn:Hf; [done|].
  assert (x ∈ filter (λ o', o' = o) os) as [-> ?]%list_elem_of_filter by (rewrite Hf; left).
  done.
Qed.

Lemma filter_eq_NoDup (o : nat) (os : list nat) :
  NoDup os → o ∈ os → filter (λ o', o' = o) os = [o].
Proof.
  induction 1 as [|o' os Hnotin Hnd IH]; [by intros ?%elem_of_nil|].
  intros [->|Hin]%elem_of_cons.
  - rewrite filter_cons_True by done. by rewrite filter_eq_notin.
  - rewrite filter_cons_False; [by apply IH|]. by intros ->.
Qed.

(** X18. [subscribe] adds to a set: subscribing an observer again changes
    nothing, and after [subscribe] a broadcast calls the observer once, with
    the event. *)
Theorem subscribed_observer_is_called_once this (observer : nat) key newValue oldValue :
  NoDup (_updateObservers this) →
  subscribe observer (subscribe observer this).2 = (Ok tt, (subscribe observer this).2) ∧
  NoDup (_updateObservers (subscribe observer this).2) ∧
  filter (λ call : nat * UpdateEvent, call.1 = observer)
         (observer_calls (_broadcastUpdate key newValue oldValue (subscribe observer this).2).2)
  = filter (λ call : nat * UpdateEvent, call.1 = observer) (observer_calls this) ++
    [(observer, {| ev_key := key; ev_newValue := newValue; ev_oldValue := oldValue |})].
Proof.
  intros Hnd. unfold subscribe, _broadcastUpdate, modify. client_fields.
  destruct (bool_decide (observer ∈ _updateObservers this)) eqn:Hin.
  - rewrite Hin. apply bool_decide_eq_true in Hin.
    split_and!; [done|done|]. client_fields.
    by rewrite filter_app, calls_to_broadcast, filter_eq_NoDup.
  - apply bool_decide_eq_false in Hin. client_fields.
    rewrite bool_decide_eq_true_2 by (apply elem_of_app; right; left).
    split_and!; [done| |].
    + apply NoDup_app. split_and!; [done| |apply NoDup_singleton].
      intros x Hx ->%list_elem_of_singleton. done.
    + rewrite filter_app, calls_to_broadcast, filter_app, filter_eq_notin by done.
      by rewrite filter_cons_True by done.
Qed.

(** X19. [unsubscribe] removes the observer and keeps the others in order; a
    broadcast no longer calls it; and for an observer that was not subscribed,
    [subscribe] followed by [unsubscribe] leaves the client as it was. *)
Theorem unsubscribed_observer_is_not_called this (observer : nat) key newValue oldValue :
  _updateObservers (unsubscribe observer this).2 =
    filter (λ o, o ≠ observer) (_updateObservers this) ∧
  filter (λ call : nat * UpdateEvent, call.1 = observer)
         (observer_calls (_broadcastUpdate key newValue oldValue (unsubscribe observer this).2).2)
  = filter (λ call : nat * UpdateEvent, call.1 = observer) (observer_calls this) ∧
  (observer ∉ _updateObservers this →
   unsubscribe observer (subscribe observer this).2 = (Ok tt, this)).
Proof.
  unfold unsubscribe, subscribe, _broadcastUpdate, modify. client_fields.
  split_and!; [done| |].
  - rewrite filter_app, calls_to_broadcast, filter_eq_notin, app_nil_r; [done|].
    intros [? _]%list_elem_of_filter. done.
  - intros Hnotin. rewrite bool_decide_eq_false_2 by done. client_fields.
    rewrite filter_app, filter_cons_False, filter_nil, app_nil_r by (by intros ?).
    assert (filter (λ o, o ≠ observer) (_updateObservers this) = _updateObservers this) as ->.
    { induction (_updateObservers this) as [|o os IH]; [done|].
      apply not_elem_of_cons in Hnotin as [Hne Hnotin].
      rewrite filter_cons_True by done. by rewrite IH. }
    by destruct this.
Qed.

(** *** A new client *)


End ClientUpdates.

(** *** On the sample settings *)

Section ClientUpdatesSamples.

#[local] Existing Instance sampleBuiltins.

(** X7: no date format chosen, a fallback given. *)
Lemma get_prefers_user_value_then_fallback_witness :
  get (dateFormatUntouched storingServer) "dateFormat" (VStr "DD/MM/YYYY")
    = Ok (VStr "DD/MM/YYYY").
Proof.
  apply (get_prefers_user_value_then_fallback (dateFormatUntouched storingServer)
           "dateFormat" (VStr "DD/MM/YYYY")).
  - vm_compute; discriminate.
  - vm_compute; discriminate.
  - discriminate.
Defined.

(** X8 on the chosen date format. *)
Lemma setLocally_then_get_witness :
  ∃ this',
    _setLocally "dateFormat" (VStr "DD/MM/YYYY") (dateFormatChosen storingServer)
      = (Ok tt, this') ∧
    isDeclared this' "dateFormat" = true ∧
    get this' "dateFormat" VUndefined = Ok (VStr "DD/MM/YYYY") ∧
    isDefault this' "dateFormat" = false ∧
    (∀ k, k ≠ "dateFormat" →
          _cache this' !! k = _cache (dateFormatChosen storingServer) !! k).
Proof.
  apply (setLocally_then_get (dateFormatChosen storingServer) "dateFormat" (VStr "DD/MM/YYYY")).
  - vm_compute; reflexivity.
  - vm_compute; discriminate.
  - vm_compute; discriminate.
Defined.

(** X9: no date format chosen, the default replaced. *)
Lemma overrideLocalDefault_then_get_witness :
  get (overrideLocalDefault "dateFormat" (VStr "DD/MM/YYYY")
         (dateFormatUntouched storingServer)).2 "dateFormat" VUndefined
    = Ok (VStr "DD/MM/YYYY").
Proof.
  apply (overrideLocalDefault_then_get (dateFormatUntouched storingServer) "dateFormat"
           (VStr "DD/MM/YYYY")).
  - vm_compute; discriminate.
  - vm_compute; discriminate.
Defined.

(** X10 on the date format. *)
Lemma set_undefined_is_remove_witness :
  set "dateFormat" VUndefined (dateFormatChosen storingServer)
    = remove "dateFormat" (dateFormatChosen storingServer).
Proof.
  apply (set_undefined_is_remove (dateFormatChosen storingServer) "dateFormat"
           {[ "value" := VStr "MMMM Do YYYY" ]}).
  - vm_compute; reflexivity.
  - vm_compute; reflexivity.
Defined.

(** X12: another date format, stored by the server. *)
Lemma resolved_update_refreshes_from_server_witness :
  ∃ this',
    set "dateFormat" (VStr "DD/MM/YYYY") (dateFormatChosen storingServer)
      = (Ok (Fulfilled true), this') ∧
    _cache this' =
      defaultsDeep [dateFormatDefaults;
                    {[ "dateFormat" := {[ "userValue" := VStr "DD/MM/YYYY" ]} ]}] ∧
    batchSet_calls this' = [("dateFormat", VStr "DD/MM/YYYY")] ∧
    observer_calls this' =
      [(7, {| ev_key := "dateFormat"; ev_newValue := VStr "DD/MM/YYYY";
              ev_oldValue := VStr "YYYY-MM-DD" |})] ∧
    notify_errors this' = [].
Proof.
  apply (resolved_update_refreshes_from_server (dateFormatChosen storingServer) "dateFormat"
           (VStr "DD/MM/YYYY") (VStr "YYYY-MM-DD")
           {[ "dateFormat" := {[ "userValue" := VStr "DD/MM/YYYY" ]} ]}).
  - vm_compute; reflexivity.
  - vm_compute; reflexivity.
  - vm_compute; reflexivity.
  - vm_compute; reflexivity.
  - vm_compute; reflexivity.
Defined.

(** X13: the answer carries the new date format; and after [remove] the
    answer lists no date format, so the declared default is back. *)
Lemma get_after_successful_set_witness :
  (∃ this',
     set "dateFormat" (VStr "DD/MM/YYYY") (dateFormatChosen storingServer)
       = (Ok (Fulfilled true), this') ∧
     get this' "dateFormat" VUndefined = Ok (VStr "DD/MM/YYYY") ∧
     isDefault this' "dateFormat" = false) ∧
  (∃ this',
     set "dateFormat" VNull (dateFormatChosen storingServer) = (Ok (Fulfilled true), this') ∧
     get this' "dateFormat" VUndefined = Ok (VStr "MMMM Do YYYY") ∧
     isDefault this' "dateFormat" = true).
Proof.
  split.
  - destruct (get_after_successful_set (dateFormatChosen storingServer) "dateFormat"
                (VStr "DD/MM/YYYY") (VStr "YYYY-MM-DD")
                {[ "dateFormat" := {[ "userValue" := VStr "DD/MM/YYYY" ]} ]})
      as (this' & Hrun & Hlisted & _ & _).
    + vm_compute; reflexivity.
    + vm_compute; reflexivity.
    + vm_compute; reflexivity.
    + vm_compute; reflexivity.
    + vm_compute; reflexivity.
    + vm_compute; reflexivity.
    + vm_compute; discriminate.
    + vm_compute; discriminate.
    + exists this'. split; [exact Hrun|].
      apply Hlisted; [vm_compute; reflexivity|reflexivity].
  - destruct (get_after_successful_set (dateFormatChosen storingServer) "dateFormat"
                VNull (VStr "YYYY-MM-DD") ∅)
      as (this' & Hrun & _ & Hdropped & _).
    + vm_compute; reflexivity.
    + vm_compute; reflexivity.
    + vm_compute; reflexivity.
    + vm_compute; reflexivity.
    + vm_compute; reflexivity.
    + vm_compute; reflexivity.
    + vm_compute; discriminate.
    + vm_compute; discriminate.
    + exists this'. split; [exact Hrun|].
      apply Hdropped; [vm_compute; reflexivity|vm_compute; by eexists].
Defined.


(** X15: another date format, the server down. *)
Lemma rejected_update_reverts_plain_key_witness :
  ∃ this',
    set "dateFormat" (VStr "DD/MM/YYYY") (dateFormatChosen failingServer)
      = (Ok (Fulfilled false), this') ∧
    get this' "dateFormat" VUndefined = Ok (VStr "YYYY-MM-DD") ∧
    notify_errors this' = ["Request failed"] ∧
    batchSet_calls this' = [("dateFormat", VStr "DD/MM/YYYY")] ∧
    observer_calls this' =
      [(7, {| ev_key := "dateFormat"; ev_newValue := VStr "DD/MM/YYYY";
              ev_oldValue := VStr "YYYY-MM-DD" |});
       (7, {| ev_key := "dateFormat"; ev_newValue := VStr "YYYY-MM-DD";
              ev_oldValue := VStr "DD/MM/YYYY" |})].
Proof.
  apply (rejected_update_reverts_plain_key (dateFormatChosen failingServer) "dateFormat"
           (VStr "DD/MM/YYYY") (VStr "YYYY-MM-DD") "Request failed").
  - vm_compute; reflexivity.
  - vm_compute; reflexivity.
  - vm_compute; discriminate.
  - vm_compute; discriminate.
  - vm_compute; reflexivity.
  - vm_compute; reflexivity.
  - vm_compute; reflexivity.
Defined.

(** X16: no date format chosen, the server down. *)
Lemma failed_update_turns_default_into_override_witness :
  ∃ this',
    set "dateFormat" (VStr "DD/MM/YYYY") (dateFormatUntouched failingServer)
      = (Ok (Fulfilled false), this') ∧
    field (cached this' "dateFormat") "userValue" = VStr "MMMM Do YYYY" ∧
    isDefault this' "dateFormat" = false.
Proof.
  apply (failed_update_turns_default_into_override (dateFormatUntouched failingServer)
           "dateFormat" (VStr "DD/MM/YYYY") "Request failed").
  - vm_compute; reflexivity.
  - vm_compute; reflexivity.
  - vm_compute; discriminate.
  - vm_compute; discriminate.
  - vm_compute; reflexivity.
  - vm_compute; reflexivity.
  - vm_compute; reflexivity.
  - vm_compute; reflexivity.
Defined.

(** X17 on a page size the sample client does not declare: the server
    stores it; or the server is down, and the key stays behind. *)
Lemma set_of_unknown_key_witness :
  (∃ this',
     set "pageSize" (VNum 10) (dateFormatChosen storingServer) = (Ok (Fulfilled true), this') ∧
     _cache this' =
       defaultsDeep [dateFormatDefaults; {[ "pageSize" := {[ "userValue" := VNum 10 ]} ]}] ∧
     batchSet_calls this' = [("pageSize", VNum 10)]) ∧
  (∃ this',
     set "pageSize" (VNum 10) (dateFormatChosen failingServer) = (Ok (Fulfilled false), this') ∧
     batchSet_calls this' = [("pageSize", VNum 10)] ∧
     notify_errors this' = ["Request failed"] ∧
     isDeclared this' "pageSize" = true ∧
     isCustom this' "pageSize" = true ∧
     get this' "pageSize" VUndefined = Ok VUndefined).
Proof.
  split.
  - apply (proj1 (@set_of_unknown_key sampleBuiltins (dateFormatChosen storingServer)
                    "pageSize" (VNum 10) ltac:(vm_compute; reflexivity) ltac:(discriminate))
                 {[ "pageSize" := {[ "userValue" := VNum 10 ]} ]}).
    vm_compute; reflexivity.
  - apply (proj2 (@set_of_unknown_key sampleBuiltins (dateFormatChosen failingServer)
                    "pageSize" (VNum 10) ltac:(vm_compute; reflexivity) ltac:(discriminate))
                 "Request failed").
    vm_compute; reflexivity.
Defined.

(** X18 on the observer of the sample client. *)
Lemma subscribed_observer_is_called_once_witness :
  subscribe 7 (subscribe 7 (dateFormatChosen storingServer)).2
    = (Ok tt, (subscribe 7 (dateFormatChosen storingServer)).2) ∧
  NoDup (_updateObservers (subscribe 7 (dateFormatChosen storingServer)).2) ∧
  filter (λ call : nat * UpdateEvent, call.1 = 7)
         (observer_calls
            (_broadcastUpdate "dateFormat" (VStr "DD/MM/YYYY") (VStr "YYYY-MM-DD")
               (subscribe 7 (dateFormatChosen storingServer)).2).2)
  = filter (λ call : nat * UpdateEvent, call.1 = 7)
      (observer_calls (dateFormatChosen storingServer)) ++
    [(7, {| ev_key := "dateFormat"; ev_newValue := VStr "DD/MM/YYYY";
            ev_oldValue := VStr "YYYY-MM-DD" |})].
Proof.
  apply (subscribed_observer_is_called_once (dateFormatChosen storingServer) 7 "dateFormat"
           (VStr "DD/MM/YYYY") (VStr "YYYY-MM-DD")).
  apply NoDup_singleton.
Defined.

(** X19 on the observer of the sample client. *)
Lemma unsubscribed_observer_is_not_called_witness :
  _updateObservers (unsubscribe 7 (dateFormatChosen storingServer)).2 =
    filter (λ o, o ≠ 7) (_updateObservers (dateFormatChosen storingServer)) ∧
  filter (λ call : nat * UpdateEvent, call.1 = 7)
         (observer_calls
            (_broadcastUpdate "dateFormat" (VStr "DD/MM/YYYY") (VStr "YYYY-MM-DD")
               (unsubscribe 7 (dateFormatChosen storingServer)).2).2)
  = filter (λ call : nat * UpdateEvent, call.1 = 7)
      (observer_calls (dateFormatChosen storingServer)) ∧
  (7 ∉ _updateObservers (dateFormatChosen storingServer) →
   unsubscribe 7 (subscribe 7 (dateFormatChosen storingServer)).2
     = (Ok tt, dateFormatChosen storingServer)).
Proof.
  exact (unsubscribed_observer_is_not_called (dateFormatChosen storingServer) 7 "dateFormat"
           (VStr "DD/MM/YYYY") (VStr "YYYY-MM-DD")).
Defined.

(** X21: the saved query set to the text of the empty array. *)
Lemma typed_value_is_converted_on_read_witness :
  ∃ this',
    _setLocally "savedQuery" (VStr "[]") (savedQueryNull storingServer) = (Ok tt, this') ∧
    (field (cached (savedQueryNull storingServer) "savedQuery") "type" = VStr "json" →
     get this' "savedQuery" VUndefined = Ok (VRef sampleArray)) ∧
    (field (cached (savedQueryNull storingServer) "savedQuery") "type" = VStr "number" →
     get this' "savedQuery" VUndefined = Ok (parseFloat (VStr "[]"))).
Proof.
  destruct (typed_value_is_converted_on_read (savedQueryNull storingServer) "savedQuery"
              (VStr "[]") VNull) as (this' & Hrun & Hjson & Hnumber).
  - vm_compute; reflexivity.
  - vm_compute; reflexivity.
  - vm_compute; reflexivity.
  - reflexivity.
  - exists this'. split; [exact Hrun|]. split; [|exact Hnumber].
    intros Htype. rewrite (Hjson Htype). reflexivity.
Defined.


End ClientUpdatesSamples.
